(** * Fake Text Story: timeline and render pipeline of [src/App.tsx]

    A shallow embedding of the reveal schedule, the dual-mode clock, the
    chat body rendering and the MP4 export sequence of [App.tsx], with the
    properties of the timeline proved over it.

    JavaScript numbers are modelled by [JS.number]: the rationals extended
    with [NaN] and the two infinities.  [round64] is the rounding of
    binary64 (to the nearest number, a tie to the even one, overflow to
    the infinities), and [mul64] and [div64] are the product and the
    quotient of binary64.  They are used for the delays in seconds, the
    durations of the speech, the seek of the transport bar and the times
    that it prints.  Sums and differences are exact, as binary64 is on the
    whole numbers below [2^53].  The metrics of the layout (the HUD and the
    preview box) are computed with exact products and quotients: what is
    proved of them are the bounds that the clamps of the code enforce.  The
    sign of zero is not modelled.  Every operation returns its rational
    result in lowest terms, so that two results that denote the same
    number are equal terms. *)

From Stdlib Require Import ZArith QArith Qround Qreduction Qcanon Lqa.
From Stdlib Require Import List String Ascii Bool Arith Lia DecimalString.
From Stdlib Require Import Permutation Qpower Qabs.
Import ListNotations.

Local Open Scope nat_scope.

(* ------------------------------------------------------------------ *)
(** ** JavaScript numbers *)

Module JS.

Inductive number : Type :=
| NaN
| PosInf
| NegInf
| Fin (q : Q).

Definition of_Z (z : Z) : number := Fin (inject_Z z).
Definition of_nat (n : nat) : number := of_Z (Z.of_nat n).

Definition is_zero (q : Q) : bool := Qeq_bool q 0.

(** [a + b] *)
Definition add (a b : number) : number :=
  match a, b with
  | NaN, _ | _, NaN => NaN
  | PosInf, NegInf | NegInf, PosInf => NaN
  | PosInf, _ | _, PosInf => PosInf
  | NegInf, _ | _, NegInf => NegInf
  | Fin x, Fin y => Fin (Qred (x + y))
  end.

(** [a - b] *)
Definition sub (a b : number) : number :=
  match a, b with
  | NaN, _ | _, NaN => NaN
  | PosInf, PosInf | NegInf, NegInf => NaN
  | PosInf, _ | _, NegInf => PosInf
  | NegInf, _ | _, PosInf => NegInf
  | Fin x, Fin y => Fin (Qred (x - y))
  end.

(** The infinity whose sign is the sign of [q], [NaN] at zero. *)
Definition inf_of_sign (q : Q) : number :=
  match Qcompare q 0 with
  | Eq => NaN
  | Gt => PosInf
  | Lt => NegInf
  end.

(** [a * b] *)
Definition mul (a b : number) : number :=
  match a, b with
  | NaN, _ | _, NaN => NaN
  | PosInf, PosInf | NegInf, NegInf => PosInf
  | PosInf, NegInf | NegInf, PosInf => NegInf
  | PosInf, Fin y | Fin y, PosInf => inf_of_sign y
  | NegInf, Fin y | Fin y, NegInf => inf_of_sign (- y)
  | Fin x, Fin y => Fin (Qred (x * y))
  end.

(** [a / b]; a finite non-zero number divided by zero is an infinity. *)
Definition div (a b : number) : number :=
  match a, b with
  | NaN, _ | _, NaN => NaN
  | (PosInf | NegInf), (PosInf | NegInf) => NaN
  | PosInf, Fin y => if Qle_bool 0 y then PosInf else NegInf
  | NegInf, Fin y => if Qle_bool 0 y then NegInf else PosInf
  | Fin _, (PosInf | NegInf) => Fin 0
  | Fin x, Fin y => if is_zero y then inf_of_sign x else Fin (Qred (x / y))
  end.

(** [a <= b]; every comparison with [NaN] is false. *)
Definition le (a b : number) : bool :=
  match a, b with
  | NaN, _ | _, NaN => false
  | NegInf, _ | _, PosInf => true
  | PosInf, _ | _, NegInf => false
  | Fin x, Fin y => Qle_bool x y
  end.

(** [a >= b] *)
Definition ge (a b : number) : bool := le b a.

(** [Math.round]: the nearest integer, halves towards plus infinity. *)
Definition Math_round (a : number) : number :=
  match a with
  | Fin x => of_Z (Qfloor (x + (1 # 2)))
  | _ => a
  end.

(** [Math.ceil] *)
Definition Math_ceil (a : number) : number :=
  match a with
  | Fin x => of_Z (Qceiling x)
  | _ => a
  end.

(** [Math.max(a, b)] *)
Definition Math_max (a b : number) : number :=
  match a, b with
  | NaN, _ | _, NaN => NaN
  | _, _ => if le a b then b else a
  end.

(** [Math.min(a, b)] *)
Definition Math_min (a b : number) : number :=
  match a, b with
  | NaN, _ | _, NaN => NaN
  | _, _ => if le a b then a else b
  end.

(** Truthiness of a number: [NaN] and zero are falsy. *)
Definition truthy (a : number) : bool :=
  match a with
  | NaN => false
  | Fin x => negb (is_zero x)
  | _ => true
  end.

(** [a || b] on an array element that may be [undefined]. *)
Definition or_else (a : option number) (b : number) : number :=
  match a with
  | Some v => if truthy v then v else b
  | None => b
  end.

(** [a ?? b]: only [undefined] (and [null]) are replaced. *)
Definition nullish {A : Type} (a : option A) (b : A) : A :=
  match a with
  | Some v => v
  | None => b
  end.

(** [typeof a === 'number'] on an optional property. *)
Definition typeof_number (a : option number) : bool :=
  match a with
  | Some _ => true
  | None => false
  end.

(** [a || b] on strings: the empty string is falsy. *)
Definition str_or (a b : string) : string :=
  match a with
  | EmptyString => b
  | _ => a
  end.

(** *** Rounding to binary64 *)

(** [2^k] *)
Definition pow2 (k : Z) : Q := Qpower 2 k.

(** The integer nearest to [q], a half going to the even neighbour. *)
Definition round_half_even (q : Q) : Z :=
  let f := Qfloor q in
  match Qcompare (q - inject_Z f) (1 # 2) with
  | Lt => f
  | Gt => (f + 1)%Z
  | Eq => if Z.even f then f else (f + 1)%Z
  end.

(** [floor(log2(q))] of a rational above 0. *)
Definition Qlog2 (q : Q) : Z :=
  let k := (Z.log2 (Qnum q) - Z.log2 (Zpos (Qden q)))%Z in
  if Qle_bool (pow2 k) q then k else (k - 1)%Z.

(** The exponent of the last bit of the binary64 numbers around a
    rational above 0: 53 bits of significand, and no exponent below
    -1074. *)
Definition exponent64 (q : Q) : Z := Z.max (-1074) (Qlog2 q - 52).

(** The multiple of [2^exponent64] nearest to a rational above 0. *)
Definition nearest64 (q : Q) : Q :=
  (inject_Z (round_half_even (q / pow2 (exponent64 q)))
   * pow2 (exponent64 q))%Q.

(** The binary64 number nearest to a rational above 0: [Infinity] from
    [2^1024] on. *)
Definition round64_pos (q : Q) : number :=
  if Qle_bool (pow2 1024) (nearest64 q) then PosInf
  else Fin (Qred (nearest64 q)).

(** The binary64 number nearest to a rational. *)
Definition round64 (q : Q) : number :=
  match Qcompare q 0 with
  | Eq => Fin 0
  | Gt => round64_pos q
  | Lt => match round64_pos (- q) with
          | Fin v => Fin (- v)
          | _ => NegInf
          end
  end.

(** [a * b] in binary64: the product, rounded. *)
Definition mul64 (a b : number) : number :=
  match mul a b with
  | Fin q => round64 q
  | x => x
  end.

(** [a / b] in binary64: the quotient, rounded. *)
Definition div64 (a b : number) : number :=
  match div a b with
  | Fin q => round64 q
  | x => x
  end.

End JS.

Import JS.

(* ------------------------------------------------------------------ *)
(** ** Messages and the reveal schedule *)

Inductive Speaker : Type := SENDER | RECEIVER.

(** The elements of the [messages] array of [FakeTextPreview]. *)
Record Message : Type := mkMessage {
  id : string;
  speaker : Speaker;
  text : string;
  delay_s : option number;
  read_receipt : option string;
  tapback : option string
}.

(** An entry [{ id, at }] of the schedule ([at] is a keyword here). *)
Record Entry : Type := mkEntry {
  entry_id : string;
  at_ : number
}.

(** [Math.round((m.delay_s ?? 3) * 1000)] *)
Definition delayMs (m : Message) : number :=
  Math_round (mul64 (nullish (delay_s m) (of_Z 3)) (of_Z 1000)).

(** The callback of [messages.map] with the captured accumulator [acc]
    threaded through the traversal. *)
Fixpoint schedule_map (acc : number) (messages : list Message) : list Entry :=
  match messages with
  | [] => []
  | m :: rest =>
      let d := delayMs m in
      let at' := acc in
      let acc := add acc d in
      {| entry_id := id m; at_ := at' |} :: schedule_map acc rest
  end.

(** [let acc = 0; return messages.map(...)] *)
Definition schedule (messages : list Message) : list Entry :=
  schedule_map (of_Z 0) messages.

(** [while (i < schedule.length && timeMs >= schedule[i].at - 5) i++]
    from the index [i], with at most [fuel] iterations. *)
Fixpoint visibleCount_loop (fuel : nat) (schedule : list Entry)
    (timeMs : number) (i : nat) : nat :=
  match fuel with
  | O => i
  | S fuel' =>
      match nth_error schedule i with
      | Some e =>
          if ge timeMs (sub (at_ e) (of_Z 5))
          then visibleCount_loop fuel' schedule timeMs (S i)
          else i
      | None => i
      end
  end.

(** [let i = 0; while (...) i++; return i]: the index grows at every
    iteration, so [schedule.length] iterations are enough. *)
Definition visibleCount (schedule : list Entry) (timeMs : number) : nat :=
  visibleCount_loop (List.length schedule) schedule timeMs 0.

(** The test of the loop. *)
Definition revealed (timeMs : number) (e : Entry) : bool :=
  ge timeMs (sub (at_ e) (of_Z 5)).

(** The length of the longest prefix of revealed entries. *)
Fixpoint revealed_prefix (timeMs : number) (s : list Entry) : nat :=
  match s with
  | [] => 0
  | e :: s' => if revealed timeMs e then S (revealed_prefix timeMs s') else 0
  end.


(** The running total of the delays of a list of messages, added in order
    from [acc]. *)
Definition delays_total (acc : number) (ms : list Message) : number :=
  fold_left (fun a m => add a (delayMs m)) ms acc.

(** The schedule is non-decreasing in list order. *)
Fixpoint nondecreasing (ats : list number) : bool :=
  match ats with
  | [] => true
  | a :: rest =>
      match rest with
      | [] => true
      | b :: _ => le a b && nondecreasing rest
      end
  end.

(** The delay of the message is absent or [delay_s >= 0] holds, which
    is false of [NaN] and of the negative numbers. *)
Definition delay_ok (m : Message) : bool :=
  match delay_s m with
  | None => true
  | Some x => ge x (of_Z 0)
  end.

(** A message with a given id and delay and nothing else. *)
Definition msg (i : string) (d : option number) : Message :=
  {| id := i; speaker := SENDER; text := EmptyString; delay_s := d;
     read_receipt := None; tapback := None |}.

(** The messages [[{delaySeconds: 2}, {delaySeconds: 5}, {}]]. *)
Definition three_messages : list Message :=
  [msg "m0" (Some (of_Z 2)); msg "m1" (Some (of_Z 5)); msg "m2" None].

(** Messages with a negative delay: [[{delay_s: 5}, {delay_s: -3}, {}]]. *)
Definition backwards_messages : list Message :=
  [msg "m0" (Some (of_Z 5)); msg "m1" (Some (of_Z (-3))); msg "m2" None].

(* ------------------------------------------------------------------ *)
(** ** The presentation surface: [FakeTextPreview] *)

(** The properties of [FakeTextPreview] that the timeline reads (the
    layout settings and colours only style the output). *)
Record Props : Type := mkProps {
  exportMode : bool;
  contactName : string;
  avatarUrl : option string;
  timeLine : string;
  messages : list Message;
  durationMs : number;
  timeOverrideMs : option number
}.

(** The state of one mounted preview: the two [useState] cells, the two
    refs, and the frame requests that the browser holds for it, each with
    the value of [t] that its callback [step] has captured. *)
Record Preview : Type := mkPreview {
  playing : bool;
  t : number;
  raf : option nat;
  startRef : option number;
  pending : list (nat * number);
  fresh : nat
}.

(** [useState(!exportMode)], [useState(0)], [useRef(null)] twice. *)
Definition mount (p : Props) : Preview :=
  {| playing := negb (exportMode p); t := of_Z 0; raf := None;
     startRef := None; pending := []; fresh := 1 |}.

(** [exportMode && typeof timeOverrideMs === 'number' ? timeOverrideMs : t] *)
Definition timeMs (p : Props) (st : Preview) : number :=
  if exportMode p && typeof_number (timeOverrideMs p)
  then nullish (timeOverrideMs p) (t st)
  else t st.

(** What the chat body shows: row 0 is the time separator, then one
    bubble per visible message. *)
Inductive Node : Type :=
| TimeSeparator (label : string)
| Bubble (m : Message).

(** [messages.slice(0, visibleCount)] *)
Definition slice0 {A : Type} (l : list A) (n : nat) : list A := firstn n l.

Definition chatBody (p : Props) (st : Preview) : list Node :=
  TimeSeparator (timeLine p)
  :: map Bubble
       (slice0 (messages p)
          (visibleCount (schedule (messages p)) (timeMs p st))).

Definition bubbles (nodes : list Node) : list Message :=
  flat_map (fun n => match n with Bubble m => [m] | _ => [] end) nodes.

(** *** The timeline runner *)

Definition cancelAnimationFrame (h : nat) (st : Preview) : Preview :=
  {| playing := playing st; t := t st; raf := raf st;
     startRef := startRef st;
     pending := filter (fun r => negb (Nat.eqb (fst r) h)) (pending st);
     fresh := fresh st |}.

(** [raf.current = requestAnimationFrame(step)], where [step] has captured
    the value [captured] of [t]. *)
Definition requestAnimationFrame (captured : number) (st : Preview) : Preview :=
  {| playing := playing st; t := t st; raf := Some (fresh st);
     startRef := startRef st;
     pending := pending st ++ [(fresh st, captured)];
     fresh := S (fresh st) |}.

(** [if (raf.current) cancelAnimationFrame(raf.current)]; the handle 0 is
    falsy. *)
Definition cancel_current (st : Preview) : Preview :=
  match raf st with
  | Some (S h) => cancelAnimationFrame (S h) st
  | _ => st
  end.

(** The body of the timeline effect. *)
Definition timeline_effect (p : Props) (st : Preview) : Preview :=
  if exportMode p && typeof_number (timeOverrideMs p) then st
  else if negb (playing st) then cancel_current st
  else requestAnimationFrame (t st) st.

(** The callback [step(now)] of the frame request [(h, captured)]. *)
Definition on_frame (h : nat) (captured now : number) (st : Preview) : Preview :=
  let start := match startRef st with
               | Some s => s
               | None => sub now captured
               end in
  let elapsed := sub now start in
  {| playing := playing st; t := elapsed; raf := Some (fresh st);
     startRef := Some start;
     pending := filter (fun r => negb (Nat.eqb (fst r) h)) (pending st)
                ++ [(fresh st, captured)];
     fresh := S (fresh st) |}.

(** The timer of the height animation:
    [startRef.current = performance.now(); setT(0)]. *)
Definition loop_reset (now : number) (st : Preview) : Preview :=
  {| playing := playing st; t := of_Z 0; raf := raf st;
     startRef := Some now; pending := pending st; fresh := fresh st |}.

(** [onTogglePlay] *)
Definition onTogglePlay (st : Preview) : Preview :=
  {| playing := negb (playing st); t := t st; raf := raf st;
     startRef := startRef st; pending := pending st; fresh := fresh st |}.

Definition clamp01 (n : number) : number :=
  Math_max (of_Z 0) (Math_min (of_Z 1) n).

(** [onSeekRatio(r)] at the time [now] of [performance.now()] *)
Definition onSeekRatio (p : Props) (r now : number) (st : Preview) : Preview :=
  let v := mul64 (clamp01 r) (durationMs p) in
  {| playing := playing st; t := v; raf := raf st;
     startRef := Some (sub now v); pending := pending st; fresh := fresh st |}.

Definition set_override (p : Props) (v : number) : Props :=
  {| exportMode := exportMode p; contactName := contactName p;
     avatarUrl := avatarUrl p; timeLine := timeLine p;
     messages := messages p; durationMs := durationMs p;
     timeOverrideMs := Some v |}.

(** One step of a mounted preview.  The transport bar is rendered only
    when [exportMode] is false; the effect and its cleanup run when React
    schedules them; a frame callback runs only for a request that the
    browser still holds; the host of an export sets the override. *)
Inductive step : Props * Preview -> Props * Preview -> Prop :=
| step_effect : forall p st,
    step (p, st) (p, timeline_effect p st)
| step_cleanup : forall p st,
    step (p, st) (p, cancel_current st)
| step_frame : forall p st h captured now,
    In (h, captured) (pending st) ->
    step (p, st) (p, on_frame h captured now st)
| step_reset : forall p st now,
    step (p, st) (p, loop_reset now st)
| step_toggle : forall p st,
    exportMode p = false ->
    step (p, st) (p, onTogglePlay st)
| step_seek : forall p st r now,
    exportMode p = false ->
    step (p, st) (p, onSeekRatio p r now st)
| step_setExportTime : forall p st v,
    exportMode p = true ->
    step (p, st) (set_override p v, st).

Inductive steps : Props * Preview -> Props * Preview -> Prop :=
| steps_refl : forall c, steps c c
| steps_snoc : forall c c' c'', steps c c' -> step c' c'' -> steps c c''.

(** What holds of a preview whose clock is driven by the export. *)
Definition export_driven (c : Props * Preview) : Prop :=
  exportMode (fst c) = true
  /\ typeof_number (timeOverrideMs (fst c)) = true
  /\ playing (snd c) = false
  /\ t (snd c) = of_Z 0
  /\ raf (snd c) = None
  /\ pending (snd c) = [].


(* ------------------------------------------------------------------ *)
(** ** The builder and its MP4 export: [FakeTextBuilder] *)

Module FakeTextBuilder.

Definition bytes : Type := list Byte.byte.

Inductive Tab : Type := SCRIPT | VOICES | ADVANCED | BACKGROUND | EXPORT.

(** The two speech endpoints: [/users/me/voices/<voice>/speech], which is
    tried first, and [/audio/speech]. *)
Inductive Endpoint : Type := UserVoiceSpeech | AudioSpeech.

Record Response : Type := mkResponse {
  ok : bool;
  status : Z;
  body : bytes
}.

(** What the export does to the world outside of the builder's state. *)
Inductive Event : Type :=
| Fetch (endpoint : Endpoint) (voice text : string)
| Render (p : Props)
| Unmount
| RemoveOff
| AwaitFrame
| SetExportTime (ms : number)
| Html2canvas
| WriteFile (name : string) (data : bytes)
| Exec (args : list string)
| ReadFile (name : string)
| Download (name : string) (data : bytes)
| ConsoleError (message : string).

(** The answers of the collaborators.  [fetch] is [None] when the promise
    rejects; [decodeAudioData] gives the duration of the buffer in
    seconds, or [None] when it rejects; [toBlob] gives the JPEG of the
    capture at a step, or [None] for a null blob. *)
Record World : Type := mkWorld {
  fetch : Endpoint -> Z -> string -> string -> option Response;
  decodeAudioData : bytes -> option number;
  import_html2canvas : bool;
  toBlob : nat -> number -> option bytes;
  import_ffmpeg : bool;
  ffmpeg_load : bool;
  ffmpeg_writeFile : string -> bool;
  ffmpeg_exec : list string -> bool;
  ffmpeg_readFile : string -> option bytes
}.

(** The state of the builder that the export reads and writes, and the
    trace of its calls, oldest first. *)
Record State : Type := mkState {
  contactName : string;
  avatarUrl : option string;
  timeLine : string;
  messages : list Message;
  senderVoice : string;
  receiverVoice : string;
  voices : list string;
  tab : Tab;
  exporting : bool;
  exportNote : string;
  events : list Event
}.

Inductive Result (A : Type) : Type :=
| Ok (a : A)
| Throw (message : string)
| Diverge.

Arguments Ok {A} a.
Arguments Throw {A} message.
Arguments Diverge {A}.

(** An asynchronous computation of the builder. *)
Definition M (A : Type) : Type := State -> Result A * State.

Definition ret {A : Type} (a : A) : M A := fun s => (Ok a, s).

Definition bind {A B : Type} (c : M A) (k : A -> M B) : M B :=
  fun s =>
    match c s with
    | (Ok a, s') => k a s'
    | (Throw e, s') => (Throw e, s')
    | (Diverge, s') => (Diverge, s')
    end.

Definition throw {A : Type} (message : string) : M A :=
  fun s => (Throw message, s).

Definition diverge {A : Type} : M A := fun s => (Diverge, s).

Declare Scope builder_scope.
Delimit Scope builder_scope with builder.

Notation "x <- c ;; k" := (bind c (fun x => k))
  (at level 100, c at next level, right associativity) : builder_scope.
Notation "c ;;; k" := (bind c (fun _ => k))
  (at level 100, right associativity) : builder_scope.

Local Open Scope builder_scope.
Local Open Scope string_scope.

Definition set_events (s : State) (evs : list Event) : State :=
  mkState (contactName s) (avatarUrl s) (timeLine s) (messages s)
    (senderVoice s) (receiverVoice s) (voices s) (tab s) (exporting s)
    (exportNote s) evs.

(** A call that the trace records. *)
Definition emit (e : Event) : M unit :=
  fun s => (Ok tt, set_events s (events s ++ [e])).

Definition setTab (v : Tab) : M unit :=
  fun s =>
    (Ok tt,
     mkState (contactName s) (avatarUrl s) (timeLine s) (messages s)
       (senderVoice s) (receiverVoice s) (voices s) v (exporting s)
       (exportNote s) (events s)).

Definition setExporting (v : bool) : M unit :=
  fun s =>
    (Ok tt,
     mkState (contactName s) (avatarUrl s) (timeLine s) (messages s)
       (senderVoice s) (receiverVoice s) (voices s) (tab s) v
       (exportNote s) (events s)).

Definition setExportNote (v : string) : M unit :=
  fun s =>
    (Ok tt,
     mkState (contactName s) (avatarUrl s) (timeLine s) (messages s)
       (senderVoice s) (receiverVoice s) (voices s) (tab s) (exporting s)
       v (events s)).

Definition get : M State := fun s => (Ok s, s).

(** A step that throws when the collaborator fails. *)
Definition require (b : bool) (message : string) : M unit :=
  if b then ret tt else throw message.

(** [String(n)] *)
Definition String_nat (n : nat) : string :=
  DecimalString.NilZero.string_of_uint (Nat.to_uint n).

Definition String_Z (z : Z) : string :=
  DecimalString.NilZero.string_of_int (Z.to_int z).

Fixpoint repeat_char (c : ascii) (n : nat) : string :=
  match n with
  | O => EmptyString
  | S n' => String c (repeat_char c n')
  end.

(** [s.padStart(n, '0')] *)
Definition padStart (n : nat) (s : string) : string :=
  repeat_char "0"%char (n - String.length s) ++ s.

(** [await fetch(url, ...)] on one of the two speech endpoints. *)
Definition do_fetch (w : World) (ep : Endpoint) (idx : Z)
    (voice text : string) : M Response :=
  emit (Fetch ep voice text) ;;;
  match fetch w ep idx voice text with
  | Some res => ret res
  | None => throw "Failed to fetch"
  end.

(** [synthesizeSegment(text, voice, idx)] *)
Definition synthesizeSegment (w : World) (text voice : string) (idx : Z)
    : M (bytes * number) :=
  res <- do_fetch w UserVoiceSpeech idx voice text ;;
  res <- (if negb (ok res)
          then do_fetch w AudioSpeech idx voice text
          else ret res) ;;
  if negb (ok res)
  then throw ("TTS failed (" ++ String_Z (status res) ++ ")")
  else
    let ab := body res in
    match decodeAudioData w ab with
    | None => throw "decodeAudioData failed"
    | Some duration =>
        let durationMs := Math_round (mul64 duration (of_Z 1000)) in
        ret (ab, durationMs)
    end.

(** [(m.speaker === 'SENDER' ? senderVoice : receiverVoice) || voices[0] || 'alloy'] *)
Definition voice_of (s : State) (m : Message) : string :=
  str_or
    (str_or (match speaker m with
             | SENDER => senderVoice s
             | RECEIVER => receiverVoice s
             end)
            (nullish (nth_error (voices s) 0) EmptyString))
    "alloy".

(** The speech loop [for (let i = 0; i < messages.length; i++)] from the
    index [i], where [rest] are the messages from [i] on and [total] is
    [messages.length]. *)
Fixpoint speech_loop (w : World) (total : nat) (i : nat) (rest : list Message)
    (audioSegBytes : list bytes) (audioDurations : list number)
    : M (list bytes * list number) :=
  match rest with
  | [] => ret (audioSegBytes, audioDurations)
  | m :: rest' =>
      s <- get ;;
      let voice := voice_of s m in
      setExportNote ("Generating speech (" ++ String_nat (i + 1) ++ "/"
                     ++ String_nat total ++ ")…") ;;;
      seg <- synthesizeSegment w (text m) voice (Z.of_nat i) ;;
      speech_loop w total (S i) rest'
        (audioSegBytes ++ [fst seg]) (audioDurations ++ [snd seg])
  end.

Definition with_delay (m : Message) (d : number) : Message :=
  {| id := id m; speaker := speaker m; text := text m; delay_s := Some d;
     read_receipt := read_receipt m; tapback := tapback m |}.

(** [Math.max(0.01, Math.round((audioDurations[i] || 0) / 10) / 100)] *)
Definition exportDelay (audioDurations : list number) (i : nat) : number :=
  Math_max (Fin (1 # 100))
    (div (Math_round (div (or_else (nth_error audioDurations i) (of_Z 0))
                          (of_Z 10)))
         (of_Z 100)).

(** [l.map((m, i) => f(m, i))] from the index [i]. *)
Fixpoint mapi {A B : Type} (f : A -> nat -> B) (i : nat) (l : list A) : list B :=
  match l with
  | [] => []
  | a :: l' => f a i :: mapi f (S i) l'
  end.

(** [messages.map((m, i) => ({ ...m, delay_s: ... }))] *)
Definition messagesForExport (messages : list Message)
    (audioDurations : list number) : list Message :=
  mapi (fun m i => with_delay m (exportDelay audioDurations i)) 0 messages.

(** [audioDurations.reduce((a, b) => a + b, 0)] *)
Definition sum_durations (audioDurations : list number) : number :=
  fold_left add audioDurations (of_Z 0).

(** [messages.reduce(...)] of the rounded delays, then
    [Math.max(3000, total + 1500)]. *)
Definition naturalDurationMs (messages : list Message) : number :=
  let total := fold_left (fun acc m => add acc (delayMs m)) messages (of_Z 0) in
  Math_max (of_Z 3000) (add total (of_Z 1500)).

Definition fps : number := of_Z 30.

(** [Math.round(1000 / fps)] *)
Definition dt : number := Math_round (div (of_Z 1000) fps).

(** [Math.ceil(naturalTotalMs / dt)] *)
Definition totalFrames (naturalTotalMs : number) : number :=
  Math_ceil (div naturalTotalMs dt).

(** [Math.min(naturalTotalMs, Math.round(i * dt))] *)
Definition exportTimelineMs (naturalTotalMs : number) (i : nat) : number :=
  Math_min naturalTotalMs (Math_round (mul (of_nat i) dt)).

(** The capture loop [for (let i = 0; i <= totalFrames; i++)] from the
    index [i], with at most [fuel] iterations. *)
Fixpoint capture_loop (w : World) (fuel : nat) (naturalTotalMs : number)
    (i : nat) (frames : list bytes) : M (list bytes) :=
  match fuel with
  | O => diverge
  | S fuel' =>
      if le (of_nat i) (totalFrames naturalTotalMs) then
        let ms := exportTimelineMs naturalTotalMs i in
        emit (SetExportTime ms) ;;;
        emit AwaitFrame ;;;
        emit Html2canvas ;;;
        match toBlob w i ms with
        | None => throw "Canvas toBlob failed"
        | Some ab => capture_loop w fuel' naturalTotalMs (S i) (frames ++ [ab])
        end
      else ret frames
  end.

(** The loop that writes [frame_00000.jpg], [frame_00001.jpg], ... *)
Fixpoint write_frames (w : World) (i : nat) (frames : list bytes) : M unit :=
  match frames with
  | [] => ret tt
  | f :: rest =>
      let name := "frame_" ++ padStart 5 (String_nat i) ++ ".jpg" in
      emit (WriteFile name f) ;;;
      require (ffmpeg_writeFile w name) "writeFile failed" ;;;
      write_frames w (S i) rest
  end.

(** The loop that writes [seg_000.mp3], ... and collects the input
    arguments and the inputs of the concat filter. *)
Fixpoint write_segments (w : World) (i : nat) (segs : list bytes)
    (inputArgs concatInputs : list string) : M (list string * list string) :=
  match segs with
  | [] => ret (inputArgs, concatInputs)
  | a :: rest =>
      let aName := "seg_" ++ padStart 3 (String_nat i) ++ ".mp3" in
      emit (WriteFile aName a) ;;;
      require (ffmpeg_writeFile w aName) "writeFile failed" ;;;
      write_segments w (S i) rest
        (inputArgs ++ ["-i"; aName])
        (concatInputs ++ ["[" ++ String_nat i ++ ":a]"])
  end.

Definition ffmpeg_run (w : World) (args : list string) : M unit :=
  emit (Exec args) ;;;
  require (ffmpeg_exec w args) "exec failed".

(** The host of the export: a [FakeTextPreview] in export mode whose time
    override is the state [timeMs] of the host, initially 0. *)
Definition ExportHost (s : State) (msgs : list Message) (duration : number)
    : Props :=
  mkProps true (contactName s) (avatarUrl s) (timeLine s) msgs duration
    (Some (of_Z 0)).

(** [root.render(node)] of a root of react-dom: a root that has been
    unmounted throws. *)
Definition root_render (mounted : bool) (p : Props) : M unit :=
  if mounted then emit (Render p)
  else throw "Cannot update an unmounted root.".

(** The body of the [try] block of [exportMp4Exact].  The root is
    rendered once while it is mounted, and once more after
    [offRoot.unmount()]. *)
Definition export_try (w : World) (fuel : nat) : M unit :=
  setTab EXPORT ;;;
  setExporting true ;;;
  setExportNote "Preparing renderer..." ;;;
  s <- get ;;
  root_render true
    (ExportHost s (messages s) (naturalDurationMs (messages s))) ;;;
  emit AwaitFrame ;;;
  setExportNote "Generating speech audio…" ;;;
  audio <- speech_loop w (List.length (messages s)) 0 (messages s) [] [] ;;
  let audioSegBytes := fst audio in
  let audioDurations := snd audio in
  let messagesForExport := messagesForExport (messages s) audioDurations in
  emit Unmount ;;;
  root_render false
    (ExportHost s messagesForExport (sum_durations audioDurations)) ;;;
  emit AwaitFrame ;;;
  setExportNote "Capturing frames…" ;;;
  require (import_html2canvas w) "import failed" ;;;
  let naturalTotalMs := sum_durations audioDurations in
  frames <- capture_loop w fuel naturalTotalMs 0 [] ;;
  setExportNote "Encoding audio…" ;;;
  require (import_ffmpeg w) "import failed" ;;;
  require (ffmpeg_load w) "load failed" ;;;
  write_frames w 0 frames ;;;
  inputs <- write_segments w 0 audioSegBytes [] [] ;;
  let inputArgs := fst inputs in
  let concatInputs := snd inputs in
  let filter := String.concat EmptyString concatInputs ++ "concat=n="
                ++ String_nat (List.length audioSegBytes) ++ ":v=0:a=1[a]" in
  ffmpeg_run w (inputArgs ++ ["-filter_complex"; filter; "-map"; "[a]";
                              "-c:a"; "aac"; "voice.m4a"]) ;;;
  setExportNote ("Encoding MP4 (" ++ String_nat (List.length frames)
                 ++ " frames @ 30fps)…") ;;;
  ffmpeg_run w ["-framerate"; "30"; "-i"; "frame_%05d.jpg"; "-i"; "voice.m4a";
                "-c:a"; "aac"; "-pix_fmt"; "yuv420p"; "-vf";
                "scale=1080:1920:flags=lanczos,format=yuv420p"; "-shortest";
                "-movflags"; "+faststart"; "out.mp4"] ;;;
  emit (ReadFile "out.mp4") ;;;
  match ffmpeg_readFile w "out.mp4" with
  | None => throw "readFile failed"
  | Some data =>
      emit (Download "fake-text.mp4" data) ;;;
      emit Unmount ;;;
      emit RemoveOff ;;;
      setExportNote EmptyString ;;;
      setExporting false
  end.

(** The [catch] block of [exportMp4Exact]. *)
Definition export_catch (e : string) : M unit :=
  setExportNote "Export failed. See console." ;;;
  emit (ConsoleError e) ;;;
  setExporting false.

(** [exportMp4Exact]: nothing when an export is running, else the [try]
    block, and the [catch] block when it throws. *)
Definition exportMp4Exact (w : World) (fuel : nat) : M unit :=
  fun s =>
    if exporting s then (Ok tt, s)
    else
      match export_try w fuel s with
      | (Throw e, s') => export_catch e s'
      | r => r
      end.

(** The part of the state that the export only reads. *)
Definition inputs (s : State)
    : string * option string * string * list Message
      * string * string * list string :=
  (contactName s, avatarUrl s, timeLine s, messages s,
   senderVoice s, receiverVoice s, voices s).

(** [s'] is [s] after an export has added [added] to its trace: the
    inputs, the tab and the exporting flag are those of [s]. *)
Definition extends (s s' : State) (added : list Event) : Prop :=
  inputs s' = inputs s /\ tab s' = tab s /\ exporting s' = exporting s
  /\ events s' = (events s ++ added)%list.

Definition is_download (e : Event) : bool :=
  match e with Download _ _ => true | _ => false end.

Definition is_capture (e : Event) : bool :=
  match e with Html2canvas => true | _ => false end.

Definition is_write (e : Event) : bool :=
  match e with WriteFile _ _ => true | _ => false end.

Definition is_console_error (e : Event) : bool :=
  match e with ConsoleError _ => true | _ => false end.

Definition is_fetch (e : Event) : bool :=
  match e with Fetch _ _ _ => true | _ => false end.

(** The requests [(voice, text)] that a trace sends to an endpoint, in
    order. *)
Definition requests_to (ep : Endpoint) (evs : list Event)
    : list (string * string) :=
  flat_map (fun e => match e, ep with
                     | Fetch UserVoiceSpeech v x, UserVoiceSpeech
                     | Fetch AudioSpeech v x, AudioSpeech => [(v, x)]
                     | _, _ => []
                     end) evs.

(** The times that the capture loop has set, in order. *)
Definition export_times (evs : list Event) : list number :=
  flat_map (fun e => match e with SetExportTime ms => [ms] | _ => [] end) evs.

(** The time of the capture step [i] for a whole duration [d]:
    [min(d, 33 * i)]. *)
Definition frame_time (d : Z) (i : nat) : Z := Z.min d (33 * Z.of_nat i).

(** The number of capture steps for a whole duration [d]:
    [ceil(d / 33) + 1]. *)
Definition frame_count (d : Z) : nat := Z.to_nat ((d + 32) / 33 + 1).

(** What one capture step does. *)
Definition capture_step (d : Z) (i : nat) : list Event :=
  [SetExportTime (of_Z (frame_time d i)); AwaitFrame; Html2canvas].


(** The frame count as the specification words it, at 30 frames per
    second: [floor(durationMs / (1000 / 30)) + 1]. *)
Definition spec_frame_count (d : Z) : Z := (d * 30) / 1000 + 1.

(** A world where every collaborator succeeds and every speech lasts
    50 ms, and (below) a builder with three messages that is not
    exporting. *)
Definition world_ok : World :=
  mkWorld (fun _ _ _ _ => Some (mkResponse true 200 []))
    (fun _ => Some (Fin (5 # 100))) true (fun _ _ => Some []) true true
    (fun _ => true) (fun _ => true) (fun _ => Some []).

(** A world where both speech endpoints answer 500 for the second
    message and succeed for the others. *)
Definition world_tts_down : World :=
  mkWorld (fun _ idx _ _ =>
             if Z.eqb idx 1 then Some (mkResponse false 500 [])
             else Some (mkResponse true 200 []))
    (fun _ => Some (Fin (5 # 100))) true (fun _ _ => Some []) true true
    (fun _ => true) (fun _ => true) (fun _ => Some []).

Definition builder0 : State :=
  mkState "Anna" None "Today 7:42 PM"
    [mkMessage "a" SENDER "Hey, you free?" None None None;
     mkMessage "b" RECEIVER "Yep! On my way." None None None;
     mkMessage "c" SENDER "Great" None None None]
    "adam" "alloy" ["adam"; "alloy"] SCRIPT false EmptyString [].

(** A builder with two messages: in [world_ok] their speech lasts 50 ms
    each, 100 ms in all. *)
Definition builder_two : State :=
  mkState "Anna" None "Today 7:42 PM"
    [mkMessage "a" SENDER "Hey, you free?" None None None;
     mkMessage "b" RECEIVER "Yep! On my way." None None None]
    "adam" "alloy" ["adam"; "alloy"] SCRIPT false EmptyString [].


(* ------------------------------------------------------------------ *)
(** *** Arrays with holes, and the editing of the message list *)

(** [c[i]]: [undefined] out of range or at a hole. *)
Definition array_get {A : Type} (c : list (option A)) (i : nat) : option A :=
  match nth_error c i with
  | Some v => v
  | None => None
  end.

Fixpoint replace_at {A : Type} (c : list A) (i : nat) (v : A) : list A :=
  match c, i with
  | [], _ => []
  | _ :: rest, O => v :: rest
  | x :: rest, S i' => x :: replace_at rest i' v
  end.

(** [c[i] = v]: an index past the end grows the array, with holes up to
    the index. *)
Definition array_set {A : Type} (c : list (option A)) (i : nat) (v : option A)
    : list (option A) :=
  if Nat.ltb i (List.length c) then replace_at c i v
  else (c ++ repeat None (i - List.length c) ++ [v])%list.

(** [swap(arr, a, b)]:
    [const c = arr.slice(); const t = c[a]; c[a] = c[b]; c[b] = t; return c] *)
Definition swap {A : Type} (arr : list A) (a b : nat) : list (option A) :=
  let c := map Some arr in
  let t := array_get c a in
  let c := array_set c a (array_get c b) in
  let c := array_set c b t in
  c.

(** The array has no hole: it is a list of values. *)
Fixpoint values {A : Type} (c : list (option A)) : option (list A) :=
  match c with
  | [] => Some []
  | Some v :: rest => option_map (cons v) (values rest)
  | None :: _ => None
  end.

(** [addMsg], with the id that [rid()] has drawn. *)
Definition addMsg (rid : string) (m : list Message) : list Message :=
  (m ++ [mkMessage rid SENDER "New message" None None None])%list.

(** [delMsg(id)] *)
Definition delMsg (i : string) (m : list Message) : list Message :=
  filter (fun x => negb (String.eqb (id x) i)) m.

(** [upMsg(i)]: [i <= 0 ? m.slice() : swap(m, i, i - 1)] *)
Definition upMsg (i : nat) (m : list Message) : list (option Message) :=
  if (Z.of_nat i <=? 0)%Z then map Some m else swap m i (i - 1).

(** [dnMsg(i)]: [i >= m.length - 1 ? m.slice() : swap(m, i, i + 1)] *)
Definition dnMsg (i : nat) (m : list Message) : list (option Message) :=
  if (Z.of_nat (List.length m) - 1 <=? Z.of_nat i)%Z
  then map Some m else swap m i (i + 1).

(** The patches that the editor applies with [setField]. *)
Inductive Patch : Type :=
| PatchSpeaker (v : Speaker)
| PatchDelay (v : option number)
| PatchText (v : string)
| PatchReadReceipt (v : option string)
| PatchTapback (v : option string).

(** [{ ...x, ...patch }] *)
Definition apply_patch (x : Message) (p : Patch) : Message :=
  match p with
  | PatchSpeaker v =>
      mkMessage (id x) v (text x) (delay_s x) (read_receipt x) (tapback x)
  | PatchDelay v =>
      mkMessage (id x) (speaker x) (text x) v (read_receipt x) (tapback x)
  | PatchText v =>
      mkMessage (id x) (speaker x) v (delay_s x) (read_receipt x) (tapback x)
  | PatchReadReceipt v =>
      mkMessage (id x) (speaker x) (text x) (delay_s x) v (tapback x)
  | PatchTapback v =>
      mkMessage (id x) (speaker x) (text x) (delay_s x) (read_receipt x) v
  end.

(** [setField(id, patch)] *)
Definition setField (i : string) (p : Patch) (m : list Message) : list Message :=
  map (fun x => if String.eqb (id x) i then apply_patch x p else x) m.

(** [swapAll] *)
Definition swapAll (m : list Message) : list Message :=
  map (fun x => apply_patch x
                  (PatchSpeaker (match speaker x with
                                 | SENDER => RECEIVER
                                 | RECEIVER => SENDER
                                 end))) m.

(** [resetDelays] *)
Definition resetDelays (m : list Message) : list Message :=
  map (fun x => apply_patch x (PatchDelay None)) m.

(** [clearTapbacks] *)
Definition clearTapbacks (m : list Message) : list Message :=
  map (fun x => apply_patch x (PatchTapback None)) m.

(** The updater of [handleDrop]:
    [const c = m.slice(); const [itm] = c.splice(dragIndex, 1);
     c.splice(target, 0, itm); return c] *)
Definition drop_at {A : Type} (dragIndex target : nat) (m : list A)
    : list (option A) :=
  let c := map Some m in
  let itm := array_get c dragIndex in
  let c := (firstn dragIndex c ++ skipn (S dragIndex) c)%list in
  (firstn target c ++ itm :: skipn target c)%list.

(** [handleDrop(target)]: nothing when no row is dragged or when it is
    dropped on itself; else the new array (and both drag indices are
    reset). *)
Definition handleDrop (dragIndex : option nat) (target : nat)
    (m : list Message) : option (list (option Message)) :=
  match dragIndex with
  | None => None
  | Some d => if Nat.eqb d target then None else Some (drop_at d target m)
  end.

(** *** The wizard tabs *)

(** [{ SCRIPT: 1, VOICES: 2, ADVANCED: 3, BACKGROUND: 4, EXPORT: 5 }[tab]] *)
Definition stepIndex (x : Tab) : nat :=
  match x with
  | SCRIPT => 1
  | VOICES => 2
  | ADVANCED => 3
  | BACKGROUND => 4
  | EXPORT => 5
  end.

Definition goNext (x : Tab) : Tab :=
  match x with
  | SCRIPT => VOICES
  | VOICES => ADVANCED
  | ADVANCED => BACKGROUND
  | BACKGROUND => EXPORT
  | EXPORT => EXPORT
  end.

Definition goPrev (x : Tab) : Tab :=
  match x with
  | EXPORT => BACKGROUND
  | BACKGROUND => ADVANCED
  | ADVANCED => VOICES
  | _ => SCRIPT
  end.

(** *** The voice list *)

(** The fallback of the [try] block of [fetchVoices]. *)
Definition fallback_voices : list string :=
  ["adam"; "alloy"; "verse"; "aria"; "coral"; "sage"; "amber"; "onxy";
   "rose"; "pearl"; "opal"].

(** The fallback of its [catch] block. *)
Definition fallback_voices_catch : list string :=
  ["adam"; "alloy"; "verse"; "aria"; "coral"; "sage"; "amber"; "onyx";
   "rose"; "pearl"; "opal"].

Definition nonempty (x : string) : bool :=
  match x with
  | EmptyString => false
  | _ => true
  end.

(** [next.includes(x)] *)
Definition includes (x : string) (l : list string) : bool :=
  existsb (String.eqb x) l.

(** From the names that the library answered (before [filter(Boolean)]):
    [let next = (list.length ? list : fallback).slice(0, 64);
     if (!next.includes('adam')) next = ['adam', ...next]] *)
Definition next_voices (names : list string) : list string :=
  let list := filter nonempty names in
  let next := firstn 64 (match list with
                         | [] => fallback_voices
                         | _ => list
                         end) in
  if includes "adam" next then next else "adam" :: next.

Definition set_voices (s : State) (vs : list string) (sv rv : string) : State :=
  mkState (contactName s) (avatarUrl s) (timeLine s) (messages s)
    sv rv vs (tab s) (exporting s) (exportNote s) (events s).

(** What [fetchVoices] does to the builder.  [answer] is the list of
    names of a library response, [Some []] for a response that is not ok
    or has no list, and [None] when the request or its parsing throws. *)
Definition fetchVoices (answer : option (list string)) (s : State) : State :=
  match answer with
  | Some names =>
      let next := next_voices names in
      set_voices s next
        (match senderVoice s, nth_error next 0 with
         | EmptyString, Some v => if nonempty v then v else senderVoice s
         | _, _ => senderVoice s
         end)
        (match receiverVoice s, nth_error next 1 with
         | EmptyString, Some v => if nonempty v then v else receiverVoice s
         | _, _ => receiverVoice s
         end)
  | None =>
      set_voices s fallback_voices_catch
        (match senderVoice s with
         | EmptyString => "adam"
         | v => v
         end)
        (match receiverVoice s with
         | EmptyString => "alloy"
         | v => v
         end)
  end.

(** *** The export schedule in whole milliseconds *)


End FakeTextBuilder.

(* ------------------------------------------------------------------ *)
(** ** Helpers, layout metrics and preview geometry *)

(** The rational that a finite number is (0 for the others). *)
Definition value (a : number) : Q :=
  match a with
  | Fin q => q
  | _ => 0
  end.

(** The two numbers are the same value (two fractions of a rational are
    one number). *)
Definition same (a b : number) : Prop :=
  match a, b with
  | NaN, NaN | PosInf, PosInf | NegInf, NegInf => True
  | Fin x, Fin y => (x == y)%Q
  | _, _ => False
  end.

(** [Math.floor] *)
Definition Math_floor (a : number) : number :=
  match a with
  | Fin x => of_Z (Qfloor x)
  | _ => a
  end.

(** The integer part of a rational, towards zero. *)
Definition Qtrunc (q : Q) : Z :=
  if Qle_bool 0 q then Qfloor q else Qceiling q.

(** [a % b] *)
Definition rem (a b : number) : number :=
  match a, b with
  | Fin x, Fin y =>
      if is_zero y then NaN
      else Fin (Qred (x - y * inject_Z (Qtrunc (x / y))))
  | Fin _, (PosInf | NegInf) => a
  | _, _ => NaN
  end.

(** [n.toString()] of a whole number below 1e21 in magnitude, of [NaN]
    and of the infinities. *)
Definition toString (a : number) : string :=
  match a with
  | NaN => "NaN"
  | PosInf => "Infinity"
  | NegInf => "-Infinity"
  | Fin q => FakeTextBuilder.String_Z (Qfloor q)
  end.

(** [fmt(ms)]: minutes and seconds, [m:ss]. *)
Definition fmt (ms : number) : string :=
  let s := Math_max (of_Z 0) (Math_floor (div64 ms (of_Z 1000))) in
  let m := toString (Math_floor (div64 s (of_Z 60))) in
  let ss := FakeTextBuilder.padStart 2 (toString (rem s (of_Z 60))) in
  (m ++ ":" ++ ss)%string.

(** The number that [pct(ratio)] prints before the percent sign:
    [Math.round(clamp01(ratio) * 10000) / 100]. *)
Definition pct_number (ratio : number) : number :=
  div (Math_round (mul (clamp01 ratio) (of_Z 10000))) (of_Z 100).

(** The decimal digit of a number below 10. *)
Definition digit (n : Z) : ascii := ascii_of_nat (48 + Z.to_nat n).

Record UISettings : Type := mkUISettings {
  hudWidthPct : number;
  hudY : number;
  hudRadius : number;
  headerH : number;
  avatarPx : number;
  iconPx : number;
  chatMaxH : number;
  bubbleMaxWidthPct : number;
  bubbleRadius : number;
  bubblePadH : number;
  bubblePadV : number;
  bubbleFontPx : number;
  tsFontPx : number;
  hudScalePct : number
}.

Definition DEFAULT_SETTINGS : UISettings :=
  mkUISettings (Fin (60 # 100)) (of_Z 110) (of_Z 25) (of_Z 92) (of_Z 52)
    (of_Z 36) (of_Z 320) (Fin (90 # 100)) (of_Z 18) (of_Z 18) (of_Z 12)
    (of_Z 22) (of_Z 13) (of_Z 100).

(** [CANVAS = { w: 1080, h: 1920 }] *)
Definition CANVAS_w : number := of_Z 1080.
Definition CANVAS_h : number := of_Z 1920.

(** The width and the place of the HUD that [FakeTextPreview] derives
    from its settings. *)
Section HudMetrics.

Variable settings : UISettings.

(** [S = settings.hudScalePct / 100] *)
Definition scaleS : number := div (hudScalePct settings) (of_Z 100).

Definition baseHUDW : number :=
  Math_round (mul CANVAS_w (clamp01 (hudWidthPct settings))).

Definition HUD_W : number :=
  Math_min (sub CANVAS_w (of_Z 24))
    (Math_max (of_Z 300) (Math_round (mul baseHUDW scaleS))).

Definition HUD_X : number :=
  Math_round (div (sub CANVAS_w HUD_W) (of_Z 2)).

End HudMetrics.

(** The geometry of the preview box of the builder, from the width of
    the viewport. *)
Section PreviewGeometry.

Variable viewportW : number.

(** [Math.min(Math.max(viewportW * 0.33, 380), 580)] *)
Definition baseThirdW : number :=
  Math_min (Math_max (mul viewportW (Fin (33 # 100))) (of_Z 380)) (of_Z 580).

Definition PRE_W : number := Math_round (mul baseThirdW (Fin (70 # 100))).

Definition PRE_H : number :=
  Math_round (mul PRE_W (div (of_Z 840) (of_Z 470))).

Definition scale : number :=
  Math_min (div PRE_W CANVAS_w) (div PRE_H CANVAS_h).

Definition scaledW : number := Math_round (mul CANVAS_w scale).

Definition scaledH : number := Math_round (mul CANVAS_h scale).

Definition offsetX : number :=
  Math_max (of_Z 0) (Math_round (div (sub PRE_W scaledW) (of_Z 2))).

Definition offsetY : number :=
  Math_max (of_Z 0) (Math_round (div (sub PRE_H scaledH) (of_Z 2))).

End PreviewGeometry.

(** [progress = clamp01(timeMs / durationMs)] of a preview. *)
Definition progress (p : Props) (st : Preview) : number :=
  clamp01 (div64 (timeMs p st) (durationMs p)).

(* ------------------------------------------------------------------ *)
(** ** Runs of the interactive preview *)

(** React runs the timeline effect again: first the cleanup of the
    previous run, then the body. *)
Definition rerun (p : Props) (st : Preview) : Preview :=
  timeline_effect p (cancel_current st).

(** The states that a mounted preview reaches: the effect runs after the
    mount and whenever React schedules it again, the browser calls back a
    frame request that it holds, the user plays, pauses or seeks, the
    timer of the height animation resets the loop. *)
Inductive reachable (p : Props) : Preview -> Prop :=
| reach_mount : reachable p (rerun p (mount p))
| reach_rerun : forall st,
    reachable p st -> reachable p (rerun p st)
| reach_frame : forall st h captured now,
    reachable p st -> In (h, captured) (pending st) ->
    reachable p (on_frame h captured now st)
| reach_toggle : forall st,
    reachable p st -> reachable p (onTogglePlay st)
| reach_seek : forall st r now,
    reachable p st -> reachable p (onSeekRatio p r now st)
| reach_reset : forall st now,
    reachable p st -> reachable p (loop_reset now st).

(** What may happen between two frames without touching the start of the
    clock: play or pause, and runs of the effect. *)
Inductive between_frames (p : Props) : Preview -> Preview -> Prop :=
| between_refl : forall st, between_frames p st st
| between_toggle : forall st st',
    between_frames p st st' -> between_frames p st (onTogglePlay st')
| between_rerun : forall st st',
    between_frames p st st' -> between_frames p st (rerun p st').

(* ------------------------------------------------------------------ *)
(** ** Facts about numbers *)

#[local] Arguments Qred _ : simpl never.
#[local] Arguments inject_Z _ : simpl never.
#[local] Arguments Qplus _ _ : simpl never.
#[local] Arguments Qminus _ _ : simpl never.
#[local] Arguments Qmult _ _ : simpl never.
#[local] Arguments Qdiv _ _ : simpl never.
#[local] Arguments Qle_bool _ _ : simpl never.

Section NumberFacts.

Local Open Scope Q_scope.

Lemma Qred_inject_Z (z : Z) : Qred (inject_Z z) = inject_Z z.
Proof.
  apply Qred_identity. simpl. apply Z.gcd_1_r.
Qed.

Lemma Qred_eq_inject_Z (q : Q) (z : Z) : q == inject_Z z -> Qred q = inject_Z z.
Proof.
  intros H. rewrite (Qred_complete _ _ H). apply Qred_inject_Z.
Qed.

Lemma add_of_Z (a b : Z) : add (of_Z a) (of_Z b) = of_Z (a + b).
Proof.
  unfold add, of_Z. f_equal. apply Qred_eq_inject_Z.
  rewrite inject_Z_plus. reflexivity.
Qed.

Lemma sub_of_Z (a b : Z) : sub (of_Z a) (of_Z b) = of_Z (a - b).
Proof.
  unfold sub, of_Z. f_equal. apply Qred_eq_inject_Z.
  unfold Z.sub. rewrite inject_Z_plus, inject_Z_opp. reflexivity.
Qed.

Lemma mul_of_Z (a b : Z) : mul (of_Z a) (of_Z b) = of_Z (a * b).
Proof.
  unfold mul, of_Z. f_equal. apply Qred_eq_inject_Z.
  rewrite inject_Z_mult. reflexivity.
Qed.

Lemma le_of_Z (a b : Z) : le (of_Z a) (of_Z b) = (a <=? b)%Z.
Proof.
  unfold le, of_Z. apply eq_true_iff_eq.
  rewrite Qle_bool_iff, Z.leb_le, <- Zle_Qle. reflexivity.
Qed.

Lemma Qfloor_half (z : Z) : Qfloor (inject_Z z + (1 # 2)) = z.
Proof.
  unfold Qfloor, Qplus, inject_Z. cbn [Qnum Qden].
  change (Z.pos (1 * 2)) with 2%Z.
  replace (z * 2 + 1 * 1)%Z with (1 + z * 2)%Z by lia.
  rewrite Z.div_add by lia. reflexivity.
Qed.

Lemma Math_round_of_Z (z : Z) : Math_round (of_Z z) = of_Z z.
Proof.
  unfold Math_round, of_Z. rewrite Qfloor_half. reflexivity.
Qed.

Lemma Math_min_of_Z (a b : Z) : Math_min (of_Z a) (of_Z b) = of_Z (Z.min a b).
Proof.
  change (Math_min (of_Z a) (of_Z b))
    with (if le (of_Z a) (of_Z b) then of_Z a else of_Z b).
  rewrite le_of_Z. destruct (Z.leb_spec a b).
  - rewrite Z.min_l by lia. reflexivity.
  - rewrite Z.min_r by lia. reflexivity.
Qed.

Lemma le_refl_Fin (q : Q) : le (Fin q) (Fin q) = true.
Proof. simpl. apply Qle_bool_iff. apply Qle_refl. Qed.

Lemma number_le_trans (a b c : number) :
  le a b = true -> le b c = true -> le a c = true.
Proof.
  destruct a, b, c; simpl; try congruence.
  rewrite !Qle_bool_iff. apply Qle_trans.
Qed.


Lemma sub_tolerance_le (a : number) :
  le a a = true -> le (sub a (of_Z 5)) a = true.
Proof.
  destruct a; cbn [le sub of_Z]; try congruence. intros _.
  rewrite Qle_bool_iff; setoid_rewrite Qred_correct.
  assert (0 <= inject_Z 5) by discriminate. lra.
Qed.


Lemma le_refl_of_le (a b : number) : le a b = true -> le b b = true.
Proof.
  destruct a, b; cbn [le]; try congruence; intros _; try reflexivity;
    apply Qle_bool_iff; apply Qle_refl.
Qed.

(** Adding a number that is at least 0 to a number that is at least 0
    does not go down. *)
Lemma add_nonneg (acc x : number) :
  le (of_Z 0) acc = true -> le (of_Z 0) x = true ->
  le acc (add acc x) = true /\ le (of_Z 0) (add acc x) = true.
Proof.
  destruct acc as [| | |a], x as [| | |b]; cbn [le add of_Z];
    try congruence; try (split; reflexivity).
  rewrite !Qle_bool_iff. repeat setoid_rewrite Qred_correct.
  change (inject_Z 0) with 0%Q. intros Ha Hb. split; lra.
Qed.

End NumberFacts.

(* ------------------------------------------------------------------ *)
(** ** Rounding to binary64 *)

Section Rounding.

Local Open Scope Q_scope.

Lemma pow2_pos (k : Z) : 0 < pow2 k.
Proof. apply Qpower_0_lt. reflexivity. Qed.

Lemma pow2_add (a b : Z) : pow2 (a + b) == pow2 a * pow2 b.
Proof. apply Qpower_plus. discriminate. Qed.

Lemma pow2_le (a b : Z) : (a <= b)%Z -> pow2 a <= pow2 b.
Proof. intros H. apply Qpower_le_compat_l; [exact H|discriminate]. Qed.

Lemma pow2_lt (a b : Z) : (a < b)%Z -> pow2 a < pow2 b.
Proof. intros H. apply Qpower_lt_compat_l; [exact H|reflexivity]. Qed.

Lemma pow2_lt_inv (a b : Z) : pow2 a < pow2 b -> (a < b)%Z.
Proof. intros H. apply (Qpower_lt_compat_l_inv 2); [exact H|reflexivity]. Qed.

Lemma pow2_inject (n : Z) : (0 <= n)%Z -> pow2 n == inject_Z (2 ^ n).
Proof. intros H. symmetry. apply (Zpower_Qpower 2 n H). Qed.

Lemma pow2_sub (a b : Z) : pow2 (a - b) == pow2 a / pow2 b.
Proof.
  unfold Z.sub. rewrite pow2_add. unfold pow2. rewrite Qpower_opp.
  reflexivity.
Qed.

(** *** The nearest integer *)

Lemma round_half_even_bounds (q : Q) :
  q - (1 # 2) <= inject_Z (round_half_even q)
  /\ inject_Z (round_half_even q) <= q + (1 # 2).
Proof.
  unfold round_half_even.
  pose proof (Qfloor_le q) as Hlo. pose proof (Qlt_floor q) as Hhi.
  rewrite inject_Z_plus in Hhi. change (inject_Z 1) with 1 in Hhi.
  destruct (Qcompare_spec (q - inject_Z (Qfloor q)) (1 # 2)) as [E|E|E].
  - destruct (Z.even (Qfloor q)); [|rewrite inject_Z_plus;
      change (inject_Z 1) with 1]; split; lra.
  - split; lra.
  - rewrite inject_Z_plus. change (inject_Z 1) with 1. split; lra.
Qed.

Lemma round_half_even_Z (q : Q) (z : Z) :
  q == inject_Z z -> round_half_even q = z.
Proof.
  intros H. unfold round_half_even.
  assert (Hf : Qfloor q = z) by (rewrite (Qfloor_comp _ _ H); apply Qfloor_Z).
  rewrite Hf.
  destruct (Qcompare_spec (q - inject_Z z) (1 # 2)) as [E|E|E];
    try reflexivity; lra.
Qed.

Lemma round_half_even_mono (x y : Q) :
  x <= y -> (round_half_even x <= round_half_even y)%Z.
Proof.
  intros H. pose proof (Qfloor_resp_le _ _ H) as Hf.
  unfold round_half_even.
  pose proof (Qfloor_le x) as Hx. pose proof (Qlt_floor x) as Hx'.
  pose proof (Qfloor_le y) as Hy. pose proof (Qlt_floor y) as Hy'.
  destruct (Z.eq_dec (Qfloor x) (Qfloor y)) as [E|E].
  - rewrite E in *.
    destruct (Qcompare_spec (x - inject_Z (Qfloor y)) (1 # 2)),
             (Qcompare_spec (y - inject_Z (Qfloor y)) (1 # 2));
      try destruct (Z.even (Qfloor y)); try lia; lra.
  - assert (Qfloor x + 1 <= Qfloor y)%Z by lia.
    destruct (Qcompare_spec (x - inject_Z (Qfloor x)) (1 # 2)),
             (Qcompare_spec (y - inject_Z (Qfloor y)) (1 # 2));
      try destruct (Z.even (Qfloor x)); try destruct (Z.even (Qfloor y));
      lia.
Qed.

Lemma round_half_even_comp (x y : Q) :
  x == y -> round_half_even x = round_half_even y.
Proof.
  intros H. apply Z.le_antisymm; apply round_half_even_mono; lra.
Qed.


(** *** The binary logarithm *)

Lemma Qlog2_spec (q : Q) :
  0 < q -> pow2 (Qlog2 q) <= q /\ q < pow2 (Qlog2 q + 1).
Proof.
  intros Hq. destruct q as [a d]. unfold Qlog2. cbn [Qnum Qden].
  assert (Ha : (0 < a)%Z).
  { unfold Qlt in Hq. cbn in Hq. lia. }
  pose proof (Z.log2_spec a Ha) as [Ha1 Ha2].
  pose proof (Z.log2_spec (Zpos d) (Pos2Z.is_pos d)) as [Hd1 Hd2].
  pose proof (Z.log2_nonneg a) as La. pose proof (Z.log2_nonneg (Zpos d)) as Ld.
  set (la := Z.log2 a) in *. set (ld := Z.log2 (Zpos d)) in *.
  assert (Eq : a # d == inject_Z a / inject_Z (Zpos d)) by apply Qmake_Qdiv.
  assert (Dpos : 0 < inject_Z (Zpos d)).
  { change 0 with (inject_Z 0). rewrite <- Zlt_Qlt. lia. }
  assert (Eq' : (a # d) * inject_Z (Zpos d) == inject_Z a).
  { rewrite Eq. field. lra. }
  assert (A1 : pow2 la <= inject_Z a).
  { rewrite (pow2_inject la La). rewrite <- Zle_Qle. exact Ha1. }
  assert (A2 : inject_Z a < pow2 (la + 1)).
  { rewrite (pow2_inject (la + 1)) by lia. rewrite <- Zlt_Qlt.
    replace (la + 1)%Z with (Z.succ la) by lia. exact Ha2. }
  assert (D1 : pow2 ld <= inject_Z (Zpos d)).
  { rewrite (pow2_inject ld Ld). rewrite <- Zle_Qle. exact Hd1. }
  assert (D2 : inject_Z (Zpos d) < pow2 (ld + 1)).
  { rewrite (pow2_inject (ld + 1)) by lia. rewrite <- Zlt_Qlt.
    replace (ld + 1)%Z with (Z.succ ld) by lia. exact Hd2. }
  pose proof (pow2_pos ld) as Pld. pose proof (pow2_pos (ld + 1)) as Pld1.
  assert (Up : a # d < pow2 (la - ld + 1)).
  { assert (E : pow2 (la + 1) == pow2 (la - ld + 1) * pow2 ld).
    { rewrite <- pow2_add. replace (la - ld + 1 + ld)%Z with (la + 1)%Z by lia.
      reflexivity. }
    pose proof (pow2_pos (la - ld + 1)). nra. }
  assert (Lo : pow2 (la - ld - 1) < a # d).
  { assert (E : pow2 la == pow2 (la - ld - 1) * pow2 (ld + 1)).
    { rewrite <- pow2_add. replace (la - ld - 1 + (ld + 1))%Z with la by lia.
      reflexivity. }
    pose proof (pow2_pos (la - ld - 1)). nra. }
  destruct (Qle_bool (pow2 (la - ld)) (a # d)) eqn:E.
  - apply Qle_bool_iff in E. split; assumption.
  - assert (E' : a # d < pow2 (la - ld)).
    { apply Qnot_le_lt. intros H. apply Qle_bool_iff in H. congruence. }
    replace (la - ld - 1 + 1)%Z with (la - ld)%Z by lia.
    split; [apply Qlt_le_weak; exact Lo|exact E'].
Qed.

Lemma Qlog2_unique (q : Q) (k : Z) :
  pow2 k <= q -> q < pow2 (k + 1) -> Qlog2 q = k.
Proof.
  intros H1 H2.
  assert (Hq : 0 < q) by (pose proof (pow2_pos k); lra).
  destruct (Qlog2_spec q Hq) as [L1 L2].
  assert (k < Qlog2 q + 1)%Z by (apply pow2_lt_inv; lra).
  assert (Qlog2 q < k + 1)%Z by (apply pow2_lt_inv; lra).
  lia.
Qed.

Lemma Qlog2_comp (x y : Q) : 0 < x -> x == y -> Qlog2 x = Qlog2 y.
Proof.
  intros Hx E. destruct (Qlog2_spec x Hx) as [L1 L2].
  symmetry. apply Qlog2_unique; lra.
Qed.

Lemma Qlog2_mono (x y : Q) : 0 < x -> x <= y -> (Qlog2 x <= Qlog2 y)%Z.
Proof.
  intros Hx H. destruct (Qlog2_spec x Hx) as [L1 _].
  destruct (Qlog2_spec y) as [_ L2]; [lra|].
  assert (Qlog2 x < Qlog2 y + 1)%Z by (apply pow2_lt_inv; lra).
  lia.
Qed.


(** *** The nearest binary64 number *)

Lemma exponent64_comp (x y : Q) :
  0 < x -> x == y -> exponent64 x = exponent64 y.
Proof.
  intros Hx E. unfold exponent64. rewrite (Qlog2_comp x y Hx E). reflexivity.
Qed.

Lemma exponent64_mono (x y : Q) :
  0 < x -> x <= y -> (exponent64 x <= exponent64 y)%Z.
Proof.
  intros Hx H. unfold exponent64. pose proof (Qlog2_mono x y Hx H). lia.
Qed.

(** The scaled number is below [2^53], and from [2^52] on when the
    exponent is above the least one. *)
Lemma scaled_bounds (q : Q) :
  0 < q ->
  0 < q / pow2 (exponent64 q)
  /\ q / pow2 (exponent64 q) < pow2 53
  /\ ((-1074 < exponent64 q)%Z -> pow2 52 <= q / pow2 (exponent64 q)).
Proof.
  intros Hq. destruct (Qlog2_spec q Hq) as [L1 L2].
  pose proof (pow2_pos (exponent64 q)) as Pe.
  assert (D : q / pow2 (exponent64 q) * pow2 (exponent64 q) == q)
    by (field; lra).
  split; [|split].
  - apply Qlt_shift_div_l; lra.
  - apply Qlt_shift_div_r; [exact Pe|].
    rewrite <- pow2_add.
    apply Qlt_le_trans with (1 := L2). apply pow2_le.
    unfold exponent64. lia.
  - intros He. apply Qle_shift_div_l; [exact Pe|].
    rewrite <- pow2_add.
    apply Qle_trans with (2 := L1). apply pow2_le.
    unfold exponent64 in *. lia.
Qed.

Lemma significand_bounds (q : Q) :
  0 < q ->
  (0 <= round_half_even (q / pow2 (exponent64 q)) <= 2 ^ 53)%Z
  /\ ((-1074 < exponent64 q)%Z ->
      (2 ^ 52 <= round_half_even (q / pow2 (exponent64 q)))%Z).
Proof.
  intros Hq. destruct (scaled_bounds q Hq) as [S0 [S1 S2]].
  split; [split|].
  - rewrite <- (round_half_even_Z 0 0) by reflexivity.
    apply round_half_even_mono. lra.
  - rewrite <- (round_half_even_Z (pow2 53) (2 ^ 53))
      by (apply pow2_inject; lia).
    apply round_half_even_mono. lra.
  - intros He.
    rewrite <- (round_half_even_Z (pow2 52) (2 ^ 52))
      by (apply pow2_inject; lia).
    apply round_half_even_mono. exact (S2 He).
Qed.

Lemma nearest64_nonneg (q : Q) : 0 < q -> 0 <= nearest64 q.
Proof.
  intros Hq. unfold nearest64.
  destruct (significand_bounds q Hq) as [[H0 _] _].
  apply Qmult_le_0_compat.
  - change 0 with (inject_Z 0). rewrite <- Zle_Qle. exact H0.
  - apply Qlt_le_weak, pow2_pos.
Qed.

Lemma nearest64_comp (x y : Q) :
  0 < x -> x == y -> nearest64 x == nearest64 y.
Proof.
  intros Hx E. unfold nearest64.
  rewrite (exponent64_comp x y Hx E).
  rewrite (round_half_even_comp (x / pow2 (exponent64 y))
             (y / pow2 (exponent64 y))) by (rewrite E; reflexivity).
  reflexivity.
Qed.

Lemma nearest64_mono (x y : Q) :
  0 < x -> x <= y -> nearest64 x <= nearest64 y.
Proof.
  intros Hx H. assert (Hy : 0 < y) by lra.
  pose proof (exponent64_mono x y Hx H) as He.
  pose proof (pow2_pos (exponent64 x)) as Px.
  pose proof (pow2_pos (exponent64 y)) as Py.
  unfold nearest64.
  destruct (Z.eq_dec (exponent64 x) (exponent64 y)) as [E|E].
  - rewrite E in *. apply Qmult_le_compat_r; [|lra].
    rewrite <- Zle_Qle. apply round_half_even_mono.
    apply Qmult_le_compat_r; [exact H|].
    apply Qlt_le_weak, Qinv_lt_0_compat. exact Py.
  - destruct (significand_bounds x Hx) as [[_ Hx53] _].
    destruct (significand_bounds y Hy) as [_ Hy52].
    assert (Hn : (-1074 < exponent64 y)%Z) by (unfold exponent64 in *; lia).
    specialize (Hy52 Hn).
    apply Qle_trans with (pow2 53 * pow2 (exponent64 x)).
    + apply Qmult_le_compat_r; [|lra].
      rewrite (pow2_inject 53) by lia. rewrite <- Zle_Qle. exact Hx53.
    + apply Qle_trans with (pow2 52 * pow2 (exponent64 y)).
      * rewrite <- !pow2_add. apply pow2_le. lia.
      * apply Qmult_le_compat_r; [|lra].
        rewrite (pow2_inject 52) by lia. rewrite <- Zle_Qle. exact Hy52.
Qed.

(** A number of at most 53 bits above the least exponent is its own
    nearest number. *)
Lemma nearest64_exact (q : Q) (m e : Z) :
  (0 < m < 2 ^ 53)%Z -> (-1074 <= e)%Z ->
  q == inject_Z m * pow2 e -> nearest64 q == q.
Proof.
  intros Hm He E.
  pose proof (pow2_pos e) as Pe.
  assert (M0 : 0 < inject_Z m)
    by (change 0 with (inject_Z 0); rewrite <- Zlt_Qlt; lia).
  assert (Hq : 0 < q).
  { rewrite E. apply Qmult_lt_0_compat; assumption. }
  destruct (Qlog2_spec q Hq) as [L1 L2].
  assert (Hle : (exponent64 q <= e)%Z).
  { unfold exponent64.
    assert (Qlog2 q < 53 + e)%Z; [|lia].
    apply pow2_lt_inv. apply Qle_lt_trans with (1 := L1).
    rewrite E, pow2_add.
    apply Qmult_lt_compat_r; [exact Pe|].
    rewrite (pow2_inject 53) by lia. rewrite <- Zlt_Qlt. lia. }
  set (f := exponent64 q) in *.
  pose proof (pow2_pos f) as Pf.
  assert (Ez : q / pow2 f == inject_Z (m * 2 ^ (e - f))).
  { rewrite inject_Z_mult. rewrite <- (pow2_inject (e - f)) by lia.
    rewrite pow2_sub, E. field. lra. }
  unfold nearest64. fold f.
  rewrite (round_half_even_Z _ _ Ez). rewrite <- Ez. field. lra.
Qed.

(** The nearest number is at most half a unit in the last place away. *)
Lemma nearest64_error (q : Q) :
  0 < q ->
  q - pow2 (exponent64 q - 1) <= nearest64 q
  /\ nearest64 q <= q + pow2 (exponent64 q - 1).
Proof.
  intros Hq. unfold nearest64. set (f := exponent64 q).
  pose proof (pow2_pos f) as Pf.
  destruct (round_half_even_bounds (q / pow2 f)) as [B1 B2].
  assert (Eh : pow2 (f - 1) == (1 # 2) * pow2 f).
  { rewrite pow2_sub. change (pow2 1) with 2. field. }
  assert (Eq : q / pow2 f * pow2 f == q) by (field; lra).
  rewrite Eh. split; nra.
Qed.


(** *** The rounding *)

Lemma Qle_bool_eq (a b c d : Q) :
  a == c -> b == d -> Qle_bool a b = Qle_bool c d.
Proof.
  intros E1 E2. apply eq_true_iff_eq. rewrite !Qle_bool_iff, E1, E2.
  reflexivity.
Qed.

Lemma round64_pos_comp (x y : Q) :
  0 < x -> x == y -> round64_pos x = round64_pos y.
Proof.
  intros Hx E. unfold round64_pos.
  pose proof (nearest64_comp x y Hx E) as En.
  rewrite (Qle_bool_eq _ (nearest64 x) _ (nearest64 y) (Qeq_refl _) En).
  rewrite (Qred_complete _ _ En). reflexivity.
Qed.

Lemma round64_comp (x y : Q) : x == y -> round64 x = round64 y.
Proof.
  intros E. unfold round64. rewrite <- (Qcompare_comp x y E 0 0 (Qeq_refl 0)).
  destruct (Qcompare_spec x 0) as [H|H|H]; [reflexivity| |].
  - rewrite (round64_pos_comp (- x) (- y)); [reflexivity|lra|lra].
  - rewrite (round64_pos_comp x y H E). reflexivity.
Qed.

Lemma round64_pos_nonneg (q : Q) :
  0 < q -> le (of_Z 0) (round64_pos q) = true.
Proof.
  intros Hq. unfold round64_pos.
  destruct (Qle_bool (pow2 1024) (nearest64 q)); [reflexivity|].
  cbn [le of_Z]. apply Qle_bool_iff. rewrite Qred_correct.
  exact (nearest64_nonneg q Hq).
Qed.

Lemma round64_nonneg (q : Q) : 0 <= q -> le (of_Z 0) (round64 q) = true.
Proof.
  intros Hq. unfold round64.
  destruct (Qcompare_spec q 0) as [H|H|H]; [reflexivity|lra|].
  exact (round64_pos_nonneg q H).
Qed.

Lemma round64_nonpos (q : Q) : q <= 0 -> le (round64 q) (of_Z 0) = true.
Proof.
  intros Hq. unfold round64.
  destruct (Qcompare_spec q 0) as [H|H|H]; [reflexivity| |lra].
  assert (Hn : 0 < - q) by lra.
  pose proof (round64_pos_nonneg (- q) Hn) as P.
  destruct (round64_pos (- q)) as [| | |v]; try reflexivity.
  cbn [le of_Z] in *. apply Qle_bool_iff in P. apply Qle_bool_iff.
  change (inject_Z 0) with 0 in *. lra.
Qed.

Lemma round64_not_NaN (q : Q) : round64 q <> NaN.
Proof.
  unfold round64, round64_pos.
  destruct (Qcompare q 0); [discriminate| |].
  - destruct (Qle_bool _ _); discriminate.
  - destruct (Qle_bool _ _); discriminate.
Qed.

Lemma round64_pos_mono (x y : Q) :
  0 < x -> x <= y -> le (round64_pos x) (round64_pos y) = true.
Proof.
  intros Hx H. pose proof (nearest64_mono x y Hx H) as Hn.
  unfold round64_pos.
  destruct (Qle_bool (pow2 1024) (nearest64 y)) eqn:Ey.
  - destruct (Qle_bool (pow2 1024) (nearest64 x)); reflexivity.
  - destruct (Qle_bool (pow2 1024) (nearest64 x)) eqn:Ex.
    + apply Qle_bool_iff in Ex.
      assert (Qle_bool (pow2 1024) (nearest64 y) = true)
        by (apply Qle_bool_iff; lra).
      congruence.
    + cbn [le]. apply Qle_bool_iff. rewrite !Qred_correct. exact Hn.
Qed.

(** Rounding keeps the order. *)
Lemma round64_mono (x y : Q) :
  x <= y -> le (round64 x) (round64 y) = true.
Proof.
  intros H.
  destruct (Qlt_le_dec 0 x) as [Hx|Hx].
  - unfold round64.
    destruct (Qcompare_spec x 0) as [E|E|E]; try lra.
    destruct (Qcompare_spec y 0) as [F|F|F]; try lra.
    exact (round64_pos_mono x y Hx H).
  - destruct (Qlt_le_dec y 0) as [Hy|Hy].
    + unfold round64.
      destruct (Qcompare_spec x 0) as [E|E|E]; try lra.
      destruct (Qcompare_spec y 0) as [F|F|F]; try lra.
      assert (P : le (round64_pos (- y)) (round64_pos (- x)) = true)
        by (apply round64_pos_mono; lra).
      pose proof (round64_pos_nonneg (- y) ltac:(lra)) as Py.
      pose proof (round64_pos_nonneg (- x) ltac:(lra)) as Px.
      destruct (round64_pos (- y)) as [| | |b], (round64_pos (- x)) as [| | |a];
        cbn [le of_Z] in *; try congruence; try reflexivity.
      apply Qle_bool_iff in P. apply Qle_bool_iff. lra.
    + pose proof (round64_nonpos x Hx) as Px.
      pose proof (round64_nonneg y Hy) as Py.
      destruct (round64 x) as [| | |a], (round64 y) as [| | |b];
        cbn [le of_Z] in *; try congruence; try reflexivity.
      apply Qle_bool_iff in Px, Py. apply Qle_bool_iff.
      change (inject_Z 0) with 0 in *. lra.
Qed.

(** A binary64 number is its own rounding. *)
Lemma round64_exact (q : Q) (m e : Z) :
  (Z.abs m < 2 ^ 53)%Z -> (-1074 <= e)%Z ->
  q == inject_Z m * pow2 e -> Qabs q < pow2 1024 ->
  round64 q = Fin (Qred q).
Proof.
  intros Hm He E Hq.
  pose proof (pow2_pos e) as Pe.
  unfold round64.
  destruct (Qcompare_spec q 0) as [H|H|H].
  - rewrite (Qred_complete q 0 H). reflexivity.
  - assert (Em : - q == inject_Z (- m) * pow2 e)
      by (rewrite inject_Z_opp, E; ring).
    assert (Hm' : (0 < - m < 2 ^ 53)%Z).
    { split; [|lia].
      destruct (Z_lt_le_dec 0 (- m)) as [L|L]; [exact L|exfalso].
      assert (0 <= inject_Z m)
        by (change 0 with (inject_Z 0); rewrite <- Zle_Qle; lia).
      assert (0 <= inject_Z m * pow2 e)
        by (apply Qmult_le_0_compat; lra).
      lra. }
    pose proof (nearest64_exact (- q) (- m) e Hm' He Em) as En.
    unfold round64_pos.
    rewrite (Qle_bool_eq _ (nearest64 (- q)) _ (- q) (Qeq_refl _) En).
    rewrite (Qabs_neg q) in Hq by lra.
    destruct (Qle_bool (pow2 1024) (- q)) eqn:Eo.
    + apply Qle_bool_iff in Eo. lra.
    + rewrite (Qred_complete _ _ En), Qred_opp.
      destruct (Qred q) as [a d]. unfold Qopp. cbn [Qnum Qden].
      rewrite Z.opp_involutive. reflexivity.
  - assert (Hm' : (0 < m < 2 ^ 53)%Z).
    { split; [|lia].
      destruct (Z_lt_le_dec 0 m) as [L|L]; [exact L|exfalso].
      assert (inject_Z m <= 0)
        by (change 0 with (inject_Z 0); rewrite <- Zle_Qle; lia).
      assert (inject_Z m * pow2 e <= 0) by nra.
      lra. }
    pose proof (nearest64_exact q m e Hm' He E) as En.
    unfold round64_pos.
    rewrite (Qle_bool_eq _ (nearest64 q) _ q (Qeq_refl _) En).
    rewrite (Qabs_pos q) in Hq by lra.
    destruct (Qle_bool (pow2 1024) q) eqn:Eo.
    + apply Qle_bool_iff in Eo. lra.
    + rewrite (Qred_complete _ _ En). reflexivity.
Qed.

(** Whole numbers of at most 53 bits are binary64 numbers. *)
Lemma round64_Z (q : Q) (z : Z) :
  (Z.abs z < 2 ^ 53)%Z -> q == inject_Z z -> round64 q = of_Z z.
Proof.
  intros Hz E.
  rewrite (round64_exact q z 0 Hz ltac:(lia)).
  - unfold of_Z. f_equal. rewrite (Qred_complete _ _ E).
    apply Qred_identity. apply Z.gcd_1_r.
  - rewrite E. change (pow2 0) with 1. ring.
  - apply Qabs_Qlt_condition. rewrite E.
    assert (P : pow2 53 < pow2 1024) by (apply pow2_lt; lia).
    rewrite (pow2_inject 53) in P by lia.
    assert (inject_Z z < inject_Z (2 ^ 53)) by (rewrite <- Zlt_Qlt; lia).
    assert (inject_Z (- 2 ^ 53) < inject_Z z) by (rewrite <- Zlt_Qlt; lia).
    rewrite inject_Z_opp in *. split; lra.
Qed.

(** The error of the rounding: at most a relative [2^-53], or the
    absolute [2^-1075] of the numbers around zero. *)
Lemma half_ulp_bound (x : Q) :
  0 < x -> pow2 (exponent64 x - 1) <= x * pow2 (-53) + pow2 (-1075).
Proof.
  intros Hx. destruct (Qlog2_spec x Hx) as [L1 _].
  pose proof (pow2_pos (-53)) as P53. pose proof (pow2_pos (-1075)) as P1075.
  unfold exponent64.
  destruct (Z.max_spec (-1074) (Qlog2 x - 52)) as [[_ ->]|[_ ->]].
  - replace (Qlog2 x - 52 - 1)%Z with (Qlog2 x + -53)%Z by lia.
    rewrite pow2_add. nra.
  - replace (-1074 - 1)%Z with (-1075)%Z by lia. nra.
Qed.

Lemma round64_error (x p : Q) :
  round64 x = Fin p ->
  Qabs (p - x) <= Qabs x * pow2 (-53) + pow2 (-1075).
Proof.
  pose proof (pow2_pos (-53)) as P53. pose proof (pow2_pos (-1075)) as P1075.
  unfold round64.
  destruct (Qcompare_spec x 0) as [H|H|H].
  - intros E. injection E as <-. rewrite H.
    change (Qabs (0 - 0)) with 0. change (Qabs 0) with 0. lra.
  - unfold round64_pos.
    destruct (Qle_bool (pow2 1024) (nearest64 (- x))); [discriminate|].
    intros E. injection E as <-.
    assert (Hn : 0 < - x) by lra.
    destruct (nearest64_error (- x) Hn) as [E1 E2].
    pose proof (half_ulp_bound (- x) Hn) as U.
    rewrite (Qabs_neg x) by lra.
    apply Qabs_Qle_condition. rewrite Qred_correct. split; lra.
  - unfold round64_pos.
    destruct (Qle_bool (pow2 1024) (nearest64 x)); [discriminate|].
    intros E. injection E as <-.
    destruct (nearest64_error x H) as [E1 E2].
    pose proof (half_ulp_bound x H) as U.
    rewrite (Qabs_pos x) by lra.
    apply Qabs_Qle_condition. rewrite Qred_correct. split; lra.
Qed.


Lemma mul64_Fin (a b : Q) : mul64 (Fin a) (Fin b) = round64 (a * b).
Proof. unfold mul64. cbn [mul]. apply round64_comp, Qred_correct. Qed.

Lemma div64_Fin (a b : Q) :
  ~ b == 0 -> div64 (Fin a) (Fin b) = round64 (a / b).
Proof.
  intros Hb. unfold div64. cbn [div]. unfold is_zero.
  destruct (Qeq_bool b 0) eqn:E.
  - apply Qeq_bool_iff in E. contradiction.
  - apply round64_comp, Qred_correct.
Qed.

Lemma Math_round_nonneg (x : number) :
  le (of_Z 0) x = true -> le (of_Z 0) (Math_round x) = true.
Proof.
  destruct x as [| | |v]; cbn [Math_round]; try (intros H; exact H).
  cbn [le of_Z]. intros H. apply Qle_bool_iff in H.
  change (inject_Z 0) with 0 in H.
  apply Qle_bool_iff. rewrite <- Zle_Qle.
  change 0%Z with (Qfloor 0). apply Qfloor_resp_le. lra.
Qed.


End Rounding.

(* ------------------------------------------------------------------ *)
(** ** The numbers at work *)

Example Math_round_halves :
  Math_round (Fin (5 # 2)) = of_Z 3
  /\ Math_round (Fin (-5 # 2)) = of_Z (-2)
  /\ Math_round (Fin (1234 # 10)) = of_Z 123
  /\ Math_round NaN = NaN.
Proof. repeat split. Qed.

Example number_special_values :
  mul PosInf (of_Z 0) = NaN
  /\ div (of_Z 1) (of_Z 0) = PosInf
  /\ div (of_Z 0) (of_Z 0) = NaN
  /\ add PosInf NegInf = NaN
  /\ ge NaN NaN = false
  /\ Math_max (Fin (1 # 100)) NaN = NaN
  /\ or_else (Some NaN) (of_Z 0) = of_Z 0
  /\ nullish (Some NaN) (of_Z 3) = NaN.
Proof. repeat split. Qed.

(* ------------------------------------------------------------------ *)
(** ** The reveal loop *)

Section RevealLoop.

Variable tm : number.

Lemma skipn_nth_error_cons (s : list Entry) (i : nat) (e : Entry) :
  nth_error s i = Some e -> skipn i s = e :: skipn (S i) s.
Proof.
  revert i. induction s as [|x s IH]; intros [|i] H; try discriminate.
  - injection H as ->. reflexivity.
  - apply IH in H. exact H.
Qed.

(** With enough fuel, the loop from [i] adds to [i] the length of the
    revealed prefix of the entries from [i] on. *)
Lemma visibleCount_loop_prefix (fuel : nat) (s : list Entry) (i : nat) :
  List.length s - i <= fuel ->
  visibleCount_loop fuel s tm i = i + revealed_prefix tm (skipn i s).
Proof.
  revert i. induction fuel as [|fuel IH]; intros i Hfuel.
  - rewrite skipn_all2 by lia. cbn [visibleCount_loop revealed_prefix]. lia.
  - cbn [visibleCount_loop]. destruct (nth_error s i) as [e|] eqn:He.
    + rewrite (skipn_nth_error_cons _ _ _ He). cbn [revealed_prefix].
      unfold revealed. destruct (ge tm (sub (at_ e) (of_Z 5))).
      * rewrite IH by lia. lia.
      * lia.
    + apply nth_error_None in He. rewrite skipn_all2 by lia.
      cbn [revealed_prefix]. lia.
Qed.

Lemma visibleCount_prefix (s : list Entry) :
  visibleCount s tm = revealed_prefix tm s.
Proof.
  unfold visibleCount. rewrite visibleCount_loop_prefix by lia. reflexivity.
Qed.

(** More fuel than the length of the schedule changes nothing. *)
Lemma visibleCount_loop_fuel (fuel : nat) (s : list Entry) :
  List.length s <= fuel -> visibleCount_loop fuel s tm 0 = visibleCount s tm.
Proof.
  intros H. rewrite visibleCount_prefix, visibleCount_loop_prefix by lia.
  reflexivity.
Qed.

Lemma revealed_prefix_le_length (s : list Entry) :
  revealed_prefix tm s <= List.length s.
Proof.
  induction s as [|e s IH]; simpl; [lia|].
  destruct (revealed tm e); lia.
Qed.

Lemma revealed_prefix_all (s : list Entry) :
  Forall (fun e => revealed tm e = true) s ->
  revealed_prefix tm s = List.length s.
Proof.
  induction 1 as [|e s He _ IH]; simpl; [reflexivity|].
  rewrite He, IH. reflexivity.
Qed.

End RevealLoop.

Lemma revealed_mono (t1 t2 : number) (e : Entry) :
  le t1 t2 = true -> revealed t1 e = true -> revealed t2 e = true.
Proof.
  unfold revealed, ge. intros H12 H1. exact (number_le_trans _ _ _ H1 H12).
Qed.

Lemma revealed_prefix_mono (t1 t2 : number) (s : list Entry) :
  le t1 t2 = true -> revealed_prefix t1 s <= revealed_prefix t2 s.
Proof.
  intros H. induction s as [|e s IH]; simpl; [lia|].
  destruct (revealed t1 e) eqn:H1; [|lia].
  rewrite (revealed_mono _ _ _ H H1). lia.
Qed.


Lemma nondecreasing_tail (a : number) (l : list number) :
  nondecreasing (a :: l) = true -> nondecreasing l = true.
Proof.
  destruct l as [|b l]; [reflexivity|].
  cbn [nondecreasing]. intros H. apply andb_true_iff in H. apply H.
Qed.

Lemma nondecreasing_head_le (a : number) (l : list number) :
  nondecreasing (a :: l) = true -> Forall (fun x => le a x = true) l.
Proof.
  revert a. induction l as [|b l IH]; intros a H; constructor.
  - cbn [nondecreasing] in H. apply andb_true_iff in H. apply H.
  - assert (Hab : le a b = true).
    { cbn [nondecreasing] in H. apply andb_true_iff in H. apply H. }
    apply nondecreasing_tail in H. apply IH in H.
    eapply Forall_impl; [|exact H]. cbn beta. intros x Hx.
    exact (number_le_trans _ _ _ Hab Hx).
Qed.


(* ------------------------------------------------------------------ *)
(** ** The schedule *)

Lemma schedule_map_length (acc : number) (ms : list Message) :
  List.length (schedule_map acc ms) = List.length ms.
Proof.
  revert acc. induction ms as [|m ms IH]; intros acc; simpl; [reflexivity|].
  rewrite IH. reflexivity.
Qed.


Lemma schedule_map_app (acc : number) (pre rest : list Message) :
  schedule_map acc (pre ++ rest)
  = schedule_map acc pre ++ schedule_map (delays_total acc pre) rest.
Proof.
  revert acc. induction pre as [|m pre IH]; intros acc; simpl; [reflexivity|].
  rewrite IH. reflexivity.
Qed.

Lemma schedule_map_nth (acc : number) (pre : list Message) (m : Message)
    (rest : list Message) :
  nth_error (schedule_map acc (pre ++ m :: rest)) (List.length pre)
  = Some {| entry_id := id m; at_ := delays_total acc pre |}.
Proof.
  rewrite schedule_map_app.
  rewrite nth_error_app2 by (rewrite schedule_map_length; lia).
  rewrite schedule_map_length, Nat.sub_diag. reflexivity.
Qed.

(** The delay of a message in milliseconds, case by case. *)
Lemma delayMs_cases (m : Message) :
  delayMs m = match delay_s m with
              | None => of_Z 3000
              | Some x => Math_round (mul64 x (of_Z 1000))
              end.
Proof.
  unfold delayMs. destruct (delay_s m) as [x|]; [reflexivity|].
  vm_compute. reflexivity.
Qed.

Lemma delayMs_nonneg (m : Message) :
  delay_ok m = true -> le (of_Z 0) (delayMs m) = true.
Proof.
  unfold delay_ok, ge. rewrite delayMs_cases.
  destruct (delay_s m) as [[| | |q]|]; intros H; try discriminate H;
    try reflexivity.
  apply Math_round_nonneg.
  change (of_Z 1000) with (Fin (inject_Z 1000)). rewrite mul64_Fin.
  apply round64_nonneg.
  apply Qle_bool_iff in H. change (inject_Z 0) with 0%Q in H.
  apply Qmult_le_0_compat; [exact H|discriminate].
Qed.


(** From an accumulator that is at least 0 and admissible delays, every
    [at] is at least 0 and the list is non-decreasing. *)
Lemma schedule_map_sorted (ms : list Message) :
  Forall (fun m => delay_ok m = true) ms ->
  forall acc : number,
    le (of_Z 0) acc = true ->
    nondecreasing (map at_ (schedule_map acc ms)) = true
    /\ Forall (fun x => le (of_Z 0) x = true) (map at_ (schedule_map acc ms)).
Proof.
  induction 1 as [|m ms Hm _ IH]; intros acc Hacc.
  - split; [reflexivity|constructor].
  - destruct (add_nonneg acc (delayMs m) Hacc (delayMs_nonneg m Hm))
      as [Hup Hnext].
    destruct (IH _ Hnext) as [Hs Hall].
    cbn [schedule_map map at_]. split.
    + destruct ms as [|m' ms]; [reflexivity|].
      cbn [schedule_map map at_ nondecreasing] in *.
      rewrite Hs, Hup. reflexivity.
    + constructor; assumption.
Qed.

Lemma nondecreasing_le_last (l : list number) (d : number) :
  nondecreasing l = true ->
  Forall (fun x => le x x = true) l ->
  Forall (fun x => le x (last l d) = true) l.
Proof.
  induction l as [|a l IH]; intros Hs Hr; [constructor|].
  inversion Hr as [|? ? Ha Hl]; subst.
  destruct l as [|b l].
  - constructor; [exact Ha|constructor].
  - assert (Hab := nondecreasing_head_le _ _ Hs).
    specialize (IH (nondecreasing_tail _ _ Hs) Hl).
    change (last (a :: b :: l) d) with (last (b :: l) d).
    constructor; [|exact IH].
    inversion IH as [|? ? Hb _]; subst.
    inversion Hab as [|? ? Hab' _]; subst.
    exact (number_le_trans _ _ _ Hab' Hb).
Qed.

(* ------------------------------------------------------------------ *)
(** ** The reveal scheduler: schedule and visible count *)



(** The delays of binary64 inputs: the number nearest to 0.0045 gives
    5 ms, because its product with 1000 rounds to 4.5; the number
    nearest to 0.5005 gives 500 ms; and 1e308 overflows. *)
Example delayMs_binary64 :
  delayMs (msg "a" (Some (Fin (5188146770730811 # 1152921504606846976))))
  = of_Z 5
  /\ delayMs (msg "b" (Some (Fin (4508096120551899 # 9007199254740992))))
     = of_Z 500
  /\ delayMs (msg "c" (Some (of_Z (10 ^ 308)))) = PosInf
  /\ delayMs (msg "d" (Some (Fin (3 # 2)))) = of_Z 1500.
Proof. vm_compute. repeat split. Qed.

(** C4, as the code has it: the delay of a message is exactly 3000 ms
    when [delay_s] is absent and the rounded value of [delay_s * 1000]
    otherwise, and the schedule uses it: the [at] of the next entry is the
    [at] of the entry of the message plus that delay.  When every delay
    that is present satisfies [delay_s >= 0] (so it is not [NaN] and not
    negative), every delay in milliseconds is at least 0 and the [at]
    values are non-decreasing in list order.  (A negative or [NaN] delay
    is used as it is.) *)
Theorem schedule_nondecreasing (ms : list Message) :
  Forall (fun m => delayMs m = match delay_s m with
                               | None => of_Z 3000
                               | Some x => Math_round (mul64 x (of_Z 1000))
                               end) ms
  /\ (forall (pre : list Message) (m next : Message) (rest : list Message),
         ms = pre ++ m :: next :: rest ->
         exists a : number,
           nth_error (schedule ms) (List.length pre)
           = Some {| entry_id := id m; at_ := a |}
           /\ nth_error (schedule ms) (S (List.length pre))
              = Some {| entry_id := id next; at_ := add a (delayMs m) |})
  /\ (Forall (fun m => delay_ok m = true) ms ->
      Forall (fun m => ge (delayMs m) (of_Z 0) = true) ms
      /\ nondecreasing (map at_ (schedule ms)) = true).
Proof.
  split; [|split].
  - apply Forall_forall. intros m _. apply delayMs_cases.
  - intros pre m next rest ->. exists (delays_total (of_Z 0) pre).
    unfold schedule. split; [apply schedule_map_nth|].
    replace (pre ++ m :: next :: rest) with ((pre ++ [m]) ++ next :: rest)
      by (rewrite <- app_assoc; reflexivity).
    replace (S (List.length pre)) with (List.length (pre ++ [m]))
      by (rewrite length_app; simpl; lia).
    rewrite schedule_map_nth. unfold delays_total.
    rewrite fold_left_app. reflexivity.
  - intros H. split.
    + eapply Forall_impl; [|exact H]. cbn beta. intros m Hm.
      exact (delayMs_nonneg m Hm).
    + apply (schedule_map_sorted ms H (of_Z 0)). reflexivity.
Qed.

Lemma schedule_nondecreasing_witness :
  Forall (fun m => delay_ok m = true) three_messages
  /\ nondecreasing (map at_ (schedule three_messages)) = true.
Proof.
  assert (H : Forall (fun m => delay_ok m = true) three_messages)
    by (repeat constructor).
  split; [exact H|].
  exact (proj2 (proj2 (proj2 (schedule_nondecreasing three_messages)) H)).
Defined.

(** C4 fails as stated: a negative delay is not clamped, so the [at]
    values go down, and a [NaN] delay is not replaced by 3000 ms. *)
Lemma schedule_no_clamp :
  map at_ (schedule [msg "a" (Some (of_Z (-2))); msg "b" None])
  = [of_Z 0; of_Z (-2000)]
  /\ nondecreasing
       (map at_ (schedule [msg "a" (Some (of_Z (-2))); msg "b" None])) = false
  /\ delayMs (msg "a" (Some (of_Z (-2)))) = of_Z (-2000)
  /\ delayMs (msg "n" (Some NaN)) = NaN
  /\ delayMs (msg "n" (Some NaN)) <> of_Z 3000.
Proof.
  repeat split; try reflexivity. discriminate.
Qed.




(** C6, as the code has it: on every schedule the visible count does not
    go down when the time goes up; and for every message list whose
    present delays satisfy [delay_s >= 0], the visible count at the [at]
    of the last entry is the length of the schedule. *)
Theorem visibleCount_monotone :
  (forall (s : list Entry) (t1 t2 : number),
      le t1 t2 = true -> visibleCount s t1 <= visibleCount s t2)
  /\ (forall ms : list Message,
         Forall (fun m => delay_ok m = true) ms ->
         visibleCount (schedule ms) (last (map at_ (schedule ms)) NaN)
         = List.length (schedule ms)).
Proof.
  split.
  - intros s t1 t2 H. rewrite !visibleCount_prefix.
    apply revealed_prefix_mono. exact H.
  - intros ms H. rewrite visibleCount_prefix.
    apply revealed_prefix_all.
    destruct (schedule_map_sorted ms H (of_Z 0) eq_refl) as [Hs Hall].
    fold (schedule ms) in Hs, Hall.
    assert (Hrefl : Forall (fun x => le x x = true) (map at_ (schedule ms))).
    { eapply Forall_impl; [|exact Hall]. cbn beta.
      intros x Hx. exact (le_refl_of_le _ _ Hx). }
    pose proof (nondecreasing_le_last _ NaN Hs Hrefl) as Hlast.
    rewrite Forall_map in Hlast, Hrefl.
    rewrite Forall_forall in *. intros e He.
    unfold revealed, ge.
    exact (number_le_trans _ _ _ (sub_tolerance_le _ (Hrefl e He)) (Hlast e He)).
Qed.

Lemma visibleCount_monotone_witness :
  le (of_Z 2500) (of_Z 7000) = true
  /\ visibleCount (schedule three_messages) (of_Z 2500)
     <= visibleCount (schedule three_messages) (of_Z 7000)
  /\ Forall (fun m => delay_ok m = true) three_messages
  /\ visibleCount (schedule three_messages)
       (last (map at_ (schedule three_messages)) NaN)
     = List.length (schedule three_messages).
Proof.
  assert (H : Forall (fun m => delay_ok m = true) three_messages)
    by (repeat constructor).
  split; [reflexivity|].
  split; [apply (proj1 visibleCount_monotone); reflexivity|].
  split; [exact H|]. exact (proj2 visibleCount_monotone three_messages H).
Defined.

(** C6 fails as stated: with the delays 5, -3 and none the [at] values
    are 0, 5000, 2000, and at the [at] of the last entry only the first
    entry is visible. *)
Lemma visibleCount_at_last_backwards :
  backwards_messages <> []
  /\ map at_ (schedule backwards_messages) = [of_Z 0; of_Z 5000; of_Z 2000]
  /\ last (map at_ (schedule backwards_messages)) NaN = of_Z 2000
  /\ visibleCount (schedule backwards_messages) (of_Z 2000) = 1
  /\ visibleCount (schedule backwards_messages)
       (last (map at_ (schedule backwards_messages)) NaN)
     <> List.length (schedule backwards_messages).
Proof.
  split; [discriminate|].
  repeat split; try (vm_compute; reflexivity).
  vm_compute. discriminate.
Qed.

(** C10: the first entry of the schedule of a non-empty message list is
    at 0 whatever the delay of the first message is, and the visible
    count is at least 1 at every time that is at least 0. *)
Theorem first_message_visible (m : Message) (rest : list Message) (tm : number) :
  option_map at_ (nth_error (schedule (m :: rest)) 0) = Some (of_Z 0)
  /\ (ge tm (of_Z 0) = true -> 1 <= visibleCount (schedule (m :: rest)) tm).
Proof.
  split; [reflexivity|]. intros H.
  rewrite visibleCount_prefix. unfold schedule.
  cbn [schedule_map revealed_prefix]. unfold revealed at 1. cbn [at_].
  rewrite sub_of_Z. unfold ge in *.
  assert (H5 : le (of_Z (0 - 5)) (of_Z 0) = true) by reflexivity.
  rewrite (number_le_trans _ _ _ H5 H). lia.
Qed.

Lemma first_message_visible_witness :
  ge (of_Z 0) (of_Z 0) = true
  /\ 1 <= visibleCount (schedule (msg "a" (Some (of_Z 9)) :: nil)) (of_Z 0).
Proof.
  split; [reflexivity|].
  apply (proj2 (first_message_visible (msg "a" (Some (of_Z 9))) nil (of_Z 0))).
  reflexivity.
Defined.

(* ------------------------------------------------------------------ *)
(** ** The presentation surface and its clock *)

Lemma timeline_effect_export (p : Props) (st : Preview) :
  exportMode p = true -> typeof_number (timeOverrideMs p) = true ->
  timeline_effect p st = st.
Proof.
  intros H1 H2. unfold timeline_effect. rewrite H1, H2. reflexivity.
Qed.

Lemma export_driven_step (c c' : Props * Preview) :
  export_driven c -> step c c' -> export_driven c'.
Proof.
  intros [Hm [Ho [Hp [Ht [Hr Hq]]]]] Hstep.
  destruct Hstep; cbn [fst snd] in *.
  - rewrite timeline_effect_export by assumption. repeat split; assumption.
  - unfold cancel_current. rewrite Hr. repeat split; assumption.
  - rewrite Hq in H. destruct H.
  - repeat split; assumption.
  - congruence.
  - congruence.
  - repeat split; assumption.
Qed.

Lemma export_driven_steps (c c' : Props * Preview) :
  export_driven c -> steps c c' -> export_driven c'.
Proof.
  intros Hc Hsteps. induction Hsteps as [|c c' c'' _ IH Hstep]; [exact Hc|].
  exact (export_driven_step _ _ (IH Hc) Hstep).
Qed.

(** C8: in a preview that is mounted in export mode with a time
    override, the timeline time is the override, whatever the internal
    time is, and the timeline effect does nothing.  The preview starts
    paused with no frame request, and in every state that it reaches no
    frame request is held, so the animation callback never runs, the
    internal time stays 0, and the timeline time is the current override;
    a step changes the timeline time only when the host sets the
    override, and then to exactly that value. *)
Theorem export_time_is_override (p : Props) (v : number) :
  exportMode p = true ->
  timeOverrideMs p = Some v ->
  (forall st : Preview, timeMs p st = v /\ timeline_effect p st = st)
  /\ playing (mount p) = false
  /\ pending (mount p) = []
  /\ (forall (p' : Props) (st' : Preview),
         steps (p, mount p) (p', st') ->
         exportMode p' = true
         /\ timeOverrideMs p' = Some (timeMs p' st')
         /\ timeline_effect p' st' = st'
         /\ playing st' = false /\ t st' = of_Z 0
         /\ raf st' = None /\ pending st' = []
         /\ forall c'' : Props * Preview,
              step (p', st') c'' ->
              timeMs (fst c'') (snd c'') = timeMs p' st'
              \/ exists v' : number,
                   c'' = (set_override p' v', st')
                   /\ timeMs (fst c'') (snd c'') = v').
Proof.
  intros Hm Ho.
  assert (Hinit : export_driven (p, mount p)).
  { unfold export_driven, mount. cbn [fst snd playing t raf pending].
    rewrite Hm, Ho. repeat split. }
  split.
  { intros st. split.
    - unfold timeMs. rewrite Hm, Ho. reflexivity.
    - apply timeline_effect_export; [exact Hm|rewrite Ho; reflexivity]. }
  split; [unfold mount; cbn [playing]; rewrite Hm; reflexivity|].
  split; [reflexivity|].
  intros p' st' Hsteps.
  pose proof (export_driven_steps _ _ Hinit Hsteps) as Hinv.
  destruct Hinv as [Hm' [Ho' [Hp' [Ht' [Hr' Hq']]]]]. cbn [fst snd] in *.
  split; [exact Hm'|].
  split.
  { unfold timeMs. rewrite Hm', Ho'.
    destruct (timeOverrideMs p'); [reflexivity|discriminate]. }
  split; [apply timeline_effect_export; assumption|].
  repeat (split; [assumption|]).
  intros c'' Hstep.
  assert (Hsame : forall st'' : Preview, timeMs p' st'' = timeMs p' st').
  { intros st''. unfold timeMs. rewrite Hm', Ho'.
    destruct (timeOverrideMs p'); [reflexivity|discriminate]. }
  inversion Hstep; subst; cbn [fst snd];
    try (left; apply Hsame).
  right. exists v0. split; [reflexivity|].
  unfold timeMs, set_override. cbn [exportMode timeOverrideMs].
  rewrite Hm'. reflexivity.
Qed.

Lemma export_time_is_override_witness :
  timeMs (FakeTextBuilder.ExportHost FakeTextBuilder.builder0
       (FakeTextBuilder.messages FakeTextBuilder.builder0) (of_Z 10500))
    (mount (FakeTextBuilder.ExportHost FakeTextBuilder.builder0
       (FakeTextBuilder.messages FakeTextBuilder.builder0) (of_Z 10500)))
  = of_Z 0.
Proof.
  exact (proj1 (proj1 (export_time_is_override
                         (FakeTextBuilder.ExportHost FakeTextBuilder.builder0
       (FakeTextBuilder.messages FakeTextBuilder.builder0) (of_Z 10500))
                         (of_Z 0) eq_refl eq_refl)
                  (mount (FakeTextBuilder.ExportHost FakeTextBuilder.builder0
                            (FakeTextBuilder.messages FakeTextBuilder.builder0)
                            (of_Z 10500))))).
Defined.

(** C9: with no messages the chat body is the time separator alone, at
    every timeline time: no bubble is rendered.  For every message list
    the first row of the chat body is the time separator. *)
Theorem empty_messages_render (p : Props) (st : Preview) :
  hd_error (chatBody p st) = Some (TimeSeparator (timeLine p))
  /\ (messages p = [] ->
      chatBody p st = [TimeSeparator (timeLine p)]
      /\ bubbles (chatBody p st) = []
      /\ visibleCount (schedule (messages p)) (timeMs p st) = 0).
Proof.
  split; [reflexivity|].
  intros H. unfold chatBody. rewrite H. repeat split.
Qed.

Lemma empty_messages_render_witness :
  chatBody (mkProps false "Anna" None "Today 7:42 PM" [] (of_Z 60000) None)
    (mount (mkProps false "Anna" None "Today 7:42 PM" [] (of_Z 60000) None))
  = [TimeSeparator "Today 7:42 PM"].
Proof.
  exact (proj1 (proj2 (empty_messages_render
                         (mkProps false "Anna" None "Today 7:42 PM" []
                            (of_Z 60000) None)
                         (mount (mkProps false "Anna" None "Today 7:42 PM" []
                                   (of_Z 60000) None)))
                  eq_refl)).
Defined.

(* ------------------------------------------------------------------ *)
(** ** The export schedule builder *)

Import FakeTextBuilder.



Section ExportDelay.

Local Open Scope Q_scope.








End ExportDelay.



(* ------------------------------------------------------------------ *)
(** ** The frame capture loop *)

Lemma dt_33 : dt = of_Z 33.
Proof. vm_compute. reflexivity. Qed.

Lemma Qceiling_div_33 (d : Z) :
  Qceiling (inject_Z d / inject_Z 33) = ((d + 32) / 33)%Z.
Proof.
  unfold Qceiling.
  assert (E : (- (inject_Z d / inject_Z 33) == inject_Z (- d) / inject_Z 33)%Q).
  { rewrite inject_Z_opp. unfold Qdiv. ring. }
  rewrite (Qfloor_comp _ _ E), <- Zdiv_Qdiv.
  pose proof (Z.div_mod (- d) 33 ltac:(lia)) as H1.
  pose proof (Z.mod_pos_bound (- d) 33 ltac:(lia)) as H2.
  pose proof (Z.div_mod (d + 32) 33 ltac:(lia)) as H3.
  pose proof (Z.mod_pos_bound (d + 32) 33 ltac:(lia)) as H4.
  lia.
Qed.

Lemma totalFrames_of_Z (d : Z) :
  totalFrames (of_Z d) = of_Z ((d + 32) / 33).
Proof.
  unfold totalFrames. rewrite dt_33.
  change (div (of_Z d) (of_Z 33))
    with (Fin (Qred (inject_Z d / inject_Z 33))).
  cbn [Math_ceil]. f_equal.
  rewrite (Qceiling_comp _ _ (Qred_correct _)). apply Qceiling_div_33.
Qed.

Lemma exportTimelineMs_of_Z (d : Z) (i : nat) :
  exportTimelineMs (of_Z d) i = of_Z (frame_time d i).
Proof.
  unfold exportTimelineMs, frame_time, of_nat. rewrite dt_33.
  rewrite mul_of_Z, Math_round_of_Z, Math_min_of_Z.
  rewrite (Z.mul_comm 33). reflexivity.
Qed.

Lemma set_events_events (s : State) (evs : list Event) :
  events (set_events s evs) = evs.
Proof. reflexivity. Qed.

Lemma set_events_twice (s : State) (e1 e2 : list Event) :
  set_events (set_events s e1) e2 = set_events s e2.
Proof. reflexivity. Qed.

Lemma set_events_same (s : State) : set_events s (events s) = s.
Proof. destruct s. reflexivity. Qed.

Section CaptureLoop.

Variable w : World.
Variable d : Z.
Variable blobs : nat -> bytes.

Hypothesis d_nonneg : (0 <= d)%Z.
Hypothesis captures :
  forall i : nat, toBlob w i (of_Z (frame_time d i)) = Some (blobs i).

Lemma frame_count_pos : 0 < frame_count d.
Proof.
  unfold frame_count.
  pose proof (Z.div_pos (d + 32) 33 ltac:(lia) ltac:(lia)). lia.
Qed.

Lemma capture_test (i : nat) :
  le (of_nat i) (totalFrames (of_Z d)) = (i <? frame_count d).
Proof.
  rewrite totalFrames_of_Z. unfold of_nat. rewrite le_of_Z.
  unfold frame_count.
  pose proof (Z.div_pos (d + 32) 33 ltac:(lia) ltac:(lia)).
  destruct (Z.leb_spec (Z.of_nat i) ((d + 32) / 33));
    destruct (Nat.ltb_spec i (Z.to_nat ((d + 32) / 33 + 1)));
    try reflexivity; lia.
Qed.

(** From the index [i], with [k] steps left and more fuel than that, the
    loop runs the [k] steps in order and returns their frames. *)
Lemma capture_loop_from (k i : nat) (frames : list bytes) (s : State)
    (fuel : nat) :
  i + k = frame_count d ->
  k < fuel ->
  capture_loop w fuel (of_Z d) i frames s
  = (Ok (frames ++ map blobs (seq i k)),
     set_events s (events s ++ flat_map (capture_step d) (seq i k))).
Proof.
  revert i frames s fuel.
  induction k as [|k IH]; intros i frames s fuel Hik Hfuel;
    (destruct fuel as [|fuel]; [lia|]); cbn [capture_loop].
  - rewrite capture_test.
    destruct (Nat.ltb_spec i (frame_count d)); [lia|].
    cbn [seq map flat_map]. rewrite !app_nil_r, set_events_same. reflexivity.
  - rewrite capture_test.
    destruct (Nat.ltb_spec i (frame_count d)); [|lia].
    rewrite exportTimelineMs_of_Z, captures.
    unfold bind, emit. cbn [fst snd].
    rewrite (IH (S i)) by lia.
    rewrite !set_events_twice, !set_events_events.
    cbn [seq map flat_map]. rewrite <- !app_assoc. reflexivity.
Qed.

End CaptureLoop.

(** What the loop does when it runs: the step is
    [dt = round(1000 / 30) = 33] ms, not the [1000 / 30] ms of 30 frames
    per second.  For every whole duration [d >= 0], when every capture
    gives a blob and with enough fuel for the loop, the capture loop
    performs the steps [i = 0, ..., ceil(d / 33)], each once and in
    increasing order: it sets the export clock to [min(d, 33 * i)], awaits
    one frame, captures, and appends the blob. *)
Lemma capture_loop_steps (w : World) (d : Z) (blobs : nat -> bytes)
    (s : State) (fuel : nat) :
  (0 <= d)%Z ->
  (forall i : nat, toBlob w i (of_Z (frame_time d i)) = Some (blobs i)) ->
  frame_count d < fuel ->
  dt = of_Z 33
  /\ totalFrames (of_Z d) = of_Z ((d + 32) / 33)
  /\ frame_count d = S (Z.to_nat ((d + 32) / 33))
  /\ (forall i : nat,
         exportTimelineMs (of_Z d) i = of_Z (Z.min d (33 * Z.of_nat i)))
  /\ capture_loop w fuel (of_Z d) 0 [] s
     = (Ok (map blobs (seq 0 (frame_count d))),
        set_events s
          (events s ++ flat_map (capture_step d) (seq 0 (frame_count d))))
  /\ export_times (flat_map (capture_step d) (seq 0 (frame_count d)))
     = map (fun i => of_Z (frame_time d i)) (seq 0 (frame_count d))
  /\ (forall i : nat,
         S i < frame_count d ->
         frame_time d i = (33 * Z.of_nat i)%Z /\ (33 * Z.of_nat i < d)%Z)
  /\ frame_time d (frame_count d - 1) = d
  /\ frame_count 100 = 5
  /\ map (frame_time 100) (seq 0 (frame_count 100))
     = [0; 33; 66; 99; 100]%Z.
Proof.
  intros Hd Hblobs Hfuel.
  assert (Hdiv : (0 <= (d + 32) / 33)%Z) by (apply Z.div_pos; lia).
  assert (Hcount : frame_count d = S (Z.to_nat ((d + 32) / 33))).
  { unfold frame_count. rewrite Z2Nat.inj_add by lia.
    change (Z.to_nat 1) with 1. lia. }
  pose proof (Z.div_mod (d + 32) 33 ltac:(lia)) as Hdm.
  pose proof (Z.mod_pos_bound (d + 32) 33 ltac:(lia)) as Hmod.
  split; [exact dt_33|].
  split; [apply totalFrames_of_Z|].
  split; [exact Hcount|].
  split; [intros i; apply exportTimelineMs_of_Z|].
  split.
  { rewrite (capture_loop_from w d blobs Hd Hblobs (frame_count d) 0 [] s fuel)
      by lia.
    reflexivity. }
  split.
  { generalize (seq 0 (frame_count d)). intros l.
    unfold export_times.
    induction l as [|i l IH]; [reflexivity|].
    cbn [flat_map capture_step map app]. f_equal. exact IH. }
  split.
  { intros i Hi. rewrite Hcount in Hi. unfold frame_time.
    assert (Z.of_nat i + 1 <= (d + 32) / 33)%Z by lia.
    split; lia. }
  split.
  { rewrite Hcount. unfold frame_time.
    replace (S (Z.to_nat ((d + 32) / 33)) - 1) with (Z.to_nat ((d + 32) / 33))
      by lia.
    rewrite Z2Nat.id by lia. lia. }
  split; reflexivity.
Qed.

(** C1, at the failing input: at the fixed 30 frames per second and a
    total duration of 100 ms the loop steps by
    [dt = round(1000 / 30) = 33] and captures 5 frames, at 0, 33, 66, 99
    and 100 ms; 30 frames per second are the 4 frames of
    [floor(100 / (1000 / 30)) + 1], at 0, 33, 67 and 100 ms.  And the
    export itself never reaches the loop: with two messages whose speech
    lasts 50 ms each and every collaborator succeeding, rendering the root
    that has just been unmounted throws after the speech, and no frame is
    captured. *)
Theorem capture_at_100 :
  dt = of_Z 33
  /\ fst (capture_loop world_ok 6 (of_Z 100) 0 [] builder_two)
     = Ok [[]; []; []; []; []]
  /\ export_times
       (events (snd (capture_loop world_ok 6 (of_Z 100) 0 [] builder_two)))
     = [of_Z 0; of_Z 33; of_Z 66; of_Z 99; of_Z 100]
  /\ export_times
       (events (snd (capture_loop world_ok 6 (of_Z 100) 0 [] builder_two)))
     <> [of_Z 0; of_Z 33; of_Z 67; of_Z 100]
  /\ spec_frame_count 100 = 4%Z
  /\ Z.of_nat (frame_count 100) <> spec_frame_count 100
  /\ fst (speech_loop world_ok 2 0 (messages builder_two) [] [] builder_two)
     = Ok ([[]; []], [of_Z 50; of_Z 50])
  /\ sum_durations [of_Z 50; of_Z 50] = of_Z 100
  /\ events (snd (exportMp4Exact world_ok 6 builder_two))
     = [Render (ExportHost builder_two (messages builder_two) (of_Z 7500));
        AwaitFrame;
        Fetch UserVoiceSpeech "adam" "Hey, you free?";
        Fetch UserVoiceSpeech "alloy" "Yep! On my way.";
        Unmount;
        ConsoleError "Cannot update an unmounted root."]
  /\ export_times (events (snd (exportMp4Exact world_ok 6 builder_two))) = []
  /\ filter is_capture (events (snd (exportMp4Exact world_ok 6 builder_two)))
     = [].
Proof.
  repeat split; try (vm_compute; reflexivity); vm_compute; discriminate.
Qed.

(* ------------------------------------------------------------------ *)
(** ** Speech synthesis and the failure of an export *)

Lemma voice_of_inputs (s s' : State) (m : Message) :
  inputs s' = inputs s -> voice_of s' m = voice_of s m.
Proof.
  unfold inputs, voice_of. intros H. injection H as _ _ _ _ -> -> ->.
  reflexivity.
Qed.

Lemma extends_refl (s : State) : extends s s [].
Proof.
  unfold extends. rewrite app_nil_r. repeat split.
Qed.

Lemma extends_trans (s1 s2 s3 : State) (a b : list Event) :
  extends s1 s2 a -> extends s2 s3 b -> extends s1 s3 (a ++ b).
Proof.
  unfold extends. intros [H1 [H2 [H3 H4]]] [K1 [K2 [K3 K4]]].
  rewrite K1, K2, K3, K4, H1, H2, H3, H4, app_assoc. repeat split.
Qed.

Section Synthesis.

Variable w : World.

(** A synthesis terminates, and it sends one request to the first
    endpoint and at most one to the second. *)
Lemma synthesizeSegment_trace (txt voice : string) (idx : Z) (s : State) :
  exists (r : Result (bytes * number)) (added : list Event),
    synthesizeSegment w txt voice idx s
    = (r, set_events s (events s ++ added))
    /\ r <> Diverge
    /\ (added = [Fetch UserVoiceSpeech voice txt]
        \/ added = [Fetch UserVoiceSpeech voice txt;
                    Fetch AudioSpeech voice txt]).
Proof.
  unfold synthesizeSegment, do_fetch, bind, emit, ret, throw.
  destruct (fetch w UserVoiceSpeech idx voice txt) as [r1|].
  - destruct (ok r1) eqn:Hok1; cbn [negb].
    + rewrite Hok1. cbn [negb].
      destruct (decodeAudioData w (body r1)); eexists; eexists;
        (split; [reflexivity|split; [discriminate|left; reflexivity]]).
    + cbn [events set_events].
      destruct (fetch w AudioSpeech idx voice txt) as [r2|].
      * destruct (ok r2); cbn [negb];
          [destruct (decodeAudioData w (body r2))|];
          eexists; eexists;
          (split; [|split; [|right; reflexivity]];
           [rewrite <- app_assoc; reflexivity|discriminate]).
      * eexists; eexists.
        split; [|split; [|right; reflexivity]];
          [rewrite <- app_assoc; reflexivity|discriminate].
  - eexists; eexists.
    split; [reflexivity|split; [discriminate|left; reflexivity]].
Qed.

(** When both endpoints answer without success, the synthesis throws. *)
Lemma synthesizeSegment_fails (txt voice : string) (idx : Z) (s : State)
    (r1 r2 : Response) :
  fetch w UserVoiceSpeech idx voice txt = Some r1 -> ok r1 = false ->
  fetch w AudioSpeech idx voice txt = Some r2 -> ok r2 = false ->
  synthesizeSegment w txt voice idx s
  = (Throw ("TTS failed (" ++ String_Z (status r2) ++ ")")%string,
     set_events s (events s ++ [Fetch UserVoiceSpeech voice txt;
                                Fetch AudioSpeech voice txt])).
Proof.
  intros H1 Hok1 H2 Hok2.
  unfold synthesizeSegment, do_fetch, bind, emit, ret, throw.
  rewrite H1, Hok1. cbn [negb events set_events].
  rewrite H2, Hok2. cbn [negb]. rewrite <- app_assoc. reflexivity.
Qed.

End Synthesis.

Lemma requests_to_app (ep : Endpoint) (a b : list Event) :
  requests_to ep (a ++ b) = requests_to ep a ++ requests_to ep b.
Proof. unfold requests_to. apply flat_map_app. Qed.

Section SpeechLoop.

Variable w : World.
Variable total : nat.

(** The failing message [m], the messages [rest] after it, its voice and
    the two answers without success. *)
Variable m : Message.
Variable rest : list Message.
Variable voice : string.
Variables r1 r2 : Response.

Hypothesis first_fails : ok r1 = false.
Hypothesis second_fails : ok r2 = false.

(** The speech loop throws at the failing message at the latest; until
    then it has only sent speech requests, one to the first endpoint for
    each message that it has reached, in order, and at most as many to the
    second. *)
Lemma speech_loop_fails (pre : list Message) :
  forall (i : nat) (segs : list bytes) (durs : list number) (s : State),
    voice_of s m = voice ->
    fetch w UserVoiceSpeech (Z.of_nat (i + List.length pre)) voice (text m)
    = Some r1 ->
    fetch w AudioSpeech (Z.of_nat (i + List.length pre)) voice (text m)
    = Some r2 ->
    exists (e : string) (s' : State) (added : list Event) (j : nat),
      speech_loop w total i (pre ++ m :: rest) segs durs s = (Throw e, s')
      /\ extends s s' added
      /\ Forall (fun ev => is_fetch ev = true) added
      /\ j <= List.length pre + 1
      /\ requests_to UserVoiceSpeech added
         = map (fun x => (voice_of s x, text x)) (firstn j (pre ++ m :: rest))
      /\ List.length (requests_to AudioSpeech added) <= j.
Proof.
  induction pre as [|m0 pre IH]; intros i segs durs s Hv H1 H2.
  - cbn [app speech_loop]. unfold bind at 1, get. unfold bind at 1.
    cbn [setExportNote]. unfold bind at 1.
    cbn [List.length] in H1, H2. rewrite Nat.add_0_r in H1, H2.
    rewrite Hv.
    rewrite (synthesizeSegment_fails w _ _ _ _ r1 r2 H1 first_fails H2
               second_fails).
    eexists. eexists.
    exists [Fetch UserVoiceSpeech voice (text m);
            Fetch AudioSpeech voice (text m)], 1.
    split; [reflexivity|].
    split; [repeat split|].
    split; [repeat constructor|].
    split; [cbn [List.length]; lia|].
    split; [cbn [firstn map requests_to flat_map app]; rewrite Hv; reflexivity|].
    cbn [requests_to flat_map app List.length]. lia.
  - cbn [app speech_loop]. unfold bind at 1, get. unfold bind at 1.
    cbn [setExportNote]. unfold bind at 1.
    match goal with
    | |- context [synthesizeSegment w ?x ?v ?n ?st] =>
        destruct (synthesizeSegment_trace w x v n st)
          as [r [added0 [Hrun [Hnd Hadded0]]]];
        rewrite Hrun; set (s1 := st) in *
    end.
    assert (Hext1 : extends s (set_events s1 (events s1 ++ added0)) added0)
      by (repeat split).
    assert (Hfetch0 : Forall (fun ev => is_fetch ev = true) added0)
      by (destruct Hadded0 as [-> | ->]; repeat constructor).
    assert (Hreq0 : requests_to UserVoiceSpeech added0
                    = [(voice_of s m0, text m0)])
      by (destruct Hadded0 as [-> | ->]; reflexivity).
    assert (Hsec0 : List.length (requests_to AudioSpeech added0) <= 1)
      by (destruct Hadded0 as [-> | ->]; cbn; lia).
    destruct r as [seg|e|]; [| |congruence].
    + set (s2 := set_events s1 (events s1 ++ added0)) in *.
      assert (Hin : inputs s2 = inputs s) by apply Hext1.
      destruct (IH (S i) (segs ++ [fst seg]) (durs ++ [snd seg]) s2)
        as [e [s' [added [j [Hloop [Hext [Hf [Hj [Hreq Hsec]]]]]]]]].
      * rewrite (voice_of_inputs _ _ m Hin). exact Hv.
      * cbn [List.length] in H1.
        replace (S i + List.length pre) with (i + S (List.length pre)) by lia.
        exact H1.
      * cbn [List.length] in H2.
        replace (S i + List.length pre) with (i + S (List.length pre)) by lia.
        exact H2.
      * exists e, s', (added0 ++ added), (S j).
        split; [exact Hloop|].
        split; [exact (extends_trans _ _ _ _ _ Hext1 Hext)|].
        split; [apply Forall_app; split; assumption|].
        split; [cbn [List.length]; lia|].
        split.
        -- rewrite requests_to_app, Hreq0, Hreq.
           cbn [firstn map app]. apply (f_equal (cons _)).
           apply map_ext. intros x. rewrite (voice_of_inputs _ _ x Hin).
           reflexivity.
        -- rewrite requests_to_app, length_app. lia.
    + exists e, (set_events s1 (events s1 ++ added0)), added0, 1.
      split; [reflexivity|].
      split; [exact Hext1|].
      split; [exact Hfetch0|].
      split; [lia|].
      split; [rewrite Hreq0; reflexivity|exact Hsec0].
Qed.

End SpeechLoop.

Lemma filter_fetches (f : Event -> bool) (l : list Event) :
  (forall ep v x, f (Fetch ep v x) = false) ->
  Forall (fun ev => is_fetch ev = true) l ->
  filter f l = [].
Proof.
  intros Hf H. induction H as [|ev l Hev _ IH]; [reflexivity|].
  destruct ev; try discriminate. cbn [filter]. rewrite Hf. exact IH.
Qed.

(** C7: when both speech endpoints answer without success for some
    message, an export that starts (no export is running) ends in the
    failure state.  The call returns, the exporting flag is down and the
    note is the failure note; the trace of the attempt is the mount of the
    host, speech requests, and one error report: nothing is captured, no
    file is written, nothing is downloaded.  The requests to the first
    endpoint are those of the messages up to the one where the loop
    stopped, one each and in order, and no message has more than one
    request to the second endpoint: nothing is retried. *)
Theorem export_fails_on_synthesis_failure (w : World) (fuel : nat) (s : State)
    (pre : list Message) (m : Message) (rest : list Message)
    (r1 r2 : Response) :
  exporting s = false ->
  messages s = pre ++ m :: rest ->
  fetch w UserVoiceSpeech (Z.of_nat (List.length pre)) (voice_of s m) (text m)
  = Some r1 ->
  ok r1 = false ->
  fetch w AudioSpeech (Z.of_nat (List.length pre)) (voice_of s m) (text m)
  = Some r2 ->
  ok r2 = false ->
  exists (s' : State) (fetches : list Event) (e : string) (j : nat),
    exportMp4Exact w fuel s = (Ok tt, s')
    /\ exporting s' = false
    /\ exportNote s' = "Export failed. See console."%string
    /\ inputs s' = inputs s
    /\ events s'
       = events s
         ++ [Render (ExportHost s (messages s) (naturalDurationMs (messages s)));
             AwaitFrame]
         ++ fetches ++ [ConsoleError e]
    /\ Forall (fun ev => is_fetch ev = true) fetches
    /\ filter is_download (events s') = filter is_download (events s)
    /\ filter is_capture (events s') = filter is_capture (events s)
    /\ filter is_write (events s') = filter is_write (events s)
    /\ filter is_console_error (events s')
       = filter is_console_error (events s) ++ [ConsoleError e]
    /\ j <= List.length pre + 1
    /\ requests_to UserVoiceSpeech fetches
       = map (fun x => (voice_of s x, text x)) (firstn j (messages s))
    /\ List.length (requests_to AudioSpeech fetches) <= j.
Proof.
  intros Hexp Hms H1 Hok1 H2 Hok2.
  unfold exportMp4Exact. rewrite Hexp.
  unfold export_try. cbn [root_render].
  unfold bind at 1. cbn [setTab].
  unfold bind at 1. cbn [setExporting].
  unfold bind at 1. cbn [setExportNote].
  unfold bind at 1, get.
  unfold bind at 1, emit at 1.
  unfold bind at 1, emit at 1.
  unfold bind at 1. cbn [setExportNote].
  unfold bind at 1.
  cbn [messages events set_events contactName avatarUrl timeLine senderVoice
       receiverVoice voices tab exporting exportNote].
  match goal with
  | |- context [speech_loop w ?n 0 ?l [] [] ?st] =>
      set (s1 := st); set (n0 := n)
  end.
  assert (Hin1 : inputs s1 = inputs s) by reflexivity.
  rewrite Hms.
  destruct (speech_loop_fails w n0 m rest (voice_of s m) r1 r2 Hok1 Hok2 pre
              0 [] [] s1 (voice_of_inputs _ _ m Hin1) H1 H2)
    as [e [s2 [fetches [j [Hloop [Hext [Hf [Hj [Hreq Hsec]]]]]]]]].
  rewrite Hloop.
  destruct Hext as [Hin2 [Htab2 [Hexp2 Hev2]]].
  unfold export_catch, bind, setExportNote, emit, setExporting.
  cbn [events set_events contactName avatarUrl timeLine messages senderVoice
       receiverVoice voices tab exporting exportNote].
  assert (Hev : events s2
                = events s
                  ++ [Render (ExportHost s (pre ++ m :: rest)
                                (naturalDurationMs (pre ++ m :: rest)));
                      AwaitFrame] ++ fetches).
  { rewrite Hev2. subst s1. cbn [events set_events].
    rewrite <- !app_assoc. rewrite Hms. reflexivity. }
  eexists. exists fetches, e, j.
  split; [reflexivity|].
  cbn [events set_events contactName avatarUrl timeLine messages senderVoice
       receiverVoice voices tab exporting exportNote inputs].
  split; [reflexivity|]. split; [reflexivity|].
  split.
  { transitivity (inputs s2); [reflexivity|]. rewrite Hin2. exact Hin1. }
  rewrite Hev.
  split; [rewrite <- !app_assoc; reflexivity|].
  split; [exact Hf|].
  rewrite <- !app_assoc. rewrite !filter_app.
  rewrite !(filter_fetches _ fetches) by (reflexivity || exact Hf).
  cbn [filter is_download is_capture is_write is_console_error app].
  rewrite !app_nil_r.
  repeat (split; [reflexivity|]).
  split; [exact Hj|].
  split; [|exact Hsec].
  rewrite Hreq. apply map_ext. intros x.
  rewrite (voice_of_inputs _ _ x Hin1). reflexivity.
Qed.

Lemma export_fails_on_synthesis_failure_witness :
  exists s' : State,
    exportMp4Exact world_tts_down 0 builder0 = (Ok tt, s')
    /\ exporting s' = false
    /\ exportNote s' = "Export failed. See console."%string
    /\ filter is_download (events s') = [].
Proof.
  destruct (export_fails_on_synthesis_failure world_tts_down 0 builder0
              [mkMessage "a" SENDER "Hey, you free?" None None None]
              (mkMessage "b" RECEIVER "Yep! On my way." None None None)
              [mkMessage "c" SENDER "Great" None None None]
              (mkResponse false 500 []) (mkResponse false 500 [])
              eq_refl eq_refl eq_refl eq_refl eq_refl eq_refl)
    as [s' [fetches [e [j [Hrun [Hexp [Hnote [_ [_ [_ [Hdl _]]]]]]]]]]].
  exists s'. repeat split; assumption.
Defined.

(** The trace of the export of three messages when both endpoints answer
    500 for the second one. *)
Example export_trace_tts_down :
  events (snd (exportMp4Exact world_tts_down 0 builder0))
  = [Render (ExportHost builder0 (messages builder0) (of_Z 10500));
     AwaitFrame;
     Fetch UserVoiceSpeech "adam" "Hey, you free?";
     Fetch UserVoiceSpeech "alloy" "Yep! On my way.";
     Fetch AudioSpeech "alloy" "Yep! On my way.";
     ConsoleError "TTS failed (500)"].
Proof. vm_compute. reflexivity. Qed.


(* ------------------------------------------------------------------ *)
(** ** More facts about numbers *)

Section MoreNumberFacts.

Local Open Scope Q_scope.

Lemma Math_max_Fin (a b : Q) :
  Math_max (Fin a) (Fin b) = if Qle_bool a b then Fin b else Fin a.
Proof. reflexivity. Qed.

Lemma Math_min_Fin (a b : Q) :
  Math_min (Fin a) (Fin b) = if Qle_bool a b then Fin a else Fin b.
Proof. reflexivity. Qed.

Lemma Math_max_of_Z (a b : Z) : Math_max (of_Z a) (of_Z b) = of_Z (Z.max a b).
Proof.
  change (Math_max (of_Z a) (of_Z b))
    with (if le (of_Z a) (of_Z b) then of_Z b else of_Z a).
  rewrite le_of_Z. destruct (Z.leb_spec a b).
  - rewrite Z.max_r by lia. reflexivity.
  - rewrite Z.max_l by lia. reflexivity.
Qed.

Lemma mul_Fin (a b : Q) : mul (Fin a) (Fin b) = Fin (Qred (a * b)).
Proof. reflexivity. Qed.

Lemma sub_Fin (a b : Q) : sub (Fin a) (Fin b) = Fin (Qred (a - b)).
Proof. reflexivity. Qed.

Lemma add_Fin (a b : Q) : add (Fin a) (Fin b) = Fin (Qred (a + b)).
Proof. reflexivity. Qed.

Lemma div_Fin (a b : Q) :
  ~ b == 0 -> div (Fin a) (Fin b) = Fin (Qred (a / b)).
Proof.
  intros Hb. cbn [div]. unfold is_zero.
  destruct (Qeq_bool b 0) eqn:E; [|reflexivity].
  apply Qeq_bool_iff in E. contradiction.
Qed.

Lemma div_Fin_Z (a : Q) (z : Z) :
  z <> 0%Z -> div (Fin a) (of_Z z) = Fin (Qred (a / inject_Z z)).
Proof.
  intros Hz. apply div_Fin. intros H.
  apply Hz. exact (proj1 (inject_Z_injective z 0) H).
Qed.

Lemma le_Fin (a b : Q) : le (Fin a) (Fin b) = true <-> a <= b.
Proof. cbn [le]. apply Qle_bool_iff. Qed.

Lemma Math_round_Fin (q : Q) :
  Math_round (Fin q) = of_Z (Qfloor (q + (1 # 2))).
Proof. reflexivity. Qed.

Lemma Math_round_Qred (q : Q) :
  Math_round (Fin (Qred q)) = of_Z (Qfloor (q + (1 # 2))).
Proof.
  rewrite Math_round_Fin. f_equal. apply Qfloor_comp.
  rewrite Qred_correct. reflexivity.
Qed.

Lemma Math_floor_Qred (q : Q) : Math_floor (Fin (Qred q)) = of_Z (Qfloor q).
Proof.
  cbn [Math_floor]. f_equal. apply Qfloor_comp. apply Qred_correct.
Qed.

(** The floor of a rational is the whole number just below it. *)
Lemma Qfloor_bounds (q : Q) :
  inject_Z (Qfloor q) <= q /\ q < inject_Z (Qfloor q) + 1.
Proof.
  split; [apply Qfloor_le|].
  pose proof (Qlt_floor q) as H. rewrite inject_Z_plus in H. exact H.
Qed.

Lemma Qfloor_unique (q : Q) (z : Z) :
  inject_Z z <= q -> q < inject_Z z + 1 -> Qfloor q = z.
Proof.
  intros H1 H2. destruct (Qfloor_bounds q) as [F1 F2].
  assert (A : (z < Qfloor q + 1)%Z).
  { rewrite Zlt_Qlt, inject_Z_plus. change (inject_Z 1) with 1. lra. }
  assert (B : (Qfloor q < z + 1)%Z).
  { rewrite Zlt_Qlt, inject_Z_plus. change (inject_Z 1) with 1. lra. }
  lia.
Qed.

Lemma Qle_inject_Z (a b : Z) : inject_Z a <= inject_Z b <-> (a <= b)%Z.
Proof. rewrite <- Zle_Qle. reflexivity. Qed.

Lemma Qlt_inject_Z (a b : Z) : inject_Z a < inject_Z b <-> (a < b)%Z.
Proof. rewrite <- Zlt_Qlt. reflexivity. Qed.

End MoreNumberFacts.

(* ------------------------------------------------------------------ *)
(** ** The helpers *)

Section Helpers.

Local Open Scope Q_scope.

Lemma clamp01_Fin (q : Q) :
  clamp01 (Fin q)
  = if Qle_bool 1 q then of_Z 1
    else if Qle_bool 0 q then Fin q else of_Z 0.
Proof.
  unfold clamp01. unfold of_Z at 2. rewrite Math_min_Fin.
  change (inject_Z 1) with 1.
  destruct (Qle_bool 1 q) eqn:E1.
  - reflexivity.
  - unfold of_Z at 1. rewrite Math_max_Fin. change (inject_Z 0) with 0.
    destruct (Qle_bool 0 q); reflexivity.
Qed.

(** What [clamp01] gives on a finite number, as a rational. *)
Lemma clamp01_value (q : Q) :
  exists c : Q, clamp01 (Fin q) = Fin c /\ 0 <= c /\ c <= 1
                /\ (0 <= q -> q <= 1 -> c == q).
Proof.
  rewrite clamp01_Fin.
  destruct (Qle_bool 1 q) eqn:E1.
  - apply Qle_bool_iff in E1. exists 1. repeat split; intros; try lra; try reflexivity.
  - assert (H1 : ~ 1 <= q) by (rewrite <- Qle_bool_iff, E1; discriminate).
    destruct (Qle_bool 0 q) eqn:E0.
    + apply Qle_bool_iff in E0. exists q. repeat split; intros; try lra; try reflexivity.
    + assert (H0 : ~ 0 <= q) by (rewrite <- Qle_bool_iff, E0; discriminate).
      exists 0. repeat split; intros; try lra; try reflexivity.
Qed.

End Helpers.

(** X1: [clamp01] of a number that is not [NaN] is between 0 and 1, a
    number between 0 and 1 is returned as it is, clamping twice is
    clamping once, and [NaN] stays [NaN]. *)
Theorem clamp01_range (n : number) :
  clamp01 NaN = NaN
  /\ clamp01 (clamp01 n) = clamp01 n
  /\ (n <> NaN ->
      le (of_Z 0) (clamp01 n) = true /\ le (clamp01 n) (of_Z 1) = true)
  /\ (le (of_Z 0) n = true -> le n (of_Z 1) = true -> same (clamp01 n) n).
Proof.
  split; [reflexivity|].
  destruct n as [| | |q];
    try (repeat split; intros; (congruence || discriminate)).
  rewrite clamp01_Fin.
  destruct (Qle_bool 1 q) eqn:E1; [|destruct (Qle_bool 0 q) eqn:E0].
  - repeat split; intros; try reflexivity.
    cbn [le of_Z same] in *. apply Qle_bool_iff in E1, H0.
    change (inject_Z 1) with 1%Q in *. lra.
  - split; [rewrite clamp01_Fin, E1, E0; reflexivity|].
    split; [intros _; split; [exact E0|]|intros; reflexivity].
    cbn [le of_Z]. apply Qle_bool_iff.
    assert (~ (1 <= q)%Q) by (rewrite <- Qle_bool_iff, E1; discriminate).
    change (inject_Z 1) with 1%Q. lra.
  - repeat split; intros; try reflexivity.
    cbn [le of_Z] in H. change (inject_Z 0) with 0%Q in H. congruence.
Qed.

Lemma clamp01_range_witness :
  le (of_Z 0) (clamp01 (Fin (7 # 2))) = true
  /\ le (clamp01 (Fin (7 # 2))) (of_Z 1) = true
  /\ same (clamp01 (Fin (1 # 3))) (Fin (1 # 3)).
Proof.
  split; [|split].
  - apply (proj1 (proj2 (proj2 (clamp01_range (Fin (7 # 2)))))). discriminate.
  - apply (proj1 (proj2 (proj2 (clamp01_range (Fin (7 # 2)))))). discriminate.
  - apply (proj2 (proj2 (proj2 (clamp01_range (Fin (1 # 3)))))); reflexivity.
Defined.

Section Fmt.

Local Open Scope Q_scope.

Lemma toString_of_Z (z : Z) : toString (of_Z z) = String_Z z.
Proof. cbn [toString of_Z]. rewrite Qfloor_Z. reflexivity. Qed.

(** Where the binary64 numbers are at most [2^-10] apart, rounding a
    number that is at least that far below the next whole number keeps
    its floor. *)
Lemma floor_round64 (x : Q) (n : Z) :
  (0 <= n < 2 ^ 43)%Z ->
  inject_Z n <= x -> x <= inject_Z n + 1 - (1 # 1024) ->
  exists v : Q, round64 x = Fin v /\ Qfloor v = n.
Proof.
  intros Hn Hlo Hhi.
  assert (Elo : round64 (inject_Z n) = of_Z n)
    by (apply round64_Z; [lia|reflexivity]).
  set (u := inject_Z n + 1 - (1 # 1024)).
  assert (Eu : u == inject_Z ((n + 1) * 1024 - 1) * pow2 (-10)).
  { replace ((n + 1) * 1024 - 1)%Z with ((n + 1) * 1024 + -1)%Z by lia.
    rewrite inject_Z_plus, inject_Z_mult, inject_Z_plus.
    change (pow2 (-10)) with (1 # 1024). change (inject_Z 1024) with 1024.
    change (inject_Z 1) with 1. change (inject_Z (-1)) with (-1).
    unfold u. lra. }
  assert (N0 : 0 <= inject_Z n)
    by (change 0 with (inject_Z 0); rewrite <- Zle_Qle; lia).
  assert (N1 : inject_Z n < inject_Z (2 ^ 43)) by (rewrite <- Zlt_Qlt; lia).
  assert (Ehi : round64 u = Fin (Qred u)).
  { apply (round64_exact u ((n + 1) * 1024 - 1) (-10)); [lia|lia|exact Eu|].
    apply Qabs_Qlt_condition.
    assert (P : inject_Z (2 ^ 43) + 1 < pow2 1024).
    { apply Qlt_trans with (pow2 44); [|apply pow2_lt; lia].
      rewrite (pow2_inject 44) by lia. change 1 with (inject_Z 1).
      rewrite <- inject_Z_plus, <- Zlt_Qlt. reflexivity. }
    unfold u. split; lra. }
  pose proof (round64_mono _ _ Hlo) as M1. rewrite Elo in M1.
  pose proof (round64_mono _ _ Hhi) as M2. fold u in M2. rewrite Ehi in M2.
  pose proof (round64_not_NaN x) as NN.
  set (c := Qred u) in *.
  destruct (round64 x) as [| | |v].
  - contradiction.
  - cbn [le] in M2. discriminate M2.
  - discriminate M1.
  - exists v. split; [reflexivity|].
    cbn [le of_Z] in M1, M2. apply Qle_bool_iff in M1, M2.
    unfold c in M2. rewrite Qred_correct in M2. unfold u in M2.
    apply Qfloor_unique; lra.
Qed.

(** Minutes: the floor of the binary64 quotient by 60 is the whole
    quotient. *)
Lemma floor_div64_60 (s : Z) :
  (0 <= s <= 2 ^ 43)%Z ->
  Math_floor (div64 (of_Z s) (of_Z 60)) = of_Z (s / 60).
Proof.
  intros Hs. change (of_Z 60) with (Fin 60). unfold of_Z at 1.
  rewrite div64_Fin by discriminate.
  pose proof (Z.div_mod s 60 ltac:(lia)) as Hdm.
  pose proof (Z.mod_pos_bound s 60 ltac:(lia)) as Hmod.
  assert (Hn : (0 <= s / 60 < 2 ^ 43)%Z).
  { split; [apply Z.div_pos; lia|].
    apply Z.div_lt_upper_bound; lia. }
  assert (Es : inject_Z s == 60 * inject_Z (s / 60) + inject_Z (s mod 60)).
  { rewrite Hdm at 1. rewrite inject_Z_plus, inject_Z_mult. reflexivity. }
  assert (M0 : 0 <= inject_Z (s mod 60))
    by (change 0 with (inject_Z 0); rewrite <- Zle_Qle; lia).
  assert (M1 : inject_Z (s mod 60) <= 59)
    by (change 59 with (inject_Z 59); rewrite <- Zle_Qle; lia).
  destruct (floor_round64 (inject_Z s / 60) (s / 60) Hn) as [v [Hv Hf]].
  - apply Qle_shift_div_l; [reflexivity|]. lra.
  - apply Qle_shift_div_r; [reflexivity|]. lra.
  - rewrite Hv. cbn [Math_floor]. rewrite Hf. reflexivity.
Qed.

(** Seconds: below [2^52] ms the floor of the binary64 quotient by 1000
    is a whole number up to [2^43], and it is the whole quotient when
    the time is a whole number of milliseconds. *)
Lemma floor_div64_1000 (q : Q) :
  q < pow2 52 ->
  exists s : Z,
    Math_max (of_Z 0) (Math_floor (div64 (Fin q) (of_Z 1000))) = of_Z s
    /\ s = Z.max 0 (Qfloor (value (div64 (Fin q) (of_Z 1000))))
    /\ (0 <= s <= 2 ^ 43)%Z
    /\ (forall z : Z, q == inject_Z z -> s = Z.max 0 (z / 1000)).
Proof.
  intros Hq. change (of_Z 1000) with (Fin 1000).
  rewrite div64_Fin by discriminate.
  assert (Hx : q / 1000 <= inject_Z (2 ^ 43)).
  { apply Qle_shift_div_r; [reflexivity|].
    rewrite (pow2_inject 52) in Hq by lia.
    apply Qlt_le_weak, Qlt_le_trans with (1 := Hq).
    change 1000 with (inject_Z 1000).
    rewrite <- inject_Z_mult, <- Zle_Qle. vm_compute. discriminate. }
  pose proof (round64_mono _ _ Hx) as M.
  rewrite (round64_Z (inject_Z (2 ^ 43)) (2 ^ 43)) in M
    by (reflexivity || lia).
  pose proof (round64_not_NaN (q / 1000)) as NN.
  assert (Hwhole : forall (z : Z) (v : Q),
             q == inject_Z z -> round64 (q / 1000) = Fin v ->
             Z.max 0 (Qfloor v) = Z.max 0 (z / 1000)).
  { intros z v Ez Ev.
    destruct (Z_lt_le_dec z 0) as [Hz|Hz].
    - assert (Hneg : q / 1000 <= 0).
      { apply Qle_shift_div_r; [reflexivity|]. rewrite Ez, Qmult_0_l.
        change 0 with (inject_Z 0). rewrite <- Zle_Qle. lia. }
      pose proof (round64_nonpos _ Hneg) as P. rewrite Ev in P.
      cbn [le of_Z] in P. apply Qle_bool_iff in P.
      change (inject_Z 0) with 0 in P.
      assert (Qfloor v <= 0)%Z.
      { change 0%Z with (Qfloor 0). apply Qfloor_resp_le. exact P. }
      assert (z / 1000 < 0)%Z by (apply Z.div_lt_upper_bound; lia).
      lia.
    - pose proof (Z.div_mod z 1000 ltac:(lia)) as Hdm.
      pose proof (Z.mod_pos_bound z 1000 ltac:(lia)) as Hmod.
      assert (Hz52 : (z < 2 ^ 52)%Z).
      { rewrite Zlt_Qlt, <- (pow2_inject 52) by lia. rewrite <- Ez. exact Hq. }
      assert (Hn : (0 <= z / 1000 < 2 ^ 43)%Z).
      { split; [apply Z.div_pos; lia|].
        apply Z.div_lt_upper_bound; lia. }
      assert (Es : inject_Z z
                   == 1000 * inject_Z (z / 1000) + inject_Z (z mod 1000)).
      { rewrite Hdm at 1. rewrite inject_Z_plus, inject_Z_mult. reflexivity. }
      assert (M0 : 0 <= inject_Z (z mod 1000))
        by (change 0 with (inject_Z 0); rewrite <- Zle_Qle; lia).
      assert (M1 : inject_Z (z mod 1000) <= 999)
        by (change 999 with (inject_Z 999); rewrite <- Zle_Qle; lia).
      destruct (floor_round64 (q / 1000) (z / 1000) Hn) as [v' [Hv' Hf]].
      + apply Qle_shift_div_l; [reflexivity|]. lra.
      + apply Qle_shift_div_r; [reflexivity|]. lra.
      + rewrite Ev in Hv'. injection Hv' as <-. rewrite Hf. reflexivity. }
  destruct (round64 (q / 1000)) as [| | |v] eqn:Ev.
  - contradiction.
  - discriminate M.
  - exists 0%Z. split; [reflexivity|]. split; [reflexivity|].
    split; [lia|].
    intros z Ez. symmetry. apply Z.max_l.
    destruct (Z_lt_le_dec z 0) as [Hz|Hz].
    + assert (z / 1000 < 0)%Z by (apply Z.div_lt_upper_bound; lia). lia.
    + exfalso.
      assert (Hpos : 0 <= q / 1000).
      { apply Qle_shift_div_l; [reflexivity|]. rewrite Ez, Qmult_0_l.
        change 0 with (inject_Z 0). rewrite <- Zle_Qle. lia. }
      pose proof (round64_nonneg _ Hpos) as P. rewrite Ev in P.
      discriminate P.
  - exists (Z.max 0 (Qfloor v)).
    cbn [Math_floor value]. rewrite Math_max_of_Z.
    split; [reflexivity|]. split; [reflexivity|].
    cbn [le of_Z] in M. apply Qle_bool_iff in M.
    split.
    + split; [lia|]. apply Z.max_lub; [lia|].
      rewrite <- (Qfloor_Z (2 ^ 43)). apply Qfloor_resp_le. exact M.
    + intros z Ez. exact (Hwhole z v Ez eq_refl).
Qed.

Lemma rem_of_Z_60 (s : Z) :
  (0 <= s)%Z -> rem (of_Z s) (of_Z 60) = of_Z (s mod 60).
Proof.
  intros Hs.
  change (rem (of_Z s) (of_Z 60))
    with (Fin (Qred (inject_Z s
                     - inject_Z 60
                       * inject_Z (Qtrunc (inject_Z s / inject_Z 60))))).
  unfold of_Z. f_equal. apply Qred_eq_inject_Z.
  assert (Hq : 0 <= inject_Z s / inject_Z 60).
  { apply Qle_shift_div_l; [reflexivity|].
    rewrite Qmult_0_l. change 0 with (inject_Z 0). rewrite <- Zle_Qle. exact Hs. }
  unfold Qtrunc. apply Qle_bool_iff in Hq. rewrite Hq.
  rewrite <- Zdiv_Qdiv, <- inject_Z_mult.
  unfold Qminus. rewrite <- inject_Z_opp, <- inject_Z_plus.
  rewrite Z.mod_eq by lia. reflexivity.
Qed.

(** The seconds field: two digits for a number below 60. *)
Lemma padStart_two_digits (r : Z) :
  (0 <= r < 60)%Z ->
  padStart 2 (String_Z r)
  = String (digit (r / 10)) (String (digit (r mod 10)) EmptyString).
Proof.
  intros Hr. rewrite <- (Z2Nat.id r) by lia.
  assert (Hn : (Z.to_nat r < 60)%nat) by lia.
  revert Hn. generalize (Z.to_nat r). clear r Hr. intros n Hn.
  do 60 (destruct n as [|n]; [vm_compute; reflexivity|]).
  lia.
Qed.

End Fmt.

(** X2: for a time below [2^52] ms, [fmt] prints the whole seconds
    [s = max(0, floor(ms / 1000))] of the binary64 quotient as the minutes
    [floor(s / 60)], a colon, and the seconds [s mod 60] on exactly two
    digits.  For a whole number of milliseconds [s] is the whole quotient
    by 1000, so a whole time below one second, a negative one included,
    prints as 0:00.  [NaN] prints as NaN:NaN. *)
Theorem fmt_minutes_seconds (q : Q) :
  (q < pow2 52)%Q ->
  fmt (Fin q)
  = (String_Z
       (Z.max 0 (Qfloor (value (div64 (Fin q) (of_Z 1000)))) / 60)
     ++ ":"
     ++ String
          (digit ((Z.max 0 (Qfloor (value (div64 (Fin q) (of_Z 1000))))
                   mod 60) / 10))
          (String
             (digit ((Z.max 0 (Qfloor (value (div64 (Fin q) (of_Z 1000))))
                      mod 60) mod 10))
             EmptyString))%string
  /\ (forall z : Z,
         (q == inject_Z z)%Q ->
         Z.max 0 (Qfloor (value (div64 (Fin q) (of_Z 1000))))
         = Z.max 0 (z / 1000))
  /\ (forall z : Z,
         (q == inject_Z z)%Q -> (z < 1000)%Z -> fmt (Fin q) = "0:00"%string)
  /\ fmt NaN = "NaN:NaN"%string.
Proof.
  intros Hq.
  destruct (floor_div64_1000 q Hq) as [s [Es [Hs [Hb Hz]]]].
  assert (E : fmt (Fin q)
              = (String_Z (s / 60) ++ ":"
                 ++ String (digit ((s mod 60) / 10))
                      (String (digit ((s mod 60) mod 10))
                         EmptyString))%string).
  { unfold fmt. rewrite Es.
    rewrite floor_div64_60 by exact Hb.
    rewrite rem_of_Z_60 by lia.
    rewrite !toString_of_Z.
    rewrite padStart_two_digits by (apply Z.mod_pos_bound; lia).
    reflexivity. }
  rewrite <- Hs.
  split; [exact E|]. split; [exact Hz|]. split; [|reflexivity].
  intros z Ez Hlt. rewrite E, (Hz z Ez).
  assert (z / 1000 <= 0)%Z.
  { assert (z / 1000 < 1)%Z; [|lia]. apply Z.div_lt_upper_bound; lia. }
  rewrite Z.max_l by lia. reflexivity.
Qed.

Lemma fmt_minutes_seconds_witness :
  fmt (Fin (inject_Z 61500)) = "1:01"%string.
Proof.
  rewrite (proj1 (fmt_minutes_seconds (inject_Z 61500) eq_refl)).
  vm_compute. reflexivity.
Defined.

(** X3: the number that [pct] prints is a whole number of hundredths
    between 0 and 100, for every ratio that is not [NaN]; for [NaN] it is
    [NaN]. *)
Theorem pct_number_range (ratio : number) :
  pct_number NaN = NaN
  /\ (ratio <> NaN ->
      exists k : Z,
        (0 <= k <= 10000)%Z
        /\ pct_number ratio = div (of_Z k) (of_Z 100)
        /\ le (of_Z 0) (pct_number ratio) = true
        /\ le (pct_number ratio) (of_Z 100) = true).
Proof.
  split; [reflexivity|]. intros Hn.
  assert (Hk : forall k : Z,
             (0 <= k <= 10000)%Z ->
             le (of_Z 0) (div (of_Z k) (of_Z 100)) = true
             /\ le (div (of_Z k) (of_Z 100)) (of_Z 100) = true).
  { intros k Hk.
    change (div (of_Z k) (of_Z 100))
      with (Fin (Qred (inject_Z k / inject_Z 100))).
    unfold of_Z. rewrite !le_Fin, !Qred_correct.
    assert (H0 : (inject_Z 0 <= inject_Z k)%Q) by (rewrite <- Zle_Qle; lia).
    assert (H1 : (inject_Z k <= inject_Z 10000)%Q) by (rewrite <- Zle_Qle; lia).
    split.
    - apply Qle_shift_div_l; [reflexivity|].
      change (inject_Z 0 * inject_Z 100)%Q with 0%Q.
      change (inject_Z 0) with 0%Q in H0. exact H0.
    - apply Qle_shift_div_r; [reflexivity|]. exact H1. }
  destruct ratio as [| | |q]; [congruence| | |].
  - exists 10000%Z. split; [lia|]. split; [vm_compute; reflexivity|].
    split; reflexivity.
  - exists 0%Z. split; [lia|]. split; [vm_compute; reflexivity|].
    split; reflexivity.
  - destruct (clamp01_value q) as [c [Hc [Hc0 [Hc1 _]]]].
    assert (E : pct_number (Fin q)
                = div (of_Z (Qfloor (c * inject_Z 10000 + (1 # 2)))) (of_Z 100)).
    { unfold pct_number. rewrite Hc. unfold of_Z at 1. rewrite mul_Fin.
      rewrite Math_round_Qred. reflexivity. }
    rewrite E.
    set (k := Qfloor (c * inject_Z 10000 + (1 # 2))).
    assert (Hkr : (0 <= k <= 10000)%Z).
    { destruct (Qfloor_bounds (c * inject_Z 10000 + (1 # 2))) as [F1 F2].
      fold k in F1, F2.
      change (inject_Z 10000) with 10000%Q in *.
      split.
      - assert (A : (-1 < k)%Z); [|lia].
        rewrite Zlt_Qlt. change (inject_Z (-1)) with (-1)%Q.
        assert (0 <= c * 10000)%Q by (apply Qmult_le_0_compat; lra). lra.
      - assert (A : (k < 10001)%Z); [|lia].
        rewrite Zlt_Qlt. change (inject_Z 10001) with 10001%Q.
        assert (c * 10000 <= 10000)%Q by lra. lra. }
    exists k. split; [exact Hkr|]. split; [reflexivity|]. exact (Hk k Hkr).
Qed.

Lemma pct_number_range_witness :
  exists k : Z,
    (0 <= k <= 10000)%Z
    /\ pct_number (Fin (335 # 1000)) = div (of_Z k) (of_Z 100).
Proof.
  destruct (proj2 (pct_number_range (Fin (335 # 1000))) ltac:(discriminate))
    as [k [H1 [H2 _]]].
  exists k. split; assumption.
Defined.

(* ------------------------------------------------------------------ *)
(** ** Layout metrics and preview geometry *)

Section Layout.

Local Open Scope Q_scope.

Lemma Qle_bool_false (a b : Q) : Qle_bool a b = false -> b < a.
Proof.
  intros H. apply Qnot_le_lt. intros Hle.
  apply Qle_bool_iff in Hle. congruence.
Qed.

(** The nearest whole number to a half of a whole number. *)
Lemma round_half_of_Z (n : Z) :
  Math_round (div (of_Z n) (of_Z 2)) = of_Z ((n + 1) / 2).
Proof.
  unfold of_Z at 1. rewrite div_Fin_Z by discriminate.
  rewrite Math_round_Qred. f_equal.
  rewrite Zdiv_Qdiv. apply Qfloor_comp.
  rewrite inject_Z_plus. change (inject_Z 1) with 1. change (inject_Z 2) with 2.
  field.
Qed.

Lemma round_mul_exists (x y : Q) :
  exists z : Z, Math_round (mul (Fin x) (Fin y)) = of_Z z
                /\ inject_Z z <= x * y + (1 # 2) < inject_Z z + 1.
Proof.
  exists (Qfloor (x * y + (1 # 2))). rewrite mul_Fin, Math_round_Qred.
  split; [reflexivity|]. apply Qfloor_bounds.
Qed.

End Layout.

(** X4: for finite settings the HUD is between 300 and 1056 pixels
    wide, it is centred to the pixel, and it lies inside the 1080 pixel
    canvas with at least 12 pixels on each side. *)
Theorem hud_inside_canvas (settings : UISettings) (a b : Q) :
  hudScalePct settings = Fin a ->
  hudWidthPct settings = Fin b ->
  exists w x : Z,
    HUD_W settings = of_Z w
    /\ HUD_X settings = of_Z x
    /\ (300 <= w <= 1056)%Z
    /\ (1080 - w <= 2 * x <= 1080 - w + 1)%Z
    /\ (12 <= x)%Z
    /\ (x + w <= 1068)%Z.
Proof.
  intros Ha Hb.
  destruct (clamp01_value b) as [c [Hc _]].
  assert (Hs : scaleS settings = Fin (Qred (a / inject_Z 100))).
  { unfold scaleS. rewrite Ha. apply div_Fin_Z. discriminate. }
  destruct (round_mul_exists (inject_Z 1080) c) as [z1 [Hz1 _]].
  destruct (round_mul_exists (inject_Z z1) (Qred (a / inject_Z 100)))
    as [z2 [Hz2 _]].
  change (Fin (inject_Z 1080)) with (of_Z 1080) in Hz1.
  change (Fin (inject_Z z1)) with (of_Z z1) in Hz2.
  assert (Hw : HUD_W settings = of_Z (Z.min 1056 (Z.max 300 z2))).
  { unfold HUD_W, baseHUDW, CANVAS_w. rewrite Hb, Hc, Hs, Hz1, Hz2.
    rewrite Math_max_of_Z, sub_of_Z, Math_min_of_Z. reflexivity. }
  exists (Z.min 1056 (Z.max 300 z2)),
         ((1080 - Z.min 1056 (Z.max 300 z2) + 1) / 2)%Z.
  split; [exact Hw|].
  split.
  { unfold HUD_X, CANVAS_w. rewrite Hw, sub_of_Z. apply round_half_of_Z. }
  set (w := Z.min 1056 (Z.max 300 z2)).
  assert (Hwr : (300 <= w <= 1056)%Z) by (subst w; lia).
  pose proof (Z.div_mod (1080 - w + 1) 2 ltac:(lia)) as Hdm.
  pose proof (Z.mod_pos_bound (1080 - w + 1) 2 ltac:(lia)) as Hmod.
  repeat split; lia.
Qed.

Lemma hud_inside_canvas_witness :
  exists w x : Z,
    HUD_W DEFAULT_SETTINGS = of_Z w /\ HUD_X DEFAULT_SETTINGS = of_Z x
    /\ (12 <= x)%Z /\ (x + w <= 1068)%Z.
Proof.
  destruct (hud_inside_canvas DEFAULT_SETTINGS (inject_Z 100) (60 # 100)
              eq_refl eq_refl)
    as [w [x [H1 [H2 [_ [_ [H3 H4]]]]]]].
  exists w, x. repeat split; assumption.
Defined.

(** The metrics of the default settings. *)
Example default_metrics :
  HUD_W DEFAULT_SETTINGS = of_Z 648 /\ HUD_X DEFAULT_SETTINGS = of_Z 216.
Proof. split; vm_compute; reflexivity. Qed.

Section Geometry.

Local Open Scope Q_scope.

(** The third of the viewport, kept between 380 and 580. *)
Lemma baseThirdW_range (v : Q) :
  exists b : Q, baseThirdW (Fin v) = Fin b /\ 380 <= b <= 580.
Proof.
  unfold baseThirdW. rewrite mul_Fin. unfold of_Z.
  rewrite Math_max_Fin.
  change (inject_Z 380) with 380. change (inject_Z 580) with 580.
  destruct (Qle_bool (Qred (v * (33 # 100))) 380) eqn:E1.
  - exists 380. split; [reflexivity|]. split; lra.
  - apply Qle_bool_false in E1. rewrite Math_min_Fin.
    destruct (Qle_bool (Qred (v * (33 # 100))) 580) eqn:E2.
    + apply Qle_bool_iff in E2. eexists. split; [reflexivity|]. split; lra.
    + exists 580. split; [reflexivity|]. split; lra.
Qed.

Lemma ratio_840_470 : div (of_Z 840) (of_Z 470) = Fin (84 # 47).
Proof. vm_compute. reflexivity. Qed.

End Geometry.

(** X6: for every finite viewport width the preview box is between 266
    and 406 pixels wide; the scaled canvas fills the width of the box
    exactly, with no horizontal offset; its height is 16/9 of that width
    to the nearest pixel, it is lower than the box, and with its vertical
    offset it stays inside the box. *)
Theorem preview_fits_box (v : Q) :
  exists w h h' y : Z,
    PRE_W (Fin v) = of_Z w
    /\ PRE_H (Fin v) = of_Z h
    /\ scaledW (Fin v) = of_Z w
    /\ scaledH (Fin v) = of_Z h'
    /\ offsetX (Fin v) = of_Z 0
    /\ offsetY (Fin v) = of_Z y
    /\ (266 <= w <= 406)%Z
    /\ (32 * w - 9 < 18 * h' <= 32 * w + 9)%Z
    /\ (h' < h)%Z
    /\ (0 < y)%Z
    /\ (y + h' <= h)%Z.
Proof.
  destruct (baseThirdW_range v) as [b [Hb [Hb1 Hb2]]].
  destruct (round_mul_exists b (70 # 100)) as [w [Hw [Hw1 Hw2]]].
  assert (HW : PRE_W (Fin v) = of_Z w) by (unfold PRE_W; rewrite Hb; exact Hw).
  assert (Hwr : (266 <= w <= 406)%Z).
  { split.
    - assert (A : (265 < w)%Z); [|lia].
      rewrite Zlt_Qlt. change (inject_Z 265) with 265%Q. lra.
    - assert (A : (w < 407)%Z); [|lia].
      rewrite Zlt_Qlt. change (inject_Z 407) with 407%Q. lra. }
  assert (Hwq1 : (266 <= inject_Z w)%Q)
    by (change 266%Q with (inject_Z 266); rewrite <- Zle_Qle; lia).
  destruct (round_mul_exists (inject_Z w) (84 # 47)) as [h [Hh [Hh1 Hh2]]].
  change (Fin (inject_Z w)) with (of_Z w) in Hh.
  assert (HH : PRE_H (Fin v) = of_Z h).
  { unfold PRE_H. rewrite HW, ratio_840_470. exact Hh. }
  assert (Hsc : scale (Fin v) = Fin (Qred (inject_Z w / inject_Z 1080))).
  { unfold scale, CANVAS_w, CANVAS_h. rewrite HW, HH.
    unfold of_Z at 1 3. rewrite !div_Fin_Z by discriminate.
    rewrite Math_min_Fin.
    match goal with
    | |- context [Qle_bool ?x ?y] => destruct (Qle_bool x y) eqn:E
    end; [reflexivity|].
    apply Qle_bool_false in E. rewrite !Qred_correct in E.
    change (inject_Z 1080) with 1080%Q in E.
    change (inject_Z 1920) with 1920%Q in E.
    exfalso.
    apply (proj2 (Qmult_lt_r _ _ 1920 eq_refl)) in E.
    setoid_replace (inject_Z h / 1920 * 1920)%Q with (inject_Z h) in E
      by field.
    setoid_replace (inject_Z w / 1080 * 1920)%Q with (inject_Z w * (16 # 9))%Q
      in E by field.
    lra. }
  destruct (round_mul_exists (inject_Z 1080) (Qred (inject_Z w / inject_Z 1080)))
    as [w' [Hw' [Hw'1 Hw'2]]].
  destruct (round_mul_exists (inject_Z 1920) (Qred (inject_Z w / inject_Z 1080)))
    as [h' [Hh' [Hh'1 Hh'2]]].
  change (Fin (inject_Z 1080)) with (of_Z 1080) in Hw'.
  change (Fin (inject_Z 1920)) with (of_Z 1920) in Hh'.
  rewrite Qred_correct in Hw'1, Hw'2, Hh'1, Hh'2.
  change (inject_Z 1080) with 1080%Q in *.
  change (inject_Z 1920) with 1920%Q in *.
  assert (Ew : (1080 * (inject_Z w / 1080) == inject_Z w)%Q) by field.
  assert (Eh : (1920 * (inject_Z w / 1080) == inject_Z w * (16 # 9))%Q) by field.
  rewrite Ew in Hw'1, Hw'2. rewrite Eh in Hh'1, Hh'2.
  assert (Hww : w' = w).
  { assert (A : (w' < w + 1)%Z).
    { rewrite Zlt_Qlt, inject_Z_plus. change (inject_Z 1) with 1%Q. lra. }
    assert (B : (w < w' + 1)%Z).
    { rewrite Zlt_Qlt, inject_Z_plus. change (inject_Z 1) with 1%Q. lra. }
    lia. }
  subst w'.
  assert (HSW : scaledW (Fin v) = of_Z w)
    by (unfold scaledW, CANVAS_w; rewrite Hsc; exact Hw').
  assert (HSH : scaledH (Fin v) = of_Z h')
    by (unfold scaledH, CANVAS_h; rewrite Hsc; exact Hh').
  assert (Hasp : (32 * w - 9 < 18 * h' <= 32 * w + 9)%Z).
  { split.
    - rewrite Zlt_Qlt. unfold Z.sub.
      rewrite inject_Z_plus, !inject_Z_mult.
      change (inject_Z 32) with 32%Q. change (inject_Z 18) with 18%Q.
      change (inject_Z (- (9))) with (-9)%Q. lra.
    - rewrite Zle_Qle.
      rewrite inject_Z_plus, !inject_Z_mult.
      change (inject_Z 32) with 32%Q. change (inject_Z 18) with 18%Q.
      change (inject_Z 9) with 9%Q. lra. }
  assert (Hlow : (h' + 2 <= h)%Z).
  { assert (A : (h' + 1 < h)%Z); [|lia].
    rewrite Zlt_Qlt, inject_Z_plus. change (inject_Z 1) with 1%Q. lra. }
  exists w, h, h', ((h - h' + 1) / 2)%Z.
  split; [exact HW|]. split; [exact HH|]. split; [exact HSW|].
  split; [exact HSH|].
  split.
  { unfold offsetX. rewrite HW, HSW, sub_of_Z, Z.sub_diag. reflexivity. }
  pose proof (Z.div_mod (h - h' + 1) 2 ltac:(lia)) as Hdm.
  pose proof (Z.mod_pos_bound (h - h' + 1) 2 ltac:(lia)) as Hmod.
  split.
  { unfold offsetY. rewrite HH, HSH, sub_of_Z, round_half_of_Z, Math_max_of_Z.
    f_equal. lia. }
  repeat split; lia.
Qed.

(* ------------------------------------------------------------------ *)
(** ** Editing the message list *)

Section Arrays.

Context {A : Type}.

Lemma values_map_Some (l : list A) : values (map Some l) = Some l.
Proof.
  induction l as [|x l IH]; [reflexivity|].
  cbn [map values]. rewrite IH. reflexivity.
Qed.

Lemma array_get_map_Some (l : list A) (i : nat) :
  array_get (map Some l) i = nth_error l i.
Proof.
  unfold array_get. rewrite nth_error_map.
  destruct (nth_error l i); reflexivity.
Qed.

Lemma replace_at_length {B : Type} (l : list B) (i : nat) (v : B) :
  List.length (replace_at l i v) = List.length l.
Proof.
  revert i. induction l as [|x l IH]; intros [|i]; cbn; try reflexivity.
  rewrite IH. reflexivity.
Qed.

Lemma replace_at_map_Some (l : list A) (i : nat) (v : A) :
  replace_at (map Some l) i (Some v) = map Some (replace_at l i v).
Proof.
  revert i. induction l as [|x l IH]; intros [|i]; cbn; try reflexivity.
  rewrite IH. reflexivity.
Qed.

Lemma replace_at_nth_same {B : Type} (l : list B) (i : nat) (v : B) :
  i < List.length l -> nth_error (replace_at l i v) i = Some v.
Proof.
  revert i. induction l as [|x l IH]; intros [|i] H; cbn in *; try lia.
  - reflexivity.
  - apply IH. lia.
Qed.

Lemma replace_at_nth_other {B : Type} (l : list B) (i k : nat) (v : B) :
  k <> i -> nth_error (replace_at l i v) k = nth_error l k.
Proof.
  revert i k. induction l as [|x l IH]; intros [|i] [|k] H; cbn;
    try reflexivity; try congruence.
  apply IH. congruence.
Qed.

Lemma replace_at_same {B : Type} (l : list B) (i : nat) (v : B) :
  nth_error l i = Some v -> replace_at l i v = l.
Proof.
  revert i. induction l as [|x l IH]; intros [|i] H; cbn in *;
    try discriminate.
  - injection H as ->. reflexivity.
  - rewrite IH by exact H. reflexivity.
Qed.

(** Putting [x] where [y] was, and [y] in front, is a permutation. *)
Lemma replace_at_perm (l : list A) (i : nat) (x y : A) :
  nth_error l i = Some y ->
  Permutation (x :: l) (y :: replace_at l i x).
Proof.
  revert i. induction l as [|z l IH]; intros [|i] H; cbn in *;
    try discriminate.
  - injection H as ->. apply perm_swap.
  - apply IH in H.
    apply perm_trans with (z :: x :: l); [apply perm_swap|].
    apply perm_trans with (z :: y :: replace_at l i x);
      [apply perm_skip; exact H|apply perm_swap].
Qed.

Lemma replace_two_perm (l : list A) (a b : nat) (x y : A) :
  nth_error l a = Some x -> nth_error l b = Some y ->
  Permutation l (replace_at (replace_at l a y) b x).
Proof.
  revert a b. induction l as [|z l IH]; intros [|a] [|b] Ha Hb; cbn in *;
    try discriminate.
  - injection Ha as ->. injection Hb as ->. apply Permutation_refl.
  - injection Ha as ->. apply replace_at_perm. exact Hb.
  - injection Hb as Hzy. subst z. apply replace_at_perm. exact Ha.
  - apply perm_skip. apply IH; assumption.
Qed.

End Arrays.

Section Swap.

Context {A : Type}.

Lemma values_hole (c : list (option A)) (i : nat) :
  nth_error c i = Some None -> values c = None.
Proof.
  revert i. induction c as [|x c IH]; intros [|i] H; cbn in *;
    try discriminate.
  - injection H as ->. reflexivity.
  - destruct x; [|reflexivity]. rewrite (IH i H). reflexivity.
Qed.

(** Within range, [swap] is the two replacements on a list without
    holes. *)
Lemma swap_in_range (arr : list A) (a b : nat) (x y : A) :
  nth_error arr a = Some x -> nth_error arr b = Some y ->
  swap arr a b = map Some (replace_at (replace_at arr a y) b x).
Proof.
  intros Ha Hb.
  assert (La : a < List.length arr) by (apply nth_error_Some; congruence).
  assert (Lb : b < List.length arr) by (apply nth_error_Some; congruence).
  unfold swap, array_set. rewrite !array_get_map_Some, Ha, Hb.
  rewrite length_map.
  destruct (Nat.ltb_spec a (List.length arr)); [|lia].
  rewrite replace_at_length, length_map.
  destruct (Nat.ltb_spec b (List.length arr)); [|lia].
  rewrite !replace_at_map_Some. reflexivity.
Qed.

(** Within range, [swap] exchanges the two elements, keeps the others,
    and is undone by the same swap. *)
Lemma swap_within (arr : list A) (a b : nat) :
  a < List.length arr -> b < List.length arr ->
  exists l : list A,
    swap arr a b = map Some l
    /\ List.length l = List.length arr
    /\ Permutation arr l
    /\ nth_error l a = nth_error arr b
    /\ nth_error l b = nth_error arr a
    /\ (forall k : nat, k <> a -> k <> b -> nth_error l k = nth_error arr k)
    /\ swap l a b = map Some arr.
Proof.
  intros La Lb.
  destruct (nth_error arr a) as [x|] eqn:Ha;
    [|apply nth_error_None in Ha; lia].
  destruct (nth_error arr b) as [y|] eqn:Hb;
    [|apply nth_error_None in Hb; lia].
  set (l := replace_at (replace_at arr a y) b x).
  assert (Hlb : nth_error l b = Some x).
  { subst l. apply replace_at_nth_same. rewrite replace_at_length. exact Lb. }
  assert (Hla : nth_error l a = Some y).
  { subst l. destruct (Nat.eq_dec a b) as [->|Hab].
    - rewrite replace_at_nth_same by (rewrite replace_at_length; exact Lb).
      congruence.
    - rewrite replace_at_nth_other by exact Hab.
      apply replace_at_nth_same. exact La. }
  assert (Hlk : forall k, k <> a -> k <> b -> nth_error l k = nth_error arr k).
  { intros k Hka Hkb. subst l.
    rewrite !replace_at_nth_other by assumption. reflexivity. }
  exists l.
  split; [apply (swap_in_range arr a b x y Ha Hb)|].
  split; [subst l; rewrite !replace_at_length; reflexivity|].
  split; [apply replace_two_perm; assumption|].
  split; [exact Hla|]. split; [exact Hlb|]. split; [exact Hlk|].
  rewrite (swap_in_range l a b y x Hla Hlb). f_equal.
  apply nth_error_ext. intros k.
  assert (Ll : List.length l = List.length arr)
    by (subst l; rewrite !replace_at_length; reflexivity).
  destruct (Nat.eq_dec k b) as [->|Hkb].
  + rewrite replace_at_nth_same
      by (rewrite replace_at_length, Ll; exact Lb).
    symmetry. exact Hb.
  + rewrite replace_at_nth_other by exact Hkb.
    destruct (Nat.eq_dec k a) as [->|Hka].
    * rewrite replace_at_nth_same by (rewrite Ll; exact La).
      symmetry. exact Ha.
    * rewrite replace_at_nth_other by exact Hka. apply Hlk; assumption.
Qed.

(** A first index past the end leaves a hole at the second index. *)
Lemma swap_past_end (arr : list A) (a b : nat) :
  List.length arr <= a -> b < List.length arr ->
  values (swap arr a b) = None.
Proof.
  intros La Lb. apply (values_hole _ b).
  unfold swap, array_set. rewrite !array_get_map_Some, length_map.
  destruct (Nat.ltb_spec a (List.length arr)); [lia|].
  assert (Hna : nth_error arr a = None) by (apply nth_error_None; lia).
  rewrite Hna.
  match goal with
  | |- nth_error (if Nat.ltb b (List.length ?c) then _ else _) _ = _ =>
      assert (Lc : b < List.length c)
        by (rewrite !length_app, length_map; lia);
      destruct (Nat.ltb_spec b (List.length c)); [|lia]
  end.
  apply replace_at_nth_same. assumption.
Qed.

End Swap.

(** X7: for two indices within the array, [swap] returns a list without
    holes, of the same length, that is a permutation of the input; it has
    exchanged the two elements and kept every other element in place; and
    swapping again gives the input back.  When the first index is past the
    end and the second is not, the result has a hole. *)
Theorem swap_exchanges {A : Type} (arr : list A) (a b : nat) :
  (a < List.length arr -> b < List.length arr ->
   exists l : list A,
     swap arr a b = map Some l
     /\ List.length l = List.length arr
     /\ Permutation arr l
     /\ nth_error l a = nth_error arr b
     /\ nth_error l b = nth_error arr a
     /\ (forall k : nat, k <> a -> k <> b -> nth_error l k = nth_error arr k)
     /\ swap l a b = map Some arr)
  /\ (List.length arr <= a -> b < List.length arr ->
      values (swap arr a b) = None).
Proof.
  split; [apply swap_within|apply swap_past_end].
Qed.

Lemma swap_exchanges_witness :
  exists l : list nat,
    swap [10; 20; 30] 0 2 = map Some l /\ Permutation [10; 20; 30] l
    /\ nth_error l 0 = Some 30.
Proof.
  destruct (proj1 (swap_exchanges [10; 20; 30] 0 2)) as [l [H1 [_ [H2 [H3 _]]]]].
  - cbn. lia.
  - cbn. lia.
  - exists l. repeat split; assumption.
Defined.

(** X8: [upMsg] at the first row and [dnMsg] at the last row (or past
    it) leave the list as it is.  In between, moving row [i] down is
    moving row [i + 1] up: both exchange the two rows, keep all the
    messages, and moving the row back up restores the list. *)
Theorem move_rows (m : list Message) (i : nat) :
  upMsg 0 m = map Some m
  /\ (List.length m <= i + 1 -> dnMsg i m = map Some m)
  /\ (i + 1 < List.length m ->
      dnMsg i m = upMsg (i + 1) m
      /\ exists l : list Message,
           dnMsg i m = map Some l
           /\ Permutation m l
           /\ nth_error l i = nth_error m (i + 1)
           /\ nth_error l (i + 1) = nth_error m i
           /\ upMsg (i + 1) l = map Some m).
Proof.
  split; [reflexivity|]. split.
  - intros H. unfold dnMsg.
    destruct (Z.leb_spec (Z.of_nat (List.length m) - 1) (Z.of_nat i));
      [reflexivity|lia].
  - intros H.
    assert (Hdn : dnMsg i m = swap m i (i + 1)).
    { unfold dnMsg.
      destruct (Z.leb_spec (Z.of_nat (List.length m) - 1) (Z.of_nat i));
        [lia|reflexivity]. }
    assert (Hup : forall l : list Message,
               upMsg (i + 1) l = swap l (i + 1) i).
    { intros l. unfold upMsg.
      destruct (Z.leb_spec (Z.of_nat (i + 1)) 0); [lia|].
      replace (i + 1 - 1) with i by lia. reflexivity. }
    destruct (swap_within m i (i + 1) ltac:(lia) ltac:(lia))
      as [l [Hl [Hlen [Hperm [H1 [H2 [Hk Hback]]]]]]].
    destruct (nth_error m i) as [x|] eqn:Hx;
      [|apply nth_error_None in Hx; lia].
    destruct (nth_error m (i + 1)) as [y|] eqn:Hy;
      [|apply nth_error_None in Hy; lia].
    assert (Hsym : forall (c : list Message) (u v : Message),
               nth_error c i = Some u -> nth_error c (i + 1) = Some v ->
               swap c (i + 1) i = swap c i (i + 1)).
    { intros c u v Hu Hv.
      rewrite (swap_in_range c (i + 1) i v u Hv Hu).
      rewrite (swap_in_range c i (i + 1) u v Hu Hv). f_equal.
      apply nth_error_ext. intros k.
      assert (Lu : i < List.length c) by (apply nth_error_Some; congruence).
      assert (Lv : i + 1 < List.length c) by (apply nth_error_Some; congruence).
      destruct (Nat.eq_dec k i) as [->|Hki];
        [|destruct (Nat.eq_dec k (i + 1)) as [->|Hki1]].
      - rewrite replace_at_nth_same by (rewrite replace_at_length; lia).
        rewrite replace_at_nth_other by lia.
        rewrite replace_at_nth_same by lia. reflexivity.
      - rewrite replace_at_nth_other by lia.
        rewrite replace_at_nth_same by lia.
        rewrite replace_at_nth_same by (rewrite replace_at_length; lia).
        reflexivity.
      - rewrite !replace_at_nth_other by assumption. reflexivity. }
    split.
    + rewrite Hdn, Hup. symmetry. apply (Hsym m x y Hx Hy).
    + exists l. rewrite Hdn.
      split; [exact Hl|]. split; [exact Hperm|].
      split; [exact H1|]. split; [exact H2|].
      rewrite Hup, (Hsym l y x); [exact Hback|congruence|congruence].
Qed.

Lemma move_rows_witness :
  dnMsg 0 three_messages = upMsg 1 three_messages.
Proof.
  apply (proj2 (proj2 (move_rows three_messages 0))). cbn. lia.
Defined.

Lemma String_eqb_false (a b : string) : String.eqb a b = false <-> a <> b.
Proof. apply String.eqb_neq. Qed.

(** X9: [delMsg] removes every message with the given id and no other
    message; a list without that id is unchanged; and when the ids are
    unique and the id is there, exactly one message goes and the ids stay
    unique. *)
Theorem delMsg_removes (i : string) (m : list Message) :
  ~ In i (map id (delMsg i m))
  /\ (forall x : Message, In x (delMsg i m) <-> In x m /\ id x <> i)
  /\ (~ In i (map id m) -> delMsg i m = m)
  /\ (NoDup (map id m) ->
      NoDup (map id (delMsg i m))
      /\ (In i (map id m) -> S (List.length (delMsg i m)) = List.length m)).
Proof.
  assert (Hin : forall x : Message, In x (delMsg i m) <-> In x m /\ id x <> i).
  { intros x. unfold delMsg. rewrite filter_In, negb_true_iff.
    rewrite String.eqb_neq. reflexivity. }
  assert (Hsame : forall l : list Message,
             ~ In i (map id l) -> delMsg i l = l).
  { induction l as [|x l IH]; intros H; [reflexivity|].
    cbn [map In] in H. unfold delMsg in *. cbn [filter].
    destruct (String.eqb_spec (id x) i) as [E|E]; cbn [negb].
    - exfalso. apply H. left. exact E.
    - rewrite IH; [reflexivity|]. intros Hc. apply H. right. exact Hc. }
  split.
  { rewrite in_map_iff. intros [x [Hx Hi]]. apply Hin in Hi. tauto. }
  split; [exact Hin|]. split; [apply Hsame|].
  intros Hnd. split.
  - clear Hin Hsame. induction m as [|x l IH]; [constructor|].
    cbn [map] in Hnd. inversion Hnd as [|? ? Hx Hl]; subst.
    unfold delMsg in *. cbn [filter].
    destruct (negb (String.eqb (id x) i)); [|apply IH; exact Hl].
    cbn [map]. constructor; [|apply IH; exact Hl].
    rewrite in_map_iff. intros [y [Hy Hyin]]. apply filter_In in Hyin.
    apply Hx. rewrite in_map_iff. exists y. tauto.
  - clear Hin. induction m as [|x l IH]; intros Hi; [destruct Hi|].
    cbn [map] in Hnd, Hi. inversion Hnd as [|? ? Hx Hl]; subst.
    unfold delMsg in *. cbn [filter].
    destruct (String.eqb_spec (id x) i) as [E|E]; cbn [negb List.length].
    + subst i. rewrite (Hsame l Hx). reflexivity.
    + f_equal. apply IH; [exact Hl|].
      destruct Hi as [Hi|Hi]; [contradiction|exact Hi].
Qed.

Lemma delMsg_removes_witness :
  NoDup (map id (delMsg "m1" three_messages))
  /\ S (List.length (delMsg "m1" three_messages)) = List.length three_messages.
Proof.
  assert (H : NoDup (map id three_messages)).
  { cbn. repeat constructor; cbn; intuition discriminate. }
  destruct (proj2 (proj2 (proj2 (delMsg_removes "m1" three_messages))) H)
    as [H1 H2].
  split; [exact H1|]. apply H2. cbn. tauto.
Defined.

Lemma apply_patch_id (x : Message) (p : Patch) : id (apply_patch x p) = id x.
Proof. destruct p; reflexivity. Qed.

(** X10: no edit of a field changes the ids, their order or the number
    of messages; [setField] patches the rows with the given id and leaves
    every other row as it is. *)
Theorem edits_keep_ids (i : string) (p : Patch) (m : list Message) :
  map id (setField i p m) = map id m
  /\ map id (swapAll m) = map id m
  /\ map id (resetDelays m) = map id m
  /\ map id (clearTapbacks m) = map id m
  /\ (forall (k : nat) (x : Message),
         nth_error m k = Some x ->
         nth_error (setField i p m) k
         = Some (if String.eqb (id x) i then apply_patch x p else x))
  /\ (forall x : Message, In x m -> id x <> i -> In x (setField i p m)).
Proof.
  assert (Hmap : forall f : Message -> Message,
             (forall x, id (f x) = id x) -> map id (map f m) = map id m).
  { intros f Hf. rewrite map_map. apply map_ext. exact Hf. }
  split.
  { apply Hmap. intros x. destruct (String.eqb (id x) i);
      [apply apply_patch_id|reflexivity]. }
  split; [apply Hmap; intros x; apply apply_patch_id|].
  split; [apply Hmap; intros x; apply apply_patch_id|].
  split; [apply Hmap; intros x; apply apply_patch_id|].
  split.
  - intros k x Hk. unfold setField. rewrite nth_error_map, Hk. reflexivity.
  - intros x Hx Hi. unfold setField. apply in_map_iff. exists x.
    apply String.eqb_neq in Hi. rewrite Hi. split; [reflexivity|exact Hx].
Qed.

Lemma edits_keep_ids_witness :
  nth_error (setField "m1" (PatchText "hi") three_messages) 1
  = Some (apply_patch (msg "m1" (Some (of_Z 5))) (PatchText "hi")).
Proof.
  exact (proj1 (proj2 (proj2 (proj2 (proj2
           (edits_keep_ids "m1" (PatchText "hi") three_messages)))))
           1 (msg "m1" (Some (of_Z 5))) eq_refl).
Defined.

Lemma schedule_map_same_delays (f : Message -> Message) (m : list Message) :
  (forall x, id (f x) = id x /\ delay_s (f x) = delay_s x) ->
  forall acc : number, schedule_map acc (map f m) = schedule_map acc m.
Proof.
  intros Hf. induction m as [|x m IH]; intros acc; [reflexivity|].
  cbn [map schedule_map]. destruct (Hf x) as [Hi Hd].
  unfold delayMs. rewrite Hi, Hd, IH. reflexivity.
Qed.

Lemma schedule_map_reset (m : list Message) (a : Z) :
  map at_ (schedule_map (of_Z a) (resetDelays m))
  = map (fun k => of_Z (a + 3000 * Z.of_nat k)) (seq 0 (List.length m)).
Proof.
  revert a. induction m as [|x m IH]; intros a; [reflexivity|].
  unfold resetDelays in *. cbn [map schedule_map at_ List.length seq].
  replace (delayMs (apply_patch x (PatchDelay None))) with (of_Z 3000)
    by reflexivity.
  rewrite add_of_Z, IH, <- seq_shift, map_map.
  f_equal; [f_equal; lia|].
  apply map_ext. intros k. f_equal. lia.
Qed.

(** X11: only the delays decide the reveal schedule.  Swapping the
    speakers, clearing the tapbacks and every [setField] that is not a
    delay leave the schedule as it is, and after [resetDelays] message [k]
    is revealed at exactly 3000 * k ms. *)
Theorem schedule_after_edits (i : string) (p : Patch) (m : list Message) :
  schedule (swapAll m) = schedule m
  /\ schedule (clearTapbacks m) = schedule m
  /\ ((forall v, p <> PatchDelay v) -> schedule (setField i p m) = schedule m)
  /\ map at_ (schedule (resetDelays m))
     = map (fun k => of_Z (3000 * Z.of_nat k)) (seq 0 (List.length m)).
Proof.
  split; [|split; [|split]].
  - apply schedule_map_same_delays. intros x. split; reflexivity.
  - apply schedule_map_same_delays. intros x. split; reflexivity.
  - intros Hp. apply schedule_map_same_delays. intros x.
    destruct (String.eqb (id x) i); [|split; reflexivity].
    destruct p; try (split; reflexivity).
    exfalso. apply (Hp v). reflexivity.
  - unfold schedule. rewrite schedule_map_reset.
    apply map_ext. intros k. reflexivity.
Qed.

Lemma schedule_after_edits_witness :
  schedule (setField "m1" (PatchText "hi") three_messages)
  = schedule three_messages.
Proof.
  apply (proj1 (proj2 (proj2
           (schedule_after_edits "m1" (PatchText "hi") three_messages)))).
  intros v. discriminate.
Defined.

(** X12: a drop does nothing when no row is dragged or when the row is
    dropped on itself.  Else, for a dragged row within the list, the new
    list has no hole and keeps all the messages; the dragged message is
    at the target index (at the end when the target is past it), and the
    other messages keep their order. *)
Theorem handleDrop_moves (m : list Message) (d target : nat) :
  handleDrop None target m = None
  /\ handleDrop (Some d) d m = None
  /\ (d <> target -> d < List.length m ->
      exists (l : list Message) (x : Message),
        handleDrop (Some d) target m = Some (map Some l)
        /\ nth_error m d = Some x
        /\ Permutation m l
        /\ nth_error l (Nat.min target (List.length m - 1)) = Some x
        /\ (firstn (Nat.min target (List.length m - 1)) l
            ++ skipn (S (Nat.min target (List.length m - 1))) l
            = firstn d m ++ skipn (S d) m)%list).
Proof.
  split; [reflexivity|]. split.
  { unfold handleDrop. rewrite Nat.eqb_refl. reflexivity. }
  intros Hdt Hd.
  destruct (nth_error m d) as [x|] eqn:Hx; [|apply nth_error_None in Hx; lia].
  set (c := (firstn d m ++ skipn (S d) m)%list).
  assert (Hm : m = (firstn d m ++ x :: skipn (S d) m)%list)
    by (symmetry; apply firstn_skipn_middle; exact Hx).
  assert (Lc : List.length c = List.length m - 1).
  { subst c. rewrite length_app, length_firstn, length_skipn. lia. }
  exists (firstn target c ++ x :: skipn target c)%list, x.
  assert (Lf : List.length (firstn target c)
               = Nat.min target (List.length m - 1))
    by (rewrite length_firstn, Lc; reflexivity).
  split.
  { unfold handleDrop. apply Nat.eqb_neq in Hdt. rewrite Hdt.
    unfold drop_at. rewrite array_get_map_Some, Hx.
    rewrite skipn_map, firstn_map, <- map_app. fold c.
    rewrite skipn_map, firstn_map.
    change (Some x :: map Some (skipn target c))
      with (map Some (x :: skipn target c)).
    rewrite <- map_app. reflexivity. }
  split; [reflexivity|].
  split.
  { rewrite Hm at 1. apply perm_trans with (x :: c).
    - apply Permutation_sym. apply Permutation_middle.
    - rewrite <- (firstn_skipn target c) at 1. apply Permutation_middle. }
  split.
  { rewrite <- Lf. rewrite nth_error_app2 by lia. rewrite Nat.sub_diag.
    reflexivity. }
  rewrite <- Lf.
  rewrite firstn_app, firstn_all, Nat.sub_diag. cbn [firstn].
  rewrite app_nil_r.
  replace (S (List.length (firstn target c)))
    with (List.length (firstn target c ++ [x])%list)
    by (rewrite length_app; cbn; lia).
  replace (firstn target c ++ x :: skipn target c)%list
    with ((firstn target c ++ [x]) ++ skipn target c)%list
    by (rewrite <- app_assoc; reflexivity).
  rewrite skipn_app, skipn_all, Nat.sub_diag. cbn [skipn app].
  apply firstn_skipn.
Qed.

Lemma handleDrop_moves_witness :
  exists (l : list Message) (x : Message),
    handleDrop (Some 0) 2 three_messages = Some (map Some l)
    /\ nth_error l 2 = Some x /\ id x = "m0"%string.
Proof.
  destruct (proj2 (proj2 (handleDrop_moves three_messages 0 2)))
    as [l [x [H1 [H2 [_ [H3 _]]]]]].
  - discriminate.
  - cbn. lia.
  - exists l, x. split; [exact H1|]. split; [exact H3|].
    injection H2 as <-. reflexivity.
Defined.

(** X13: [goNext] raises the step by one and stops at step 5, [goPrev]
    lowers it by one and stops at step 1, and each undoes the other
    between the two ends. *)
Theorem tabs_step (x : Tab) :
  stepIndex (goNext x) = Nat.min 5 (stepIndex x + 1)
  /\ stepIndex (goPrev x) = Nat.max 1 (stepIndex x - 1)
  /\ (x <> EXPORT -> goPrev (goNext x) = x)
  /\ (x <> SCRIPT -> goNext (goPrev x) = x).
Proof.
  destruct x; repeat split; intros; try reflexivity; congruence.
Qed.

Lemma tabs_step_witness : goPrev (goNext VOICES) = VOICES.
Proof.
  apply (proj1 (proj2 (proj2 (tabs_step VOICES)))). discriminate.
Defined.

(* ------------------------------------------------------------------ *)
(** ** The voice list *)

Lemma includes_In (x : string) (l : list string) :
  includes x l = true <-> In x l.
Proof.
  unfold includes. rewrite existsb_exists. split.
  - intros [y [Hy E]]. apply String.eqb_eq in E. subst y. exact Hy.
  - intros H. exists x. split; [exact H|apply String.eqb_refl].
Qed.

Lemma Forall_firstn {A : Type} (P : A -> Prop) (n : nat) (l : list A) :
  Forall P l -> Forall P (firstn n l).
Proof.
  intros H. revert n. induction H as [|x l Hx _ IH]; intros [|n]; cbn;
    constructor; auto.
Qed.

Lemma next_voices_spec (names : list string) :
  In "adam"%string (next_voices names)
  /\ Forall (fun v => nonempty v = true) (next_voices names)
  /\ 1 <= List.length (next_voices names) <= 65.
Proof.
  unfold next_voices.
  set (base := match filter nonempty names with
               | [] => fallback_voices
               | _ :: _ => filter nonempty names
               end).
  assert (Hb : Forall (fun v => nonempty v = true) base).
  { subst base. destruct (filter nonempty names) as [|v l] eqn:E.
    - repeat constructor.
    - rewrite <- E. apply Forall_forall. intros x Hx.
      apply filter_In in Hx. apply Hx. }
  assert (Hl : List.length (firstn 64 base) <= 64)
    by (rewrite length_firstn; lia).
  pose proof (Forall_firstn _ 64 _ Hb) as Hf.
  destruct (includes "adam" (firstn 64 base)) eqn:E.
  - split; [apply includes_In; exact E|]. split; [exact Hf|].
    apply includes_In in E.
    destruct (firstn 64 base); [destruct E|cbn in *; lia].
  - split; [left; reflexivity|]. split; [constructor; [reflexivity|exact Hf]|].
    cbn [List.length]. lia.
Qed.

(** X14: whatever the library answers, and also when the request
    throws, the voice list after [fetchVoices] has between 1 and 65 names,
    none of them empty, and adam is among them; a voice that was selected
    stays selected, and the sender has a voice afterwards; the messages are
    not touched. *)
Theorem fetchVoices_voices (answer : option (list string)) (s : State) :
  In "adam"%string (voices (fetchVoices answer s))
  /\ Forall (fun v => nonempty v = true) (voices (fetchVoices answer s))
  /\ 1 <= List.length (voices (fetchVoices answer s)) <= 65
  /\ nonempty (senderVoice (fetchVoices answer s)) = true
  /\ (nonempty (senderVoice s) = true ->
      senderVoice (fetchVoices answer s) = senderVoice s)
  /\ (nonempty (receiverVoice s) = true ->
      receiverVoice (fetchVoices answer s) = receiverVoice s)
  /\ (nonempty (senderVoice s) = false ->
      In (senderVoice (fetchVoices answer s)) (voices (fetchVoices answer s)))
  /\ messages (fetchVoices answer s) = messages s.
Proof.
  destruct answer as [names|]; cbn [fetchVoices set_voices voices senderVoice
                                     receiverVoice messages].
  - destruct (next_voices_spec names) as [Hadam [Hne Hlen]].
    split; [exact Hadam|]. split; [exact Hne|]. split; [exact Hlen|].
    destruct (next_voices names) as [|v0 rest] eqn:E; [cbn in Hlen; lia|].
    inversion Hne as [|? ? Hv0 Hrest]; subst.
    cbn [nth_error].
    split.
    { destruct (senderVoice s) eqn:Es; [rewrite Hv0; exact Hv0|reflexivity]. }
    split.
    { destruct (senderVoice s); [discriminate|reflexivity]. }
    split.
    { destruct (receiverVoice s); [discriminate|].
      intros _. reflexivity. }
    split; [|reflexivity].
    destruct (senderVoice s); [|discriminate].
    intros _. rewrite Hv0. left. reflexivity.
  - split; [left; reflexivity|]. split; [repeat constructor|].
    split; [cbn; lia|].
    split; [destruct (senderVoice s); reflexivity|].
    split; [destruct (senderVoice s); [discriminate|reflexivity]|].
    split; [destruct (receiverVoice s); [discriminate|reflexivity]|].
    split; [|reflexivity].
    destruct (senderVoice s); [|discriminate]. intros _. left. reflexivity.
Qed.

Lemma fetchVoices_voices_witness :
  senderVoice (fetchVoices (Some ["zoe"%string; EmptyString; "max"%string]) builder0) = "adam"%string.
Proof.
  exact (proj1 (proj2 (proj2 (proj2 (proj2
           (fetchVoices_voices (Some ["zoe"%string; EmptyString; "max"%string]) builder0)))))
           eq_refl).
Defined.

(* ------------------------------------------------------------------ *)
(** ** The interactive clock *)

Section Clock.

Local Open Scope Q_scope.

Lemma clamp01_finite (r : number) :
  r <> NaN -> exists c : Q, clamp01 r = Fin c /\ 0 <= c /\ c <= 1.
Proof.
  intros Hr. destruct r as [| | |q]; [congruence| | |].
  - exists 1. repeat split; lra.
  - exists 0. repeat split; lra.
  - destruct (clamp01_value q) as [c [H1 [H2 [H3 _]]]]. exists c. auto.
Qed.

Lemma startRef_between (p : Props) (st st' : Preview) :
  between_frames p st st' -> startRef st' = startRef st.
Proof.
  induction 1 as [st|st st' _ IH|st st' _ IH]; [reflexivity|exact IH|].
  rewrite <- IH. unfold rerun, timeline_effect, cancel_current.
  destruct (exportMode p && typeof_number (timeOverrideMs p));
    [|destruct (negb (playing _))];
    repeat (destruct (raf _) as [[|?]|]; cbn [startRef cancelAnimationFrame
                                               requestAnimationFrame]);
    reflexivity.
Qed.

End Clock.

(** X15: in the interactive preview, with a duration that is a
    binary64 number of at least 1 ms, a seek to a ratio that is not [NaN]
    sets the time to the binary64 product [clamp01(r) * durationMs], which
    is between 0 and the duration.  The progress that the transport bar
    then shows is between 0 and 1; it is 0 for a ratio up to 0 and 1 for a
    ratio from 1 on, and it is [clamp01(r)] up to the two roundings: the
    difference is at most [2^-51]. *)
Theorem seek_sets_progress (p : Props) (st : Preview) (r now : number) (D : Q) :
  exportMode p = false ->
  durationMs p = Fin D ->
  (1 <= D)%Q ->
  round64 D = Fin D ->
  r <> NaN ->
  t (onSeekRatio p r now st) = mul64 (clamp01 r) (durationMs p)
  /\ le (of_Z 0) (t (onSeekRatio p r now st)) = true
  /\ le (t (onSeekRatio p r now st)) (durationMs p) = true
  /\ le (of_Z 0) (progress p (onSeekRatio p r now st)) = true
  /\ le (progress p (onSeekRatio p r now st)) (of_Z 1) = true
  /\ (le r (of_Z 0) = true -> progress p (onSeekRatio p r now st) = of_Z 0)
  /\ (le (of_Z 1) r = true -> progress p (onSeekRatio p r now st) = of_Z 1)
  /\ (Qabs (value (progress p (onSeekRatio p r now st)) - value (clamp01 r))
      <= pow2 (-51))%Q.
Proof.
  intros Hm HD Hpos Hbin Hr.
  destruct (clamp01_finite r Hr) as [c [Hc [Hc0 Hc1]]].
  split; [reflexivity|].
  unfold progress, timeMs. rewrite Hm. cbn [andb].
  cbn [onSeekRatio t]. rewrite HD, Hc, mul64_Fin.
  assert (Hcd : (0 <= c * D)%Q) by (apply Qmult_le_0_compat; lra).
  assert (Hcd1 : (c * D <= D)%Q).
  { rewrite <- (Qmult_1_l D) at 2. apply Qmult_le_compat_r; lra. }
  pose proof (round64_nonneg _ Hcd) as T0.
  pose proof (round64_mono _ _ Hcd1) as T1. rewrite Hbin in T1.
  pose proof (round64_not_NaN (c * D)%Q) as TN.
  destruct (round64 (c * D)%Q) as [| | |tv] eqn:Et;
    [contradiction|discriminate T1|discriminate T0|].
  split; [exact T0|]. split; [exact T1|].
  cbn [le of_Z] in T0, T1. apply Qle_bool_iff in T0, T1.
  change (inject_Z 0) with 0%Q in T0.
  rewrite div64_Fin by lra.
  assert (Hy0 : (0 <= tv / D)%Q) by (apply Qle_shift_div_l; lra).
  assert (Hy1 : (tv / D <= 1)%Q) by (apply Qle_shift_div_r; lra).
  pose proof (round64_nonneg _ Hy0) as U0.
  pose proof (round64_mono _ _ Hy1) as U1.
  rewrite (round64_Z 1 1) in U1 by (reflexivity || lia).
  pose proof (round64_not_NaN (tv / D)%Q) as UN.
  destruct (round64 (tv / D)%Q) as [| | |u] eqn:Eu;
    [contradiction|discriminate U1|discriminate U0|].
  cbn [le of_Z] in U0, U1. apply Qle_bool_iff in U0, U1.
  change (inject_Z 0) with 0%Q in U0. change (inject_Z 1) with 1%Q in U1.
  destruct (clamp01_value u) as [c' [Hc' [Hc'0 [Hc'1 Hsame]]]].
  specialize (Hsame U0 U1).
  split; [rewrite Hc'; apply Qle_bool_iff; exact Hc'0|].
  split; [rewrite Hc'; apply Qle_bool_iff; exact Hc'1|].
  split; [|split].
  - intros Hle.
    assert (Ec : (c == 0)%Q).
    { destruct r as [| | |q]; [congruence|discriminate Hle| |].
      - injection Hc as <-. reflexivity.
      - cbn [le of_Z] in Hle. apply Qle_bool_iff in Hle.
        change (inject_Z 0) with 0%Q in Hle.
        destruct (clamp01_value q) as [c2 [H2 [H3 [H4 H5]]]].
        rewrite H2 in Hc. injection Hc as ->.
        rewrite clamp01_Fin in H2.
        destruct (Qle_bool 1 q) eqn:E1;
          [apply Qle_bool_iff in E1; lra|].
        destruct (Qle_bool 0 q) eqn:E0.
        + apply Qle_bool_iff in E0. injection H2 as <-. lra.
        + injection H2 as <-. reflexivity. }
    assert (Etv : tv = 0%Q).
    { rewrite (round64_comp (c * D) 0) in Et by (rewrite Ec; ring).
      injection Et as <-. reflexivity. }
    subst tv.
    rewrite (round64_comp (0 / D) 0) in Eu by (field; lra).
    injection Eu as <-. reflexivity.
  - intros Hle.
    assert (Ec : (c == 1)%Q).
    { destruct r as [| | |q]; [congruence| |discriminate Hle|].
      - injection Hc as <-. reflexivity.
      - cbn [le of_Z] in Hle. apply Qle_bool_iff in Hle.
        change (inject_Z 1) with 1%Q in Hle.
        rewrite clamp01_Fin in Hc. apply Qle_bool_iff in Hle.
        rewrite Hle in Hc. injection Hc as <-. reflexivity. }
    assert (Etv : tv = D).
    { rewrite (round64_comp (c * D) D) in Et by (rewrite Ec; ring).
      rewrite Hbin in Et. injection Et as <-. reflexivity. }
    subst tv.
    rewrite (round64_comp (D / D) 1) in Eu by (field; lra).
    rewrite (round64_Z 1 1) in Eu by (reflexivity || lia).
    injection Eu as <-. reflexivity.
  - rewrite Hc'. cbn [value].
    pose proof (round64_error _ _ Et) as E1.
    pose proof (round64_error _ _ Eu) as E2.
    rewrite (Qabs_pos (c * D)) in E1 by exact Hcd.
    rewrite (Qabs_pos (tv / D)) in E2 by exact Hy0.
    apply Qabs_Qle_condition in E1. apply Qabs_Qle_condition in E2.
    pose proof (pow2_pos (-53)) as A. pose proof (pow2_pos (-1075)) as B.
    assert (B53 : (pow2 (-1075) <= pow2 (-53))%Q) by (apply pow2_le; lia).
    assert (P51 : (pow2 (-51) == 4 * pow2 (-53))%Q).
    { replace (-51)%Z with (2 + -53)%Z by lia. rewrite pow2_add.
      reflexivity. }
    set (y := (tv / D)%Q) in *.
    assert (Ey : (y * D == tv)%Q) by (unfold y; field; lra).
    assert (Yc : (- (pow2 (-53) + pow2 (-1075)) <= y - c
                  /\ y - c <= pow2 (-53) + pow2 (-1075))%Q).
    { split.
      - apply Qnot_lt_le. intros L.
        assert ((y - c) * D < - (pow2 (-53) + pow2 (-1075)) * D)%Q
          by (apply Qmult_lt_compat_r; lra).
        nra.
      - apply Qnot_lt_le. intros L.
        assert ((pow2 (-53) + pow2 (-1075)) * D < (y - c) * D)%Q
          by (apply Qmult_lt_compat_r; lra).
        nra. }
    assert (E2' : (- (pow2 (-53) + pow2 (-1075)) <= u - y
                   /\ u - y <= pow2 (-53) + pow2 (-1075))%Q).
    { split; nra. }
    apply Qabs_Qle_condition. rewrite Hsame, P51. split; lra.
Qed.

Lemma seek_sets_progress_witness :
  (Qabs (value
           (progress (mkProps false "A" None "T" [] (of_Z 60000) None)
              (onSeekRatio (mkProps false "A" None "T" [] (of_Z 60000) None)
                 (Fin (3 # 10)) (of_Z 5)
                 (mount (mkProps false "A" None "T" [] (of_Z 60000) None))))
         - value (clamp01 (Fin (3 # 10))))
   <= pow2 (-51))%Q.
Proof.
  apply (seek_sets_progress (mkProps false "A" None "T" [] (of_Z 60000) None)
           _ (Fin (3 # 10)) (of_Z 5) (inject_Z 60000)).
  - reflexivity.
  - reflexivity.
  - discriminate.
  - vm_compute. reflexivity.
  - discriminate.
Defined.

(** X16: the first frame of a clock that has not started leaves the
    time at the value that the callback has captured, and from then on
    every frame sets the time to that value plus the wall-clock time that
    has passed since the first frame. *)
Theorem frames_follow_wall_clock (st : Preview) (h h' : nat)
    (c now now' : Q) (c' : number) :
  startRef st = None ->
  same (t (on_frame h (Fin c) (Fin now) st)) (Fin c)
  /\ same (t (on_frame h' c' (Fin now') (on_frame h (Fin c) (Fin now) st)))
       (Fin (c + (now' - now))).
Proof.
  intros Hs. unfold on_frame. rewrite Hs. cbn [t startRef same sub].
  split.
  - rewrite !Qred_correct. ring.
  - rewrite !Qred_correct. ring.
Qed.

Lemma frames_follow_wall_clock_witness :
  same (t (on_frame 1 (Fin 0) (Fin 1000)
             (mount (mkProps false "A" None "T" [] (of_Z 60000) None))))
    (Fin 0).
Proof.
  exact (proj1 (frames_follow_wall_clock
                  (mount (mkProps false "A" None "T" [] (of_Z 60000) None))
                  1 1 0 1000 1000 NaN eq_refl)).
Defined.

(** X17: a pause does not stop the clock.  Once the clock has started,
    whatever is played, paused and re-run between two frames, the next
    frame sets the time to the wall-clock time since the start, the time
    spent paused included. *)
Theorem pause_is_counted (p : Props) (st st' : Preview) (s0 : Q)
    (h : nat) (c : number) (now : Q) :
  startRef st = Some (Fin s0) ->
  between_frames p st st' ->
  same (t (on_frame h c (Fin now) st')) (Fin (now - s0))
  /\ playing (onTogglePlay (onTogglePlay st)) = playing st.
Proof.
  intros Hs Hb. split.
  - unfold on_frame. rewrite (startRef_between p st st' Hb), Hs.
    cbn [t same sub]. rewrite Qred_correct. reflexivity.
  - cbn [onTogglePlay playing]. apply negb_involutive.
Qed.

Lemma pause_is_counted_witness :
  same (t (on_frame 2 (Fin 500) (Fin 9000)
             (rerun (mkProps false "A" None "T" [] (of_Z 60000) None)
                (onTogglePlay
                   (rerun (mkProps false "A" None "T" [] (of_Z 60000) None)
                      (onTogglePlay
                         (on_frame 1 (Fin 0) (Fin 1000)
                            (rerun (mkProps false "A" None "T" []
                                      (of_Z 60000) None)
                               (mount (mkProps false "A" None "T" []
                                         (of_Z 60000) None))))))))))
    (Fin (9000 - 1000)).
Proof.
  apply (pause_is_counted (mkProps false "A" None "T" [] (of_Z 60000) None)
           (on_frame 1 (Fin 0) (Fin 1000)
              (rerun (mkProps false "A" None "T" [] (of_Z 60000) None)
                 (mount (mkProps false "A" None "T" [] (of_Z 60000) None))))).
  - vm_compute. reflexivity.
  - apply between_rerun, between_toggle, between_rerun, between_toggle,
      between_refl.
Defined.

(** The invariant of the frame requests. *)
Lemma one_request_invariant (p : Props) (st : Preview) :
  reachable p st ->
  1 <= fresh st
  /\ (pending st = []
      \/ exists (h : nat) (c : number),
           1 <= h /\ raf st = Some h /\ pending st = [(h, c)]).
Proof.
  assert (Hcancel : forall s : Preview,
             1 <= fresh s
             /\ (pending s = []
                 \/ exists (h : nat) (c : number),
                      1 <= h /\ raf s = Some h /\ pending s = [(h, c)]) ->
             1 <= fresh (cancel_current s) /\ pending (cancel_current s) = []).
  { intros s [Hf [He|[h [c [Hh [Hr Hp]]]]]]; unfold cancel_current.
    - destruct (raf s) as [[|k]|]; cbn [fresh pending cancelAnimationFrame];
        try rewrite He; auto.
    - rewrite Hr. destruct h as [|k]; [lia|].
      cbn [fresh pending cancelAnimationFrame]. rewrite Hp.
      cbn [filter fst]. rewrite Nat.eqb_refl. auto. }
  assert (Heffect : forall s : Preview,
             1 <= fresh s /\ pending s = [] ->
             1 <= fresh (timeline_effect p s)
             /\ (pending (timeline_effect p s) = []
                 \/ exists (h : nat) (c : number),
                      1 <= h /\ raf (timeline_effect p s) = Some h
                      /\ pending (timeline_effect p s) = [(h, c)])).
  { intros s [Hf He]. unfold timeline_effect.
    destruct (exportMode p && typeof_number (timeOverrideMs p)); [auto|].
    destruct (negb (playing s)).
    - destruct (Hcancel s (conj Hf (or_introl He))) as [H1 H2]. auto.
    - cbn [requestAnimationFrame fresh pending raf]. rewrite He.
      split; [lia|]. right. exists (fresh s), (t s). auto. }
  induction 1 as [|st _ IH|st h c now _ IH Hin|st _ IH|st r now _ IH
                  |st now _ IH].
  - apply Heffect. apply Hcancel. cbn. auto.
  - apply Heffect. apply Hcancel. exact IH.
  - destruct IH as [Hf [He|[h0 [c0 [Hh [Hr Hp]]]]]].
    + rewrite He in Hin. destruct Hin.
    + rewrite Hp in Hin. destruct Hin as [E|[]]. injection E as <- <-.
      cbn [on_frame fresh pending raf]. rewrite Hp. cbn [filter fst].
      rewrite Nat.eqb_refl. cbn [negb app].
      split; [lia|]. right. exists (fresh st), c0. auto.
  - exact IH.
  - exact IH.
  - exact IH.
Qed.

(** X18: a preview never holds more than one frame request.  After the
    effect has run again, a paused preview, and a preview driven by the
    export, hold none, and a playing interactive preview holds exactly the
    one that the effect has just made. *)
Theorem one_frame_request (p : Props) (st : Preview) :
  reachable p st ->
  List.length (pending st) <= 1
  /\ (playing st = false -> pending (rerun p st) = [])
  /\ (exportMode p && typeof_number (timeOverrideMs p) = true ->
      pending (rerun p st) = [])
  /\ (exportMode p && typeof_number (timeOverrideMs p) = false ->
      playing st = true ->
      pending (rerun p st) = [(fresh st, t st)]
      /\ raf (rerun p st) = Some (fresh st)).
Proof.
  intros Hr. destruct (one_request_invariant p st Hr) as [Hf Hp].
  assert (Hc : pending (cancel_current st) = []
               /\ playing (cancel_current st) = playing st
               /\ fresh (cancel_current st) = fresh st
               /\ t (cancel_current st) = t st).
  { unfold cancel_current.
    destruct Hp as [He|[h [c [Hh [Hraf Hpe]]]]].
    - destruct (raf st) as [[|k]|];
        cbn [pending playing fresh t cancelAnimationFrame];
        try rewrite He; auto.
    - rewrite Hraf. destruct h as [|k]; [lia|].
      cbn [pending playing fresh t cancelAnimationFrame]. rewrite Hpe.
      cbn [filter fst]. rewrite Nat.eqb_refl. auto. }
  destruct Hc as [Hc1 [Hc2 [Hc3 Hc4]]].
  split.
  { destruct Hp as [He|[h [c [_ [_ Hpe]]]]]; [rewrite He|rewrite Hpe];
      cbn; lia. }
  split.
  { intros Hpl. unfold rerun, timeline_effect.
    destruct (exportMode p && typeof_number (timeOverrideMs p)); [exact Hc1|].
    rewrite Hc2, Hpl. cbn [negb].
    unfold cancel_current at 1.
    destruct (raf (cancel_current st)) as [[|k]|];
      cbn [pending cancelAnimationFrame]; try rewrite Hc1; reflexivity. }
  split.
  { intros He. unfold rerun, timeline_effect. rewrite He. exact Hc1. }
  intros He Hpl. unfold rerun, timeline_effect.
  rewrite He, Hc2, Hpl. cbn [negb requestAnimationFrame pending raf].
  rewrite Hc1, Hc3, Hc4. split; reflexivity.
Qed.

Lemma one_frame_request_witness :
  List.length
    (pending (rerun (mkProps false "A" None "T" [] (of_Z 60000) None)
                (mount (mkProps false "A" None "T" [] (of_Z 60000) None))))
  <= 1.
Proof.
  apply (one_frame_request (mkProps false "A" None "T" [] (of_Z 60000) None)).
  apply reach_mount.
Defined.

(* ------------------------------------------------------------------ *)
(** ** The outcome of an export *)

Section ExportRun.

Variable w : World.

(** The speech loop ends, and all it adds to the trace are speech
    requests. *)
Lemma speech_loop_trace (total : nat) (rest : list Message) :
  forall (i : nat) (segs : list bytes) (durs : list number) (s : State),
    exists (r : Result (list bytes * list number)) (s' : State)
           (added : list Event),
      speech_loop w total i rest segs durs s = (r, s')
      /\ r <> Diverge
      /\ extends s s' added
      /\ Forall (fun ev => is_fetch ev = true) added.
Proof.
  induction rest as [|m rest IH]; intros i segs durs s.
  - exists (Ok (segs, durs)), s, []. cbn [speech_loop ret].
    split; [reflexivity|]. split; [discriminate|].
    split; [apply extends_refl|constructor].
  - cbn [speech_loop]. unfold bind at 1, get. unfold bind at 1.
    cbn [setExportNote]. unfold bind at 1.
    match goal with
    | |- context [synthesizeSegment w ?x ?v ?n ?st] =>
        destruct (synthesizeSegment_trace w x v n st)
          as [r [added0 [Hrun [Hnd Hadded0]]]];
        rewrite Hrun; set (s1 := st) in *
    end.
    assert (Hext1 : extends s (set_events s1 (events s1 ++ added0)) added0)
      by (repeat split).
    assert (Hfetch0 : Forall (fun ev => is_fetch ev = true) added0)
      by (destruct Hadded0 as [-> | ->]; repeat constructor).
    destruct r as [seg|e|]; [| |congruence].
    + destruct (IH (S i) (segs ++ [fst seg]) (durs ++ [snd seg])
                  (set_events s1 (events s1 ++ added0)))
        as [r [s' [added [Hloop [Hr [Hext Hf]]]]]].
      exists r, s', (added0 ++ added).
      split; [exact Hloop|]. split; [exact Hr|].
      split; [exact (extends_trans _ _ _ _ _ Hext1 Hext)|].
      apply Forall_app; split; assumption.
    + exists (Throw e), (set_events s1 (events s1 ++ added0)), added0.
      split; [reflexivity|]. split; [discriminate|].
      split; [exact Hext1|exact Hfetch0].
Qed.

(** The [try] block always throws: in the speech loop, or at the
    latest when it renders the root that it has unmounted.  Until then
    it has mounted the host, waited for a frame and sent speech
    requests. *)
Lemma export_try_throws (fuel : nat) (s : State) :
  exists (e : string) (s' : State) (fetches closing : list Event),
    export_try w fuel s = (Throw e, s')
    /\ inputs s' = inputs s
    /\ tab s' = EXPORT
    /\ events s'
       = events s
         ++ [Render (ExportHost s (messages s) (naturalDurationMs (messages s)));
             AwaitFrame]
         ++ fetches ++ closing
    /\ Forall (fun ev => is_fetch ev = true) fetches
    /\ (closing = []
        \/ closing = [Unmount]
           /\ e = "Cannot update an unmounted root."%string).
Proof.
  unfold export_try. cbn [root_render].
  unfold bind at 1. cbn [setTab].
  unfold bind at 1. cbn [setExporting].
  unfold bind at 1. cbn [setExportNote].
  unfold bind at 1, get.
  unfold bind at 1, emit at 1.
  unfold bind at 1, emit at 1.
  unfold bind at 1. cbn [setExportNote].
  unfold bind at 1.
  cbn [messages events set_events contactName avatarUrl timeLine senderVoice
       receiverVoice voices tab exporting exportNote].
  match goal with
  | |- context [speech_loop w ?n 0 ?l [] [] ?st] =>
      destruct (speech_loop_trace n l 0 [] [] st)
        as [r [s2 [fetches [Hloop [Hr [Hext Hf]]]]]];
      rewrite Hloop
  end.
  destruct Hext as [Hin2 [Htab2 [_ Hev2]]].
  cbn [events set_events] in Hev2.
  destruct r as [audio|e|]; [| |congruence].
  - cbv zeta. unfold bind at 1, emit at 1. unfold bind at 1, throw.
    eexists. eexists. exists fetches, [Unmount].
    split; [reflexivity|].
    cbn [events set_events contactName avatarUrl timeLine messages senderVoice
         receiverVoice voices tab exporting exportNote inputs].
    split; [exact Hin2|]. split; [exact Htab2|].
    split; [rewrite Hev2, <- !app_assoc; reflexivity|].
    split; [exact Hf|]. right. split; reflexivity.
  - exists e, s2, fetches, [].
    split; [reflexivity|]. split; [exact Hin2|]. split; [exact Htab2|].
    split; [rewrite Hev2, app_nil_r, <- !app_assoc; reflexivity|].
    split; [exact Hf|]. left. reflexivity.
Qed.

(** So an export that starts always ends in the [catch] block. *)
Lemma exportMp4Exact_fails (fuel : nat) (s : State) :
  exporting s = false ->
  exists (e : string) (s' : State) (fetches closing : list Event),
    exportMp4Exact w fuel s = (Ok tt, s')
    /\ inputs s' = inputs s
    /\ tab s' = EXPORT
    /\ exporting s' = false
    /\ exportNote s' = "Export failed. See console."%string
    /\ events s'
       = events s
         ++ [Render (ExportHost s (messages s) (naturalDurationMs (messages s)));
             AwaitFrame]
         ++ fetches ++ closing ++ [ConsoleError e]
    /\ Forall (fun ev => is_fetch ev = true) fetches
    /\ (closing = []
        \/ closing = [Unmount]
           /\ e = "Cannot update an unmounted root."%string).
Proof.
  intros Hexp. unfold exportMp4Exact. rewrite Hexp.
  destruct (export_try_throws fuel s)
    as [e [s1 [fetches [closing [Htry [Hin [Htab [Hev [Hf Hc]]]]]]]]].
  rewrite Htry.
  unfold export_catch, bind, setExportNote, emit, setExporting.
  cbn [events set_events contactName avatarUrl timeLine messages senderVoice
       receiverVoice voices tab exporting exportNote].
  eexists e, _, fetches, closing.
  split; [reflexivity|].
  cbn [events set_events contactName avatarUrl timeLine messages senderVoice
       receiverVoice voices tab exporting exportNote inputs].
  split; [exact Hin|]. split; [exact Htab|].
  split; [reflexivity|]. split; [reflexivity|].
  split; [rewrite Hev, <- !app_assoc; reflexivity|].
  split; [exact Hf|exact Hc].
Qed.

(** What the trace of a failed export holds. *)
Lemma failed_trace_counts (host : Props) (fetches closing : list Event)
    (e : string) :
  Forall (fun ev => is_fetch ev = true) fetches ->
  closing = [] \/ closing = [Unmount] /\ e = "Cannot update an unmounted root."%string ->
  forall f : Event -> bool,
    f (Render host) = false -> f AwaitFrame = false -> f Unmount = false ->
    (forall ep v x, f (Fetch ep v x) = false) ->
    filter f ([Render host; AwaitFrame] ++ fetches ++ closing
              ++ [ConsoleError e])
    = filter f [ConsoleError e].
Proof.
  intros Hf Hc f H1 H2 H3 H4.
  rewrite !filter_app.
  rewrite (filter_fetches f fetches) by assumption.
  cbn [filter app]. rewrite H1, H2.
  destruct Hc as [-> | [-> _]]; cbn [filter app]; [|rewrite H3];
    reflexivity.
Qed.

End ExportRun.

(** X19: an export that is asked for while another one runs does
    nothing.  Else, whatever the collaborators answer (every call that the
    export awaits is taken to settle), the export never delivers: it ends
    in the [catch] block, because a synthesis throws, or at the latest
    because the root is rendered after it has been unmounted.  The call
    returns with the exporting flag down and the note set to the failure
    note (which the page does not display, as it renders the note only
    while the flag is up); the script, the voices and the other inputs are
    unchanged; and the trace is the mount of the host, a frame wait, speech
    requests, at most the unmount, and one error report: nothing is
    captured, written, run or downloaded. *)
Theorem export_outcomes (w : World) (fuel : nat) (s : State) :
  (exporting s = true -> exportMp4Exact w fuel s = (Ok tt, s))
  /\ (exporting s = false ->
      exists (e : string) (s' : State) (fetches closing : list Event),
        exportMp4Exact w fuel s = (Ok tt, s')
        /\ inputs s' = inputs s
        /\ tab s' = EXPORT
        /\ exporting s' = false
        /\ exportNote s' = "Export failed. See console."%string
        /\ events s'
           = events s
             ++ [Render (ExportHost s (messages s)
                           (naturalDurationMs (messages s)));
                 AwaitFrame]
             ++ fetches ++ closing ++ [ConsoleError e]
        /\ Forall (fun ev => is_fetch ev = true) fetches
        /\ (closing = []
            \/ closing = [Unmount]
               /\ e = "Cannot update an unmounted root."%string)
        /\ filter is_download (events s') = filter is_download (events s)
        /\ filter is_capture (events s') = filter is_capture (events s)
        /\ filter is_write (events s') = filter is_write (events s)
        /\ export_times (events s') = export_times (events s)
        /\ filter is_console_error (events s')
           = filter is_console_error (events s) ++ [ConsoleError e]).
Proof.
  split.
  { intros H. unfold exportMp4Exact. rewrite H. reflexivity. }
  intros H.
  destruct (exportMp4Exact_fails w fuel s H)
    as [e [s' [fetches [closing
         [Hrun [Hin [Htab [Hexp [Hnote [Hev [Hf Hc]]]]]]]]]]].
  exists e, s', fetches, closing.
  repeat (split; [assumption|]).
  rewrite Hev.
  pose proof (failed_trace_counts
                (ExportHost s (messages s) (naturalDurationMs (messages s)))
                fetches closing e Hf Hc) as Hcount.
  rewrite !(filter_app _ (events s)).
  rewrite (Hcount is_download), (Hcount is_capture), (Hcount is_write),
    (Hcount is_console_error);
    try reflexivity.
  cbn [filter is_download is_capture is_write is_console_error].
  rewrite !app_nil_r.
  repeat (split; [reflexivity|]).
  split; [|reflexivity].
  unfold export_times. rewrite !flat_map_app.
  assert (Hft : flat_map (fun ev => match ev with
                                    | SetExportTime ms => [ms]
                                    | _ => []
                                    end) fetches = []).
  { clear Hev Hcount. induction Hf as [|ev l Hev' _ IH]; [reflexivity|].
    cbn [flat_map]. rewrite IH. destruct ev; try discriminate Hev'.
    reflexivity. }
  rewrite Hft.
  destruct Hc as [-> | [-> _]]; cbn [flat_map app]; rewrite !app_nil_r;
    reflexivity.
Qed.

Lemma export_outcomes_witness :
  exists (e : string) (s' : State),
    exportMp4Exact world_ok 20 builder0 = (Ok tt, s')
    /\ exportNote s' = "Export failed. See console."%string
    /\ filter is_download (events s') = [].
Proof.
  destruct (proj2 (export_outcomes world_ok 20 builder0) eq_refl)
    as [e [s' [fetches [closing [H1 [_ [_ [_ [H2 [_ [_ [_ [H3 _]]]]]]]]]]]]].
  exists e, s'. repeat split; assumption.
Defined.

(* ------------------------------------------------------------------ *)
(** ** The export without its encoder *)



(* ------------------------------------------------------------------ *)
(** ** Speech synthesis and the export schedule *)

(** When the voice endpoint answers ok and the audio decodes, one request
    is made and the synthesis returns the body and its duration. *)
Lemma synthesizeSegment_primary (w : World) (txt voice : string) (idx : Z)
    (s : State) (r1 : Response) (d : number) :
  fetch w UserVoiceSpeech idx voice txt = Some r1 -> ok r1 = true ->
  decodeAudioData w (body r1) = Some d ->
  synthesizeSegment w txt voice idx s
  = (Ok (body r1, Math_round (mul64 d (of_Z 1000))),
     set_events s (events s ++ [Fetch UserVoiceSpeech voice txt])).
Proof.
  unfold synthesizeSegment, do_fetch, bind, emit, ret, throw.
  intros H1 Hok Hd. rewrite H1, Hok. cbn [negb]. rewrite Hok.
  cbn [negb]. rewrite Hd. reflexivity.
Qed.

(** X21: a synthesis asks the voice endpoint first.  When that answers
    ok, the general endpoint is not asked and the audio is the answer's
    body; when it answers without success the general endpoint is asked
    once, and its body is the audio when it is ok; the duration is the
    decoded duration in whole milliseconds.  When the first request itself
    is rejected, the synthesis throws without asking the general endpoint,
    and it throws when the audio cannot be decoded. *)
Theorem synthesize_endpoints (w : World) (txt voice : string) (idx : Z)
    (s : State) :
  (forall (r1 : Response) (d : number),
      fetch w UserVoiceSpeech idx voice txt = Some r1 -> ok r1 = true ->
      decodeAudioData w (body r1) = Some d ->
      synthesizeSegment w txt voice idx s
      = (Ok (body r1, Math_round (mul64 d (of_Z 1000))),
         set_events s (events s ++ [Fetch UserVoiceSpeech voice txt])))
  /\ (forall (r1 r2 : Response) (d : number),
         fetch w UserVoiceSpeech idx voice txt = Some r1 -> ok r1 = false ->
         fetch w AudioSpeech idx voice txt = Some r2 -> ok r2 = true ->
         decodeAudioData w (body r2) = Some d ->
         synthesizeSegment w txt voice idx s
         = (Ok (body r2, Math_round (mul64 d (of_Z 1000))),
            set_events s (events s ++ [Fetch UserVoiceSpeech voice txt;
                                       Fetch AudioSpeech voice txt])))
  /\ (fetch w UserVoiceSpeech idx voice txt = None ->
      exists e : string,
        synthesizeSegment w txt voice idx s
        = (Throw e,
           set_events s (events s ++ [Fetch UserVoiceSpeech voice txt])))
  /\ (forall r1 : Response,
         fetch w UserVoiceSpeech idx voice txt = Some r1 -> ok r1 = true ->
         decodeAudioData w (body r1) = None ->
         exists e : string,
           synthesizeSegment w txt voice idx s
           = (Throw e,
              set_events s (events s ++ [Fetch UserVoiceSpeech voice txt]))).
Proof.
  split; [intros r1 d; apply synthesizeSegment_primary|].
  unfold synthesizeSegment, do_fetch, bind, emit, ret, throw.
  split; [|split].
  - intros r1 r2 d H1 Hok1 H2 Hok2 Hd. rewrite H1, Hok1.
    cbn [negb events set_events]. rewrite H2, Hok2. cbn [negb].
    rewrite Hd, <- app_assoc. reflexivity.
  - intros H1. rewrite H1. eexists. reflexivity.
  - intros r1 H1 Hok Hd. rewrite H1, Hok. cbn [negb]. rewrite Hok.
    cbn [negb]. rewrite Hd. eexists. reflexivity.
Qed.

Lemma synthesize_endpoints_witness :
  synthesizeSegment world_ok "hi" "adam" 0 builder0
  = (Ok ([], of_Z 50),
     set_events builder0
       (events builder0 ++ [Fetch UserVoiceSpeech "adam" "hi"])).
Proof.
  exact (proj1 (synthesize_endpoints world_ok "hi" "adam" 0 builder0)
           (mkResponse true 200 []) (Fin (5 # 100)) eq_refl eq_refl eq_refl).
Defined.

Section ExportSchedule.

Local Open Scope Q_scope.




End ExportSchedule.





(* ------------------------------------------------------------------ *)
(** ** An export whose speech succeeds *)

Section SpeechSucceeds.

Variable w : World.

Hypothesis voice_endpoint_ok :
  forall (idx : Z) (voice txt : string),
  exists r : Response,
    fetch w UserVoiceSpeech idx voice txt = Some r /\ ok r = true.

Hypothesis decode_ok :
  forall b : bytes, exists d : number, decodeAudioData w b = Some d.

(** The speech loop returns, with one request for each message, in
    order, to the voice endpoint. *)
Lemma speech_loop_ok (total : nat) (rest : list Message) :
  forall (i : nat) (segs : list bytes) (durs : list number) (s : State),
  exists (audio : list bytes * list number) (s' : State),
    speech_loop w total i rest segs durs s = (Ok audio, s')
    /\ extends s s'
         (map (fun x => Fetch UserVoiceSpeech (voice_of s x) (text x)) rest).
Proof.
  induction rest as [|m rest IH]; intros i segs durs s.
  - exists (segs, durs), s. cbn [speech_loop ret map].
    split; [reflexivity|apply extends_refl].
  - cbn [speech_loop]. unfold bind at 1, get. unfold bind at 1.
    cbn [setExportNote]. unfold bind at 1.
    match goal with
    | |- context [synthesizeSegment w ?x ?v ?n ?st] =>
        destruct (voice_endpoint_ok n v x) as [r [Hr Hok]];
        destruct (decode_ok (body r)) as [d Hd];
        rewrite (synthesizeSegment_primary w x v n st r d Hr Hok Hd)
    end.
    cbn [fst snd].
    match goal with
    | |- context [speech_loop w total (S i) rest ?a ?b ?st] =>
        destruct (IH (S i) a b st) as [audio [s' [Hrun Hext]]];
        set (s2 := st) in *
    end.
    assert (Hext1 : extends s s2 [Fetch UserVoiceSpeech (voice_of s m) (text m)])
      by (repeat split).
    assert (Hin : inputs s2 = inputs s) by apply Hext1.
    exists audio, s'. split; [exact Hrun|].
    cbn [map].
    replace (map (fun x => Fetch UserVoiceSpeech (voice_of s x) (text x)) rest)
      with (map (fun x => Fetch UserVoiceSpeech (voice_of s2 x) (text x)) rest).
    + exact (extends_trans _ _ _ _ _ Hext1 Hext).
    + apply map_ext. intros x. rewrite (voice_of_inputs _ _ x Hin).
      reflexivity.
Qed.

Lemma export_try_remount (fuel : nat) (s : State) :
  exists s' : State,
    export_try w fuel s
    = (Throw "Cannot update an unmounted root."%string, s')
    /\ inputs s' = inputs s
    /\ tab s' = EXPORT
    /\ events s'
       = events s
         ++ [Render (ExportHost s (messages s) (naturalDurationMs (messages s)));
             AwaitFrame]
         ++ map (fun x => Fetch UserVoiceSpeech (voice_of s x) (text x))
              (messages s)
         ++ [Unmount].
Proof.
  unfold export_try. cbn [root_render].
  unfold bind at 1. cbn [setTab].
  unfold bind at 1. cbn [setExporting].
  unfold bind at 1. cbn [setExportNote].
  unfold bind at 1, get.
  unfold bind at 1, emit at 1.
  unfold bind at 1, emit at 1.
  unfold bind at 1. cbn [setExportNote].
  unfold bind at 1.
  cbn [messages events set_events contactName avatarUrl timeLine senderVoice
       receiverVoice voices tab exporting exportNote].
  match goal with
  | |- context [speech_loop w ?n 0 ?l [] [] ?st] =>
      destruct (speech_loop_ok n l 0 [] [] st) as [audio [s2 [Hloop Hext]]];
      rewrite Hloop; set (s1 := st) in *
  end.
  destruct Hext as [Hin2 [Htab2 [_ Hev2]]].
  cbv zeta. unfold bind at 1, emit at 1. unfold bind at 1, throw.
  eexists. split; [reflexivity|].
  cbn [events set_events contactName avatarUrl timeLine messages senderVoice
       receiverVoice voices tab exporting exportNote inputs].
  split; [exact Hin2|]. split; [exact Htab2|].
  rewrite Hev2. subst s1. cbn [events set_events].
  rewrite <- !app_assoc. reflexivity.
Qed.

End SpeechSucceeds.

(** X23: an export never reaches its capture loop, also when no
    collaborator fails.  When the voice endpoint answers every request
    and the audio decodes, an export that starts mounts the host, waits
    for a frame, synthesizes each message once, in order, on the voice
    endpoint, unmounts the root, and then stops: rendering the unmounted
    root throws.  The error is reported, the exporting flag is lowered
    and the note is the failure note; no frame is captured, no file is
    written and nothing is downloaded, whatever the capture library and
    the encoder would do. *)
Theorem export_stops_at_remount (w : World) (fuel : nat) (s : State) :
  exporting s = false ->
  (forall (idx : Z) (voice txt : string),
      exists r : Response,
        fetch w UserVoiceSpeech idx voice txt = Some r /\ ok r = true) ->
  (forall b : bytes, exists d : number, decodeAudioData w b = Some d) ->
  exists s' : State,
    exportMp4Exact w fuel s = (Ok tt, s')
    /\ events s'
       = events s
         ++ [Render (ExportHost s (messages s) (naturalDurationMs (messages s)));
             AwaitFrame]
         ++ map (fun x => Fetch UserVoiceSpeech (voice_of s x) (text x))
              (messages s)
         ++ [Unmount; ConsoleError "Cannot update an unmounted root."]
    /\ inputs s' = inputs s
    /\ tab s' = EXPORT
    /\ exporting s' = false
    /\ exportNote s' = "Export failed. See console."%string
    /\ filter is_capture (events s') = filter is_capture (events s)
    /\ filter is_write (events s') = filter is_write (events s)
    /\ filter is_download (events s') = filter is_download (events s).
Proof.
  intros Hexp Hfetch Hdec.
  destruct (export_try_remount w Hfetch Hdec fuel s)
    as [s1 [Htry [Hin [Htab Hev]]]].
  unfold exportMp4Exact. rewrite Hexp, Htry.
  unfold export_catch, bind, setExportNote, emit, setExporting.
  cbn [events set_events contactName avatarUrl timeLine messages senderVoice
       receiverVoice voices tab exporting exportNote].
  eexists. split; [reflexivity|].
  cbn [events set_events contactName avatarUrl timeLine messages senderVoice
       receiverVoice voices tab exporting exportNote inputs].
  split; [rewrite Hev, <- !app_assoc; reflexivity|].
  split; [exact Hin|]. split; [exact Htab|].
  split; [reflexivity|]. split; [reflexivity|].
  rewrite Hev, <- !app_assoc, !filter_app.
  assert (Hf : forall f : Event -> bool,
             (forall ep v x, f (Fetch ep v x) = false) ->
             filter f (map (fun x => Fetch UserVoiceSpeech (voice_of s x)
                                       (text x)) (messages s)) = []).
  { intros f Hfal. generalize (messages s). intros l.
    induction l as [|x l IH]; [reflexivity|].
    cbn [map filter]. rewrite Hfal. exact IH. }
  rewrite !Hf by reflexivity.
  cbn [filter is_capture is_write is_download app]. rewrite !app_nil_r.
  repeat split; reflexivity.
Qed.

Lemma export_stops_at_remount_witness :
  exists s' : State,
    exportMp4Exact world_ok 20 builder0 = (Ok tt, s')
    /\ events s'
       = [Render (ExportHost builder0 (messages builder0) (of_Z 10500));
          AwaitFrame;
          Fetch UserVoiceSpeech "adam" "Hey, you free?";
          Fetch UserVoiceSpeech "alloy" "Yep! On my way.";
          Fetch UserVoiceSpeech "adam" "Great";
          Unmount;
          ConsoleError "Cannot update an unmounted root."].
Proof.
  destruct (export_stops_at_remount world_ok 20 builder0 eq_refl)
    as [s' [H1 [H2 _]]].
  - intros idx voice txt. eexists. split; reflexivity.
  - intros b. eexists. reflexivity.
  - exists s'. split; [exact H1|]. rewrite H2. reflexivity.
Defined.

(* ------------------------------------------------------------------ *)
(** ** The natural duration *)

Section NaturalDuration.

Local Open Scope Q_scope.

(** With admissible delays, no entry is scheduled after the total of the
    delays. *)
Lemma schedule_map_below_total (ms : list Message) :
  Forall (fun m => delay_ok m = true) ms ->
  forall acc : number,
    le (of_Z 0) acc = true ->
    le acc (delays_total acc ms) = true
    /\ Forall (fun e => le (at_ e) (delays_total acc ms) = true)
         (schedule_map acc ms).
Proof.
  induction 1 as [|m ms Hm _ IH]; intros acc Hacc.
  - split; [exact (le_refl_of_le _ _ Hacc)|constructor].
  - destruct (add_nonneg acc (delayMs m) Hacc (delayMs_nonneg m Hm))
      as [Hup Hnext].
    destruct (IH _ Hnext) as [Htot Hall].
    change (delays_total acc (m :: ms))
      with (delays_total (add acc (delayMs m)) ms).
    assert (Hle : le acc (delays_total (add acc (delayMs m)) ms) = true)
      by exact (number_le_trans _ _ _ Hup Htot).
    split; [exact Hle|].
    cbn [schedule_map]. constructor; [exact Hle|exact Hall].
Qed.

(** The pad of 1500 and the floor of 3000 keep every entry that is not
    after the total revealed. *)
Lemma pad_reveals (a total : number) :
  le a total = true ->
  revealed (Math_max (of_Z 3000) (add total (of_Z 1500)))
    {| entry_id := EmptyString; at_ := a |} = true.
Proof.
  unfold revealed, ge. cbn [at_].
  destruct a as [| | |a], total as [| | |t]; cbn [le]; try congruence;
    intros H; try reflexivity.
  - cbn [sub add]. unfold of_Z. rewrite Math_max_Fin.
    destruct (Qle_bool _ _); reflexivity.
  - apply Qle_bool_iff in H. cbn [sub add]. unfold of_Z.
    rewrite Math_max_Fin.
    destruct (Qle_bool (inject_Z 3000) (Qred (t + inject_Z 1500))) eqn:E.
    + apply Qle_bool_iff. rewrite !Qred_correct.
      assert (inject_Z 5 == 5) by reflexivity.
      assert (inject_Z 1500 == 1500) by reflexivity. lra.
    + apply Qle_bool_false in E. rewrite Qred_correct in E.
      apply Qle_bool_iff. rewrite Qred_correct.
      assert (inject_Z 5 == 5) by reflexivity.
      assert (inject_Z 1500 == 1500) by reflexivity.
      assert (inject_Z 3000 == 3000) by reflexivity. lra.
Qed.

Lemma floor_3000 (total : number) :
  le (of_Z 0) total = true ->
  le (of_Z 3000) (Math_max (of_Z 3000) (add total (of_Z 1500))) = true.
Proof.
  destruct total as [| | |t]; intros H; try discriminate H;
    [reflexivity|].
  cbn [add]. unfold of_Z. rewrite Math_max_Fin.
  destruct (Qle_bool (inject_Z 3000) (Qred (t + inject_Z 1500))) eqn:E.
  - exact E.
  - apply Qle_bool_iff. apply Qle_refl.
Qed.

End NaturalDuration.

(** X24: when every delay is absent or at least 0, the natural duration
    of a script is at least 3000 milliseconds and long enough for the
    whole script: at that time every message has been revealed. *)
Theorem natural_duration_reveals_all (ms : list Message) :
  Forall (fun m => delay_ok m = true) ms ->
  le (of_Z 3000) (naturalDurationMs ms) = true
  /\ visibleCount (schedule ms) (naturalDurationMs ms) = List.length ms.
Proof.
  intros Hok.
  destruct (schedule_map_below_total ms Hok (of_Z 0) eq_refl) as [Htot Hall].
  change (naturalDurationMs ms)
    with (Math_max (of_Z 3000) (add (delays_total (of_Z 0) ms) (of_Z 1500))).
  split; [apply floor_3000; exact Htot|].
  rewrite visibleCount_prefix, revealed_prefix_all.
  - apply schedule_map_length.
  - unfold schedule. eapply Forall_impl; [|exact Hall].
    intros e He. exact (pad_reveals (at_ e) _ He).
Qed.

Lemma natural_duration_reveals_all_witness :
  visibleCount (schedule three_messages) (naturalDurationMs three_messages) = 3.
Proof.
  apply (natural_duration_reveals_all three_messages).
  repeat constructor.
Defined.
